(** * lang_sync.py: the translation synchronisation tool, embedded in Rocq

    A shallow embedding of [translations/lang_sync.py].  File contents are
    sequences of characters; the regular expressions of the script are
    written out as the deterministic matchers they denote; the working
    directory is an association list from file names to contents, in the
    order [os.listdir] enumerates it; [sys.exit] and uncaught exceptions are
    values of an outcome type. *)

From Stdlib Require Import Ascii String ZArith Lia Bool Arith List Permutation
  Sorted.
Import ListNotations.

Set Implicit Arguments.
Set Warnings "-comment-terminator-in-string".

(** ** Text *)

(** A Python [str] is modelled by the list of its characters.  The
    characters are the code points below 256, so the character classes
    [\s] and [\d] are the restrictions of Python's classes to that range. *)
Definition text := list ascii.

Definition T (s : string) : text := list_ascii_of_string s.

Definition dq : ascii := ascii_of_nat 34.
Definition nl : ascii := ascii_of_nat 10.
Definition tab : ascii := ascii_of_nat 9.

(** Text with double quotes in it is written with apostrophes: [Q] reads
    a literal and turns every apostrophe into a double quote. *)
Definition Q (s : string) : text :=
  map (fun c => if Ascii.eqb c "'"%char then dq else c) (T s).

Fixpoint text_eqb (s t : text) : bool :=
  match s, t with
  | [], [] => true
  | a :: s', b :: t' => Ascii.eqb a b && text_eqb s' t'
  | _, _ => false
  end.

(** [s.startswith(p)], returning what follows the prefix. *)
Fixpoint strip_prefix (p s : text) : option text :=
  match p with
  | [] => Some s
  | a :: p' =>
      match s with
      | [] => None
      | b :: s' => if Ascii.eqb a b then strip_prefix p' s' else None
      end
  end.

Definition startswith (s p : text) : bool :=
  match strip_prefix p s with Some _ => true | None => false end.

(** [s.find(p)]: the offset of the leftmost occurrence, if any ([None]
    stands for Python's [-1]). *)
Fixpoint str_find (p s : text) : option nat :=
  if startswith s p then Some 0
  else match s with
       | [] => None
       | _ :: s' => option_map S (str_find p s')
       end.

(** [p in s] *)
Definition contains (p s : text) : bool :=
  match str_find p s with Some _ => true | None => false end.

(** The longest prefix of characters satisfying [f], and the rest. *)
Fixpoint span (f : ascii -> bool) (s : text) : text * text :=
  match s with
  | [] => ([], [])
  | c :: s' =>
      if f c then let (a, b) := span f s' in (c :: a, b) else ([], s)
  end.

Definition is_char (a : ascii) (c : ascii) : bool := Ascii.eqb a c.
Definition not_char (a : ascii) (c : ascii) : bool := negb (Ascii.eqb a c).

Definition code (c : ascii) : N := N_of_ascii c.

(** [\s] on code points below 256: what [str.isspace] accepts there. *)
Definition is_space (c : ascii) : bool :=
  let n := code c in
  ((9 <=? n) && (n <=? 13) || (28 <=? n) && (n <=? 32)
   || (n =? 133) || (n =? 160))%N.

(** [\d] on code points below 256. *)
Definition is_digit (c : ascii) : bool :=
  let n := code c in ((48 <=? n) && (n <=? 57))%N.

(** Membership of a character in a bracket class given by its members. *)
Definition in_class (cls : string) (c : ascii) : bool :=
  existsb (Ascii.eqb c) (T cls).

(** ** Hash engine: [get_hash] *)

Module MD5.

Local Open Scope Z_scope.

Definition w32 (x : Z) : Z := x mod 4294967296.

Definition rotl (x : Z) (n : Z) : Z :=
  w32 (Z.lor (Z.shiftl x n) (Z.shiftr x (32 - n))).

Definition lnot32 (x : Z) : Z := Z.lxor x 4294967295.

Definition K : list Z :=
  [ 3614090360; 3905402710; 606105819; 3250441966; 4118548399; 1200080426;
    2821735955; 4249261313; 1770035416; 2336552879; 4294925233; 2304563134;
    1804603682; 4254626195; 2792965006; 1236535329; 4129170786; 3225465664;
    643717713; 3921069994; 3593408605; 38016083; 3634488961; 3889429448;
    568446438; 3275163606; 4107603335; 1163531501; 2850285829; 4243563512;
    1735328473; 2368359562; 4294588738; 2272392833; 1839030562; 4259657740;
    2763975236; 1272893353; 4139469664; 3200236656; 681279174; 3936430074;
    3572445317; 76029189; 3654602809; 3873151461; 530742520; 3299628645;
    4096336452; 1126891415; 2878612391; 4237533241; 1700485571; 2399980690;
    4293915773; 2240044497; 1873313359; 4264355552; 2734768916; 1309151649;
    4149444226; 3174756917; 718787259; 3951481745 ].

Definition shifts : list Z :=
  [ 7; 12; 17; 22; 7; 12; 17; 22; 7; 12; 17; 22; 7; 12; 17; 22;
    5; 9; 14; 20; 5; 9; 14; 20; 5; 9; 14; 20; 5; 9; 14; 20;
    4; 11; 16; 23; 4; 11; 16; 23; 4; 11; 16; 23; 4; 11; 16; 23;
    6; 10; 15; 21; 6; 10; 15; 21; 6; 10; 15; 21; 6; 10; 15; 21 ].

(** The message bytes followed by the padding and the bit length. *)
Definition le_bytes (n : nat) (x : Z) : list Z :=
  map (fun i => (x / 2 ^ (8 * Z.of_nat i)) mod 256) (seq 0 n).

Definition pad (msg : list Z) : list Z :=
  let len := Z.of_nat (length msg) in
  let zeros := Z.to_nat ((55 - len) mod 64) in
  msg ++ [128] ++ repeat 0 zeros ++ le_bytes 8 (8 * len).

Fixpoint words (fuel : nat) (bs : list Z) : list Z :=
  match fuel with
  | O => []
  | S fuel' =>
      match bs with
      | b0 :: b1 :: b2 :: b3 :: bs' =>
          (b0 + 256 * b1 + 65536 * b2 + 16777216 * b3) :: words fuel' bs'
      | _ => []
      end
  end.

Record state := mk { sa : Z; sb : Z; sc : Z; sd : Z }.

Definition init : state :=
  mk 1732584193 4023233417 2562383102 271733878.

Definition round (m : list Z) (st : state) (i : nat) : state :=
  let '(mk a b c d) := st in
  let zi := Z.of_nat i in
  let '(f, g) :=
    if zi <? 16 then (Z.lor (Z.land b c) (Z.land (lnot32 b) d), zi)
    else if zi <? 32 then
      (Z.lor (Z.land d b) (Z.land (lnot32 d) c), (5 * zi + 1) mod 16)
    else if zi <? 48 then (Z.lxor (Z.lxor b c) d, (3 * zi + 5) mod 16)
    else (Z.lxor c (Z.lor b (lnot32 d)), (7 * zi) mod 16) in
  let f' := w32 (f + a + nth i K 0 + nth (Z.to_nat g) m 0) in
  mk d (w32 (b + rotl f' (nth i shifts 0))) b c.

Definition block (st : state) (m : list Z) : state :=
  let '(mk a b c d) := fold_left (round m) (seq 0 64) st in
  mk (w32 (sa st + a)) (w32 (sb st + b)) (w32 (sc st + c)) (w32 (sd st + d)).

Fixpoint blocks (fuel : nat) (st : state) (ws : list Z) : state :=
  match fuel with
  | O => st
  | S fuel' =>
      match ws with
      | [] => st
      | _ => blocks fuel' (block st (firstn 16 ws)) (skipn 16 ws)
      end
  end.

Definition digest (msg : list Z) : list Z :=
  let bs := pad msg in
  let ws := words (length bs) bs in
  let '(mk a b c d) := blocks (length ws) init ws in
  le_bytes 4 a ++ le_bytes 4 b ++ le_bytes 4 c ++ le_bytes 4 d.

Definition hexdigit (n : Z) : ascii :=
  nth (Z.to_nat (n mod 16)) (T "0123456789abcdef") "0"%char.

Definition hex_byte (b : Z) : text := [hexdigit (b / 16); hexdigit b].

Definition hexdigest (msg : list Z) : text :=
  flat_map hex_byte (digest msg).

End MD5.

(** [text.encode('utf-8')] for code points below 256. *)
Definition utf8_char (c : ascii) : list Z :=
  let n := Z.of_N (code c) in
  if (n <? 128)%Z then [n]
  else [(192 + n / 64)%Z; (128 + n mod 64)%Z].

Definition encode_utf8 (s : text) : list Z := flat_map utf8_char s.

(** [hashlib.md5(text.encode('utf-8')).hexdigest()[:8]] *)
Definition get_hash (s : text) : text :=
  firstn 8 (MD5.hexdigest (encode_utf8 s)).



(** ** Configuration *)

Inductive xml_format := Elements | Texts.

Inductive file_prefix := Lang | Translation | L10n.

(** [CONFIG]: [None] stands for ['auto']. *)
Record config := {
  sourceLanguage : text;
  untranslatedPrefix : text;
  filePrefix : option file_prefix;
  xmlFormat : option xml_format
}.

Definition CONFIG : config := {|
  sourceLanguage := T "en";
  untranslatedPrefix := T "[EN] ";
  filePrefix := None;
  xmlFormat := None
|}.

(** ** Utility functions *)

(** [s.replace(old, new)] for a one-character [old]. *)
Definition replace_char (old : ascii) (new : text) (s : text) : text :=
  flat_map (fun c => if Ascii.eqb c old then new else [c]) s.

Definition escape_xml (s : text) : text :=
  replace_char dq (T "&quot;")
    (replace_char ">"%char (T "&gt;")
       (replace_char "<"%char (T "&lt;")
          (replace_char "&"%char (T "&amp;") s))).

(** ** Regular expressions

    A matcher takes the text at the position where a match is tried and
    returns what the match captures together with the text after the
    match.  [finditer], [sub] and [search] move such a matcher over a text
    as [re] does: leftmost first, then on from the end of the match.  None
    of the patterns of the script matches the empty string.  Where a
    comment quotes a pattern, an apostrophe stands for a double quote. *)

Definition matcher (A : Type) := text -> option (A * text).

Fixpoint finditer_from (A : Type) (m : matcher A) (fuel : nat) (s : text)
  : list A :=
  match fuel with
  | O => []
  | S fuel' =>
      match m s with
      | Some (a, rest) => a :: finditer_from m fuel' rest
      | None =>
          match s with
          | [] => []
          | _ :: s' => finditer_from m fuel' s'
          end
      end
  end.

Definition finditer (A : Type) (m : matcher A) (s : text) : list A :=
  finditer_from m (S (length s)) s.

(** [pattern.sub(replacer, s)]: the matcher returns the replacement. *)
Fixpoint sub_from (m : matcher text) (fuel : nat) (s : text) : text :=
  match fuel with
  | O => s
  | S fuel' =>
      match m s with
      | Some (r, rest) => r ++ sub_from m fuel' rest
      | None =>
          match s with
          | [] => []
          | c :: s' => c :: sub_from m fuel' s'
          end
      end
  end.

Definition sub (m : matcher text) (s : text) : text :=
  sub_from m (S (length s)) s.

(** [pattern.search(s)]: the first match, with the offset of its end
    ([m.end()]). *)
Fixpoint search (A : Type) (m : matcher A) (s : text) : option (A * nat) :=
  match m s with
  | Some (a, rest) => Some (a, length s - length rest)
  | None =>
      match s with
      | [] => None
      | _ :: s' =>
          match search m s' with
          | Some (a, e) => Some (a, S e)
          | None => None
          end
      end
  end.

(** A greedy [X*] whose longest run is [run], followed by the rest of the
    pattern [k]: the run is tried whole, then one character shorter, and
    so on.  [k] gets what the star keeps and the text after it. *)
Fixpoint give_back (A : Type) (k : text -> text -> option A) (n : nat)
  (run rest : text) : option A :=
  match k (firstn n run) (skipn n run ++ rest) with
  | Some r => Some r
  | None =>
      match n with
      | O => None
      | S n' => give_back k n' run rest
      end
  end.

(** "\s*/>" *)
Definition match_close (s : text) : option text :=
  strip_prefix (T "/>") (snd (span is_space s)).

(** "([^>]*)\s*/>": the captured group and the text after the match. *)
Definition match_attrs_close (s : text) : option (text * text) :=
  let (run, rest) := span (not_char ">"%char) s in
  give_back
    (fun attrs s' =>
       match match_close s' with
       | Some rest' => Some (attrs, rest')
       | None => None
       end)
    (length run) run rest.

(** "OPEN([^']+)MID([^']*)'": the two groups and the text after the
    closing quote.  The classes exclude the quote, so the greedy runs are
    the only way to match. *)
Definition match_key_value (open mid : text) (s : text)
  : option (text * text * text) :=
  match strip_prefix open s with
  | None => None
  | Some s1 =>
      let (key, s2) := span (not_char dq) s1 in
      match key with
      | [] => None
      | _ =>
          match strip_prefix mid s2 with
          | None => None
          | Some s3 =>
              let (value, s4) := span (not_char dq) s3 in
              match strip_prefix [dq] s4 with
              | None => None
              | Some s5 => Some (key, value, s5)
              end
          end
      end
  end.

(** "<e k='([^']+)' v='([^']*)'([^>]*)\s*/>" *)
Definition elements_pattern : matcher (text * text * text) :=
  fun s =>
    match match_key_value (Q "<e k='") (Q "' v='") s with
    | None => None
    | Some (key, value, s1) =>
        match match_attrs_close s1 with
        | None => None
        | Some (attrs, rest) => Some ((key, value, attrs), rest)
        end
    end.

(** "<text name='([^']+)' text='([^']*)'\s*/>": there is no third group,
    and [parse_translation_file] takes [''] for the attributes. *)
Definition texts_pattern : matcher (text * text * text) :=
  fun s =>
    match match_key_value (Q "<text name='") (Q "' text='") s with
    | None => None
    | Some (key, value, s1) =>
        match match_close s1 with
        | None => None
        | Some rest => Some ((key, value, []), rest)
        end
    end.

(** "LITERAL([^']*)'": the group and the text after the closing quote. *)
Definition match_value (lit : text) (s : text) : option (text * text) :=
  match strip_prefix lit s with
  | None => None
  | Some s1 =>
      let (value, s2) := span (not_char dq) s1 in
      match strip_prefix [dq] s2 with
      | None => None
      | Some s3 => Some (value, s3)
      end
  end.

(** "<e k='KEY' v='([^']*)'([^>]*)\s*/>" with [KEY = re.escape(key)], which
    matches [key] and nothing else. *)
Definition key_elements_pattern (key : text) : matcher (text * text) :=
  fun s =>
    match match_value (Q "<e k='" ++ key ++ Q "' v='") s with
    | None => None
    | Some (value, s1) =>
        match match_attrs_close s1 with
        | None => None
        | Some (attrs, rest) => Some ((value, attrs), rest)
        end
    end.

(** "<text name='KEY' text='[^']*'\s*/>" *)
Definition key_texts_pattern (key : text) : matcher (text * text) :=
  fun s =>
    match match_value (Q "<text name='" ++ key ++ Q "' text='") s with
    | None => None
    | Some (value, s1) =>
        match match_close s1 with
        | None => None
        | Some rest => Some ((value, []), rest)
        end
    end.

(** "eh='([^']*)'" *)
Definition eh_pattern : matcher text := match_value (Q "eh='").

(** "\s*eh='[^']*'", replaced by the empty string. *)
Definition strip_eh_pattern : matcher text :=
  fun s =>
    match eh_pattern (snd (span is_space s)) with
    | Some (_, rest) => Some ([], rest)
    | None => None
    end.

(** ** Validation functions *)

(** Lexicographic order on texts by code point, as Python compares
    [str]. *)
Fixpoint text_leb (s t : text) : bool :=
  match s, t with
  | [], _ => true
  | _ :: _, [] => false
  | a :: s', b :: t' =>
      if (code a <? code b)%N then true
      else if (code b <? code a)%N then false
      else text_leb s' t'
  end.

Fixpoint insert_sorted (x : text) (l : list text) : list text :=
  match l with
  | [] => [x]
  | y :: l' => if text_leb x y then x :: l else y :: insert_sorted x l'
  end.

(** [sorted(l)] for a list of texts. *)
Definition sorted (l : list text) : list text :=
  fold_right insert_sorted [] l.

(** An optional group "(X)?": the text after [X] when it matches, the
    text itself otherwise. *)
Definition optional (m : text -> option text) (s : text) : text :=
  match m s with Some s' => s' | None => s end.

(** "\d+" *)
Definition match_digits (s : text) : option text :=
  match span is_digit s with
  | ([], _) => None
  | (_, s') => Some s'
  end.

(** "\.\d+" *)
Definition match_precision (s : text) : option text :=
  match s with
  | "."%char :: s' => match_digits s'
  | _ => None
  end.

(** "hh?|ll?|L|z|j|t" *)
Definition match_length_modifier (s : text) : option text :=
  match s with
  | "h"%char :: "h"%char :: s' => Some s'
  | "h"%char :: s' => Some s'
  | "l"%char :: "l"%char :: s' => Some s'
  | "l"%char :: s' => Some s'
  | "L"%char :: s' => Some s'
  | "z"%char :: s' => Some s'
  | "j"%char :: s' => Some s'
  | "t"%char :: s' => Some s'
  | _ => None
  end.

(** "%[-+0#]*(\d+)?(\.\d+)?(hh?|ll?|L|z|j|t)?[diouxXeEfFgGaAcspn]": the
    text of the match, [m.group(0)].  The characters a group could give
    back (a flag, a digit, a length letter) are not conversion characters
    and start no later group, so the greedy choices are the only match. *)
Definition format_specifier_pattern : matcher text :=
  fun s =>
    match s with
    | "%"%char :: s0 =>
        let s1 := snd (span (in_class "-+0#") s0) in
        let s2 := optional match_digits s1 in
        let s3 := optional match_precision s2 in
        let s4 := optional match_length_modifier s3 in
        match s4 with
        | c :: rest =>
            if in_class "diouxXeEfFgGaAcspn" c
            then Some (firstn (length s - length rest) s, rest)
            else None
        | [] => None
        end
    | _ => None
    end.

Definition extract_format_specifiers (s : text) : list text :=
  sorted (finditer format_specifier_pattern s).

Inductive issue_type := Count | Mismatch | Empty | Whitespace.

(** The dictionaries the validation functions return; the message is
    left out. *)
Record issue := {
  issue_key : text;
  issue_kind : issue_type;
  issue_source : list text;
  issue_target : list text
}.

(** The loop over the positions of two lists of the same length: the
    first position at which they differ, if any. *)
Fixpoint first_difference (l1 l2 : list text) : bool :=
  match l1, l2 with
  | a :: l1', b :: l2' =>
      if negb (text_eqb a b) then true else first_difference l1' l2'
  | _, _ => false
  end.

Definition check_format_specifiers (source_value target_value key : text)
  : option issue :=
  let source_specs := extract_format_specifiers source_value in
  let target_specs := extract_format_specifiers target_value in
  if negb (length source_specs =? length target_specs) then
    Some {| issue_key := key; issue_kind := Count;
            issue_source := source_specs; issue_target := target_specs |}
  else if first_difference source_specs target_specs then
    Some {| issue_key := key; issue_kind := Mismatch;
            issue_source := source_specs; issue_target := target_specs |}
  else None.

Definition is_empty_value (value : text) : bool :=
  match value with [] => true | _ => false end.

Fixpoint lstrip (s : text) : text :=
  match s with
  | c :: s' => if is_space c then lstrip s' else s
  | [] => []
  end.

(** [s.strip()] *)
Definition strip (s : text) : text := rev (lstrip (rev (lstrip s))).

Definition has_whitespace_issues (value : text) : bool :=
  match value with
  | [] => false
  | _ => negb (text_eqb value (strip value))
  end.

(** [validate_entry] with [skip_untranslated] at its default, [True]. *)
Definition validate_entry (key source_value target_value : text)
  : list issue :=
  if startswith target_value (untranslatedPrefix CONFIG) then []
  else
    (if is_empty_value target_value
     then [{| issue_key := key; issue_kind := Empty;
              issue_source := []; issue_target := [] |}]
     else [])
    ++ (if has_whitespace_issues target_value
        then [{| issue_key := key; issue_kind := Whitespace;
                 issue_source := []; issue_target := [] |}]
        else [])
    ++ (match check_format_specifiers source_value target_value key with
        | Some format_issue => [format_issue]
        | None => []
        end).

(** ** Parsing *)

(** The value [{'value': ..., 'hash': ...}] of an entry; [hash] is [None]
    when the entry has no [eh] attribute. *)
Record entry := { value : text; hash : option text }.

(** A Python [dict] with text keys: the pairs in the order in which the
    keys were first inserted. *)
Definition dict (V : Type) := list (text * V).

Fixpoint dict_get (V : Type) (k : text) (d : dict V) : option V :=
  match d with
  | [] => None
  | (k', v) :: d' => if text_eqb k k' then Some v else dict_get k d'
  end.

(** [k in d] *)
Definition dict_mem (V : Type) (k : text) (d : dict V) : bool :=
  match dict_get k d with Some _ => true | None => false end.

(** [d[k] = v]: a key that is there keeps its place. *)
Fixpoint dict_set (V : Type) (k : text) (v : V) (d : dict V) : dict V :=
  match d with
  | [] => [(k, v)]
  | (k', v') :: d' =>
      if text_eqb k k' then (k, v) :: d' else (k', v') :: dict_set k v d'
  end.

(** [k in l] for a list or a set of texts. *)
Definition mem (k : text) (l : list text) : bool := existsb (text_eqb k) l.

Record parsed := {
  entries : dict entry;
  ordered_keys : list text;
  duplicates : list text;
  raw_content : text
}.

(** The pattern [parse_translation_file] compiles: the elements pattern
    for ['elements'], the texts pattern for anything else. *)
Definition entry_pattern (fmt : option xml_format)
  : matcher (text * text * text) :=
  match fmt with
  | Some Elements => elements_pattern
  | _ => texts_pattern
  end.

(** The body of the loop over the matches. *)
Definition parse_step (acc : parsed) (m : text * text * text) : parsed :=
  let '(key, value, attrs) := m in
  let entry_hash :=
    match search eh_pattern attrs with
    | Some (h, _) => Some h
    | None => None
    end in
  {| entries := dict_set key {| value := value; hash := entry_hash |}
                  (entries acc);
     ordered_keys := ordered_keys acc ++ [key];
     duplicates := if dict_mem key (entries acc)
                   then duplicates acc ++ [key] else duplicates acc;
     raw_content := raw_content acc |}.

(** [parse_translation_file], on the content read from the file. *)
Definition parse_content (content : text) (fmt : option xml_format)
  : parsed :=
  fold_left parse_step (finditer (entry_pattern fmt) content)
    {| entries := []; ordered_keys := []; duplicates := [];
       raw_content := content |}.

Definition format_entry (key value entry_hash : text)
  (fmt : option xml_format) : text :=
  let escaped_value := escape_xml value in
  match fmt with
  | Some Elements =>
      Q "<e k='" ++ key ++ Q "' v='" ++ escaped_value ++ Q "' eh='"
        ++ entry_hash ++ Q "' />"
  | _ => Q "<text name='" ++ key ++ Q "' text='" ++ escaped_value ++ Q "'/>"
  end.

(** ** Exceptions *)

Inductive exn := KeyError | ValueError | FileNotFoundError.

(** A computation that returns or raises. *)
Inductive res (A : Type) : Type :=
| Ok (a : A)
| Raise (e : exn).

Arguments Ok {A} a.
Arguments Raise {A} e.

Definition bind (A B : Type) (x : res A) (f : A -> res B) : res B :=
  match x with
  | Ok a => f a
  | Raise e => Raise e
  end.

Notation "'do' x <- e1 ; e2" := (bind e1 (fun x => e2))
  (at level 10, x pattern, e1 at level 100, e2 at level 200).

(** [d[k]] *)
Definition dict_lookup (V : Type) (k : text) (d : dict V) : res V :=
  match dict_get k d with
  | Some v => Ok v
  | None => Raise KeyError
  end.

(** A [for] loop whose body may raise. *)
Fixpoint for_each (A S : Type) (body : S -> A -> res S) (l : list A)
  (st : S) : res S :=
  match l with
  | [] => Ok st
  | a :: l' => do st' <- body st a; for_each body l' st'
  end.

(** ** Where a new entry goes: [find_insert_position] *)

(** [l.index(key)] *)
Fixpoint index (key : text) (l : list text) : res nat :=
  match l with
  | [] => Raise ValueError
  | k :: l' =>
      if text_eqb k key then Ok 0 else do i <- index key l'; Ok (S i)
  end.

(** The pattern compiled for a preceding key, searched in the content:
    the offset of the end of its first match. *)
Definition search_entry_end (fmt : option xml_format) (prev_key : text)
  (content : text) : option nat :=
  match fmt with
  | Some Elements =>
      option_map snd (search (key_elements_pattern prev_key) content)
  | _ => option_map snd (search (key_texts_pattern prev_key) content)
  end.

(** The loop over the keys before [key], the nearest first. *)
Fixpoint after_predecessor (fmt : option xml_format) (content : text)
  (lang_keys : list text) (prevs : list text) : option nat :=
  match prevs with
  | [] => None
  | prev_key :: prevs' =>
      if mem prev_key lang_keys then
        match search_entry_end fmt prev_key content with
        | Some e => Some e
        | None => after_predecessor fmt content lang_keys prevs'
        end
      else after_predecessor fmt content lang_keys prevs'
  end.

Definition closing_tag (fmt : option xml_format) : text :=
  match fmt with
  | Some Elements => T "</elements>"
  | _ => T "</texts>"
  end.

(** The position, or [None] for [-1]. *)
Definition find_insert_position (content key : text)
  (en_ordered_keys lang_keys : list text) (fmt : option xml_format)
  : res (option nat) :=
  do en_index <- index key en_ordered_keys;
  match after_predecessor fmt content lang_keys
          (rev (firstn en_index en_ordered_keys)) with
  | Some e => Ok (Some e)
  | None => Ok (str_find (closing_tag fmt) content)
  end.

(** ** Rewriting the hash attribute *)

(** [data['hash'] != h], where the hash of an entry may be [None]. *)
Definition hash_differs (h : option text) (h' : text) : bool :=
  match h with
  | Some x => negb (text_eqb x h')
  | None => true
  end.

(** [replacer], as [update_source_hashes] defines it and
    [make_replacer(k, sh)] returns it in [sync_translations], applied to
    the matches of the pattern of key [k]. *)
Definition replacer (k sh : text) : matcher text :=
  fun s =>
    match key_elements_pattern k s with
    | None => None
    | Some ((v, attrs), rest) =>
        let clean_attrs := sub strip_eh_pattern attrs in
        let has_tag := contains (Q "tag='format'") clean_attrs in
        Some
          (if has_tag
           then Q "<e k='" ++ k ++ Q "' v='" ++ v ++ Q "' eh='" ++ sh
                  ++ Q "' tag='format'/>"
           else Q "<e k='" ++ k ++ Q "' v='" ++ v ++ Q "' eh='" ++ sh
                  ++ Q "' />",
           rest)
    end.

(** [update_source_hashes], on the content of the source file: the new
    content and the number of keys whose hash was rewritten.  The file is
    written when that number is positive. *)
Definition update_source_hashes (content : text) (fmt : option xml_format)
  : text * nat :=
  fold_left
    (fun (st : text * nat) (item : text * entry) =>
       let (content, updated) := st in
       let (key, data) := item in
       let correct_hash := get_hash (value data) in
       if hash_differs (hash data) correct_hash
       then (sub (replacer key correct_hash) content, S updated)
       else (content, updated))
    (entries (parse_content content fmt)) (content, 0).

(** ** The sync command, for one target language *)

(** [source_hashes]: the fingerprint of the value of every source key. *)
Definition hashes_of (source_entries : dict entry) : dict text :=
  map (fun item : text * entry => (fst item, get_hash (value (snd item))))
    source_entries.

Definition is_elements (fmt : option xml_format) : bool :=
  match fmt with Some Elements => true | _ => false end.

(** The loop that finds the missing and the stale keys. *)
Definition classify_step (fmt : option xml_format)
  (source_hashes : dict text) (lang_entries : dict entry)
  (st : list text * list text) (source_key : text)
  : res (list text * list text) :=
  let (missing, stale) := st in
  do source_hash <- dict_lookup source_key source_hashes;
  match dict_get source_key lang_entries with
  | None => Ok (missing ++ [source_key], stale)
  | Some lang_data =>
      if is_elements fmt
         && (hash_differs (hash lang_data) source_hash
             && negb (startswith (value lang_data)
                        (untranslatedPrefix CONFIG)))
      then Ok (missing, stale ++ [source_key])
      else Ok (missing, stale)
  end.

(** The loop that finds the orphaned keys. *)
Definition orphaned_keys (source_entries : dict entry)
  (lang_keys : list text) : list text :=
  filter (fun lang_key => negb (dict_mem lang_key source_entries)) lang_keys.

(** The loop that validates the entries both files have. *)
Definition validation_issues (source_entries lang_entries : dict entry)
  : list issue :=
  flat_map
    (fun item : text * entry =>
       let (key, source_data) := item in
       match dict_get key lang_entries with
       | Some lang_data =>
           validate_entry key (value source_data) (value lang_data)
       | None => []
       end)
    source_entries.

Definition is_format_error (i : issue) : bool :=
  match issue_kind i with Count | Mismatch => true | _ => false end.

Definition is_empty_issue (i : issue) : bool :=
  match issue_kind i with Empty => true | _ => false end.

Definition is_whitespace_issue (i : issue) : bool :=
  match issue_kind i with Whitespace => true | _ => false end.

(** [content[:pos] + new_entry + content[pos:]] *)
Definition insert_at (pos : nat) (new_entry content : text) : text :=
  firstn pos content ++ new_entry ++ skipn pos content.

(** The state of the loop that adds the missing keys. *)
Record adding := {
  add_content : text;
  add_key_set : list text;
  added : nat
}.

Definition add_step (fmt : option xml_format) (source_entries : dict entry)
  (source_hashes : dict text) (source_ordered_keys : list text)
  (st : adding) (key : text) : res adding :=
  do source_data <- dict_lookup key source_entries;
  do source_hash <- dict_lookup key source_hashes;
  let placeholder_value := untranslatedPrefix CONFIG ++ value source_data in
  let new_entry :=
    [nl; tab; tab] ++ format_entry key placeholder_value source_hash fmt in
  do insert_pos <- find_insert_position (add_content st) key
                     source_ordered_keys (add_key_set st) fmt;
  match insert_pos with
  | Some pos =>
      Ok {| add_content := insert_at pos new_entry (add_content st);
            add_key_set := key :: add_key_set st;
            added := S (added st) |}
  | None => Ok st
  end.

(** [not data['hash']]: no hash, or an empty one. *)
Definition has_no_hash (h : option text) : bool :=
  match h with
  | None => true
  | Some [] => true
  | Some _ => false
  end.

(** The loop that updates the hashes of the entries that were there. *)
Definition refresh_step (source_hashes : dict text)
  (lang_entries : dict entry) (missing stale : list text)
  (content : text) (item : text * entry) : res text :=
  let (key, source_data) := item in
  match dict_get key lang_entries with
  | Some lang_data =>
      if negb (mem key missing) then
        do source_hash <- dict_lookup key source_hashes;
        let is_untranslated :=
          startswith (value lang_data) (untranslatedPrefix CONFIG) in
        let should_add_hash :=
          negb (mem key stale)
          || (has_no_hash (hash lang_data) && negb is_untranslated) in
        if should_add_hash
        then Ok (sub (replacer key source_hash) content)
        else Ok content
      else Ok content
  | None => Ok content
  end.

(** What the loop body of [sync_translations] computes for one language:
    the content it writes and the figures it reports. *)
Record sync_report := {
  new_content : text;
  sync_missing : list text;
  sync_stale : list text;
  sync_duplicates : list text;
  sync_orphaned : list text;
  sync_format_errors : list issue;
  sync_empty_values : list issue;
  sync_whitespace_issues : list issue;
  sync_added : nat
}.

Definition sync_language (fmt : option xml_format) (source : parsed)
  (lang_content : text) : res sync_report :=
  let source_entries := entries source in
  let source_ordered_keys := ordered_keys source in
  let source_hashes := hashes_of source_entries in
  let lang := parse_content lang_content fmt in
  let lang_entries := entries lang in
  let lang_keys := ordered_keys lang in
  do (missing, stale) <-
       for_each (classify_step fmt source_hashes lang_entries)
         source_ordered_keys ([], []);
  let orphaned := orphaned_keys source_entries lang_keys in
  let issues := validation_issues source_entries lang_entries in
  do st <- for_each
             (add_step fmt source_entries source_hashes source_ordered_keys)
             missing
             {| add_content := raw_content lang; add_key_set := lang_keys;
                added := 0 |};
  do content <-
       (if is_elements fmt
        then for_each (refresh_step source_hashes lang_entries missing stale)
               source_entries (add_content st)
        else Ok (add_content st));
  Ok {| new_content := content;
        sync_missing := missing;
        sync_stale := stale;
        sync_duplicates := duplicates lang;
        sync_orphaned := orphaned;
        sync_format_errors := filter is_format_error issues;
        sync_empty_values := filter is_empty_issue issues;
        sync_whitespace_issues := filter is_whitespace_issue issues;
        sync_added := added st |}.

(** ** The working directory *)

(** The files of the directory, in the order [os.listdir] gives them,
    each with its content. *)
Definition dir := list (text * text).

Definition listdir (d : dir) : list text := map fst d.

(** [os.path.exists(name)] *)
Definition exists_file (name : text) (d : dir) : bool :=
  existsb (fun f => text_eqb name (fst f)) d.

(** [open(name).read()] *)
Definition read_file (name : text) (d : dir) : res text :=
  match dict_get name d with
  | Some content => Ok content
  | None => Raise FileNotFoundError
  end.

(** [open(name, 'w').write(content)] *)
Definition write_file (name content : text) (d : dir) : dir :=
  dict_set name content d.

Definition prefix_name (p : file_prefix) : text :=
  match p with
  | Lang => T "lang"
  | Translation => T "translation"
  | L10n => T "l10n"
  end.

Definition get_source_file_path (p : file_prefix) : text :=
  prefix_name p ++ T "_" ++ sourceLanguage CONFIG ++ T ".xml".

Definition get_lang_file_path (p : file_prefix) (lang_code : text) : text :=
  prefix_name p ++ T "_" ++ lang_code ++ T ".xml".

(** ** Auto-detection *)

(** [c.lower()] on the letters A to Z. *)
Definition lower (c : ascii) : ascii :=
  let n := code c in
  if ((65 <=? n) && (n <=? 90))%N then ascii_of_N (n + 32) else c.

(** A literal of lower-case letters, digits and punctuation under
    [re.IGNORECASE]. *)
Fixpoint strip_prefix_ci (p s : text) : option text :=
  match p with
  | [] => Some s
  | a :: p' =>
      match s with
      | [] => None
      | b :: s' =>
          if Ascii.eqb a (lower b) then strip_prefix_ci p' s' else None
      end
  end.

(** "[a-z]" under [re.IGNORECASE] *)
Definition is_letter (c : ascii) : bool :=
  let n := code (lower c) in ((97 <=? n) && (n <=? 122))%N.

(** "^PREFIX_([a-z]{2})\.xml$" under [re.IGNORECASE], tried with
    [re.match]: the group.  The dollar also matches before a newline that
    ends the name. *)
Definition match_lang_filename (prefix filename : text) : option text :=
  match strip_prefix_ci (prefix ++ T "_") filename with
  | Some (c1 :: c2 :: rest) =>
      if is_letter c1 && is_letter c2 then
        match strip_prefix_ci (T ".xml") rest with
        | Some [] => Some [c1; c2]
        | Some [c] => if Ascii.eqb c nl then Some [c1; c2] else None
        | _ => None
        end
      else None
  | _ => None
  end.

Definition is_lang_filename (prefix filename : text) : bool :=
  match match_lang_filename prefix filename with
  | Some _ => true
  | None => false
  end.

(** The loop over the directory that [auto_detect_file_prefix] falls
    back on. *)
Fixpoint first_prefix_listed (names : list text) : option file_prefix :=
  match names with
  | [] => None
  | filename :: names' =>
      if is_lang_filename (T "lang") filename then Some Lang
      else if is_lang_filename (T "translation") filename
      then Some Translation
      else if is_lang_filename (T "l10n") filename then Some L10n
      else first_prefix_listed names'
  end.

Definition auto_detect_file_prefix (d : dir) : option file_prefix :=
  match filePrefix CONFIG with
  | Some p => Some p
  | None =>
      if exists_file (get_source_file_path Lang) d then Some Lang
      else if exists_file (get_source_file_path Translation) d
      then Some Translation
      else if exists_file (get_source_file_path L10n) d then Some L10n
      else first_prefix_listed (listdir d)
  end.

Definition auto_detect_xml_format (content : text) : option xml_format :=
  match xmlFormat CONFIG with
  | Some fmt => Some fmt
  | None =>
      if contains (Q "<e k='") content then Some Elements
      else if contains (Q "<text name='") content then Some Texts
      else None
  end.

(** [sorted(languages, key=lambda x: x['code'])]; a language is
    represented by its code, which determines its name. *)
Definition get_enabled_languages (d : dir) : list text :=
  match auto_detect_file_prefix d with
  | None => []
  | Some p =>
      sorted
        (flat_map
           (fun filename =>
              match match_lang_filename (prefix_name p) filename with
              | Some g =>
                  let code := map lower g in
                  if negb (text_eqb code (sourceLanguage CONFIG))
                  then [code] else []
              | None => []
              end)
           (listdir d))
  end.

(** [parse_translation_file(filepath, fmt)] *)
Definition parse_translation_file (filepath : text)
  (fmt : option xml_format) (d : dir) : res parsed :=
  do content <- read_file filepath d;
  Ok (parse_content content fmt).

(** ** Commands *)

(** How a command ends: [sys.exit(code)], a normal return (the process
    then exits with status 0), or an exception nobody catches (status 1
    and a traceback). *)
Inductive outcome :=
| Exit (status : Z)
| Returned
| Uncaught (e : exn).

Definition exit_status (o : outcome) : Z :=
  match o with
  | Exit n => n
  | Returned => 0%Z
  | Uncaught _ => 1%Z
  end.

(** The body of the loop of [sync_translations] over the languages. *)
Definition sync_one (p : file_prefix) (fmt : option xml_format)
  (source : parsed) (d : dir) (lang_code : text) : res dir :=
  let lang_file := get_lang_file_path p lang_code in
  if negb (exists_file lang_file d) then Ok d
  else
    do content <- read_file lang_file d;
    do r <- sync_language fmt source content;
    Ok (write_file lang_file (new_content r) d).

(** The loop of [sync_translations] over the languages. *)
Fixpoint sync_all (p : file_prefix) (fmt : option xml_format)
  (source : parsed) (langs : list text) (d : dir) : outcome * dir :=
  match langs with
  | [] => (Returned, d)
  | lang_code :: langs' =>
      match sync_one p fmt source d lang_code with
      | Ok d' => sync_all p fmt source langs' d'
      | Raise e => (Uncaught e, d)
      end
  end.

(** [sync_translations]: how it ends and the directory it leaves. *)
Definition sync_translations (d : dir) : outcome * dir :=
  match auto_detect_file_prefix d with
  | None => (Exit 1, d)
  | Some p =>
      let source_file := get_source_file_path p in
      if negb (exists_file source_file d) then (Exit 1, d)
      else
        match read_file source_file d with
        | Raise e => (Uncaught e, d)
        | Ok source_content =>
            match auto_detect_xml_format source_content with
            | None => (Exit 1, d)
            | Some f =>
                let fmt := Some f in
                let d1 :=
                  if is_elements fmt then
                    let (content, updated) :=
                      update_source_hashes source_content fmt in
                    if 0 <? updated
                    then write_file source_file content d else d
                  else d in
                match parse_translation_file source_file fmt d1 with
                | Raise e => (Uncaught e, d1)
                | Ok source =>
                    sync_all p fmt source (get_enabled_languages d1) d1
                end
            end
        end
  end.

(** ** The read-only commands *)

Section Heuristics.

(** [is_format_only_string] and [is_cognate_or_international_term] decide
    whether a value equal to the source value counts as untranslated.
    They are pure predicates on the source value, and the commands below
    are defined for whatever they answer. *)
Variable is_format_only_string : text -> bool.
Variable is_cognate_or_international_term : text -> bool.

Inductive category := Untranslated | Stale | Translated.

(** The chain of tests [check_sync], [show_status] and [generate_report]
    each apply to a source key the target has. *)
Definition classify_translation (fmt : option xml_format)
  (source_data : entry) (source_hash : text) (lang_data : entry)
  : category :=
  if startswith (value lang_data) (untranslatedPrefix CONFIG)
  then Untranslated
  else if text_eqb (value lang_data) (value source_data)
          && negb (is_format_only_string (value source_data))
          && negb (is_cognate_or_international_term (value source_data))
  then Untranslated
  else if is_elements fmt
          && negb (has_no_hash (hash lang_data))
          && hash_differs (hash lang_data) source_hash
  then Stale
  else Translated.

(** The lists the loop over [source_entries.items()] fills in. *)
Record comparison := {
  cmp_translated : list text;
  cmp_missing : list text;
  cmp_stale : list text;
  cmp_untranslated : list text
}.

Definition compare_step (fmt : option xml_format)
  (source_hashes : dict text) (lang_entries : dict entry)
  (st : comparison) (item : text * entry) : res comparison :=
  let (key, source_data) := item in
  do source_hash <- dict_lookup key source_hashes;
  match dict_get key lang_entries with
  | None =>
      Ok {| cmp_translated := cmp_translated st;
            cmp_missing := cmp_missing st ++ [key];
            cmp_stale := cmp_stale st;
            cmp_untranslated := cmp_untranslated st |}
  | Some lang_data =>
      match classify_translation fmt source_data source_hash lang_data with
      | Untranslated =>
          Ok {| cmp_translated := cmp_translated st;
                cmp_missing := cmp_missing st;
                cmp_stale := cmp_stale st;
                cmp_untranslated := cmp_untranslated st ++ [key] |}
      | Stale =>
          Ok {| cmp_translated := cmp_translated st;
                cmp_missing := cmp_missing st;
                cmp_stale := cmp_stale st ++ [key];
                cmp_untranslated := cmp_untranslated st |}
      | Translated =>
          Ok {| cmp_translated := cmp_translated st ++ [key];
                cmp_missing := cmp_missing st;
                cmp_stale := cmp_stale st;
                cmp_untranslated := cmp_untranslated st |}
      end
  end.

(** The comparison of one language file with the source, as the three
    commands compute it; [check_sync] keeps no list of translated keys
    and [show_status] keeps the lengths of the lists. *)
Definition compare_language (fmt : option xml_format)
  (source_entries : dict entry) (lang : parsed) : res comparison :=
  for_each (compare_step fmt (hashes_of source_entries) (entries lang))
    source_entries
    {| cmp_translated := []; cmp_missing := []; cmp_stale := [];
       cmp_untranslated := [] |}.

Definition nonempty (A : Type) (l : list A) : bool :=
  match l with [] => false | _ => true end.

(** What one pass of the loop of [check_sync] contributes to
    [has_problems]. *)
Definition check_one (p : file_prefix) (fmt : option xml_format)
  (source_entries : dict entry) (d : dir) (lang_code : text) : res bool :=
  let lang_file := get_lang_file_path p lang_code in
  if negb (exists_file lang_file d) then Ok true
  else
    do lang <- parse_translation_file lang_file fmt d;
    do c <- compare_language fmt source_entries lang;
    let missing := cmp_missing c in
    let stale := cmp_stale c in
    let untranslated := cmp_untranslated c in
    let duplicates := duplicates lang in
    let orphaned := orphaned_keys source_entries (ordered_keys lang) in
    let issues :=
      nonempty missing || nonempty stale || nonempty untranslated
      || nonempty duplicates || nonempty orphaned in
    if negb issues then Ok false
    else Ok (nonempty missing || nonempty duplicates || nonempty orphaned).

(** The loop of [check_sync] over the languages: [has_problems]. *)
Fixpoint check_all (p : file_prefix) (fmt : option xml_format)
  (source_entries : dict entry) (d : dir) (langs : list text)
  (has_problems : bool) : res bool :=
  match langs with
  | [] => Ok has_problems
  | lang_code :: langs' =>
      do b <- check_one p fmt source_entries d lang_code;
      check_all p fmt source_entries d langs' (has_problems || b)
  end.

Definition outcome_of (r : res outcome) : outcome :=
  match r with
  | Ok o => o
  | Raise e => Uncaught e
  end.

Definition check_sync (d : dir) : outcome :=
  match auto_detect_file_prefix d with
  | None => Exit 1
  | Some p =>
      let source_file := get_source_file_path p in
      if negb (exists_file source_file d) then Exit 1
      else
        outcome_of
          (do source_content <- read_file source_file d;
           let fmt := auto_detect_xml_format source_content in
           do source <- parse_translation_file source_file fmt d;
           do has_problems <-
             check_all p fmt (entries source) d (get_enabled_languages d)
               false;
           Ok (if has_problems then Exit 1 else Exit 0))
  end.

(** The figures [show_status] prints for a language. *)
Record status_row := {
  st_translated : nat;
  st_stale : nat;
  st_untranslated : nat;
  st_missing : nat;
  st_duplicates : nat;
  st_orphaned : nat;
  st_format_errs : nat
}.

Definition count_format_errs (source_entries lang_entries : dict entry)
  : nat :=
  length
    (filter
       (fun item : text * entry =>
          let (key, source_data) := item in
          match dict_get key lang_entries with
          | Some lang_data =>
              match check_format_specifiers (value source_data)
                      (value lang_data) key with
              | Some _ =>
                  negb (startswith (value lang_data)
                          (untranslatedPrefix CONFIG))
              | None => false
              end
          | None => false
          end)
       source_entries).

Definition status_language (fmt : option xml_format)
  (source_entries : dict entry) (lang : parsed) : res status_row :=
  do c <- compare_language fmt source_entries lang;
  Ok {| st_translated := length (cmp_translated c);
        st_stale := length (cmp_stale c);
        st_untranslated := length (cmp_untranslated c);
        st_missing := length (cmp_missing c);
        st_duplicates := length (duplicates lang);
        st_orphaned :=
          length (orphaned_keys source_entries (ordered_keys lang));
        st_format_errs := count_format_errs source_entries (entries lang) |}.

(** A line of the table: [None] for a language whose file is not there. *)
Definition status_one (p : file_prefix) (fmt : option xml_format)
  (source_entries : dict entry) (d : dir) (lang_code : text)
  : res (option status_row) :=
  let lang_file := get_lang_file_path p lang_code in
  if negb (exists_file lang_file d) then Ok None
  else
    do lang <- parse_translation_file lang_file fmt d;
    do row <- status_language fmt source_entries lang;
    Ok (Some row).

(** A loop over the languages that collects what its body returns. *)
Fixpoint collect (A B : Type) (body : A -> res B) (l : list A)
  : res (list B) :=
  match l with
  | [] => Ok []
  | a :: l' => do b <- body a; do bs <- collect body l'; Ok (b :: bs)
  end.

(** [show_status]: how it ends, and the table when it returns. *)
Definition show_status (d : dir) : outcome * list (option status_row) :=
  match auto_detect_file_prefix d with
  | None => (Exit 1, [])
  | Some p =>
      let source_file := get_source_file_path p in
      match
        (do source_content <- read_file source_file d;
         let fmt := auto_detect_xml_format source_content in
         do source <- parse_translation_file source_file fmt d;
         collect (status_one p fmt (entries source) d)
           (get_enabled_languages d))
      with
      | Ok rows => (Returned, rows)
      | Raise e => (Uncaught e, [])
      end
  end.

(** The lists [generate_report] prints for a language. *)
Record report_section := {
  rep_comparison : comparison;
  rep_duplicates : list text;
  rep_orphaned : list text
}.

Definition report_one (p : file_prefix) (fmt : option xml_format)
  (source_entries : dict entry) (d : dir) (lang_code : text)
  : res (option report_section) :=
  let lang_file := get_lang_file_path p lang_code in
  if negb (exists_file lang_file d) then Ok None
  else
    do lang <- parse_translation_file lang_file fmt d;
    do c <- compare_language fmt source_entries lang;
    Ok (Some {| rep_comparison := c;
                rep_duplicates := duplicates lang;
                rep_orphaned :=
                  orphaned_keys source_entries (ordered_keys lang) |}).

Definition generate_report (d : dir)
  : outcome * list (option report_section) :=
  match auto_detect_file_prefix d with
  | None => (Exit 1, [])
  | Some p =>
      let source_file := get_source_file_path p in
      match
        (do source_content <- read_file source_file d;
         let fmt := auto_detect_xml_format source_content in
         do source <- parse_translation_file source_file fmt d;
         collect (report_one p fmt (entries source) d)
           (get_enabled_languages d))
      with
      | Ok sections => (Returned, sections)
      | Raise e => (Uncaught e, [])
      end
  end.

(** The loop of [validate_sync] over the languages, which stops at the
    first problem: [has_problems]. *)
Fixpoint validate_all (p : file_prefix) (fmt : option xml_format)
  (source_entries : dict entry) (d : dir) (langs : list text) : res bool :=
  match langs with
  | [] => Ok false
  | lang_code :: langs' =>
      let lang_file := get_lang_file_path p lang_code in
      if negb (exists_file lang_file d) then Ok true
      else
        do lang <- parse_translation_file lang_file fmt d;
        if existsb (fun item : text * entry =>
                      negb (dict_mem (fst item) (entries lang)))
             source_entries
        then Ok true
        else validate_all p fmt source_entries d langs'
  end.

Definition validate_sync (d : dir) : outcome :=
  match auto_detect_file_prefix d with
  | None => Exit 1
  | Some p =>
      let source_file := get_source_file_path p in
      if negb (exists_file source_file d) then Exit 1
      else
        outcome_of
          (do source_content <- read_file source_file d;
           let fmt := auto_detect_xml_format source_content in
           do source <- parse_translation_file source_file fmt d;
           do has_problems <-
             validate_all p fmt (entries source) d (get_enabled_languages d);
           Ok (if has_problems then Exit 1 else Exit 0))
  end.

Inductive command := Sync | Check | Status | Report | Validate | Help.

(** [main]: how the command ends and the directory it leaves. *)
Definition main (c : command) (d : dir) : outcome * dir :=
  match c with
  | Sync => sync_translations d
  | Check => (check_sync d, d)
  | Status => (fst (show_status d), d)
  | Report => (fst (generate_report d), d)
  | Validate => (validate_sync d, d)
  | Help => (Returned, d)
  end.

End Heuristics.


(** ** Notions used to state the properties *)

(** The occurrences of entries in a file, in document order: what the
    loop of [parse_translation_file] runs over. *)
Definition occurrences (content : text) (fmt : option xml_format)
  : list (text * text * text) :=
  finditer (entry_pattern fmt) content.

Definition occ_key (m : text * text * text) : text := fst (fst m).

(** The hash [parse_translation_file] reads in the attributes. *)
Definition hash_in (attrs : text) : option text :=
  match search eh_pattern attrs with
  | Some (h, _) => Some h
  | None => None
  end.

(** The entry an occurrence stands for. *)
Definition occ_entry (m : text * text * text) : entry :=
  {| value := snd (fst m); hash := hash_in (snd m) |}.

(** The number of times a key stands in a list. *)
Definition count (k : text) (l : list text) : nat :=
  length (filter (text_eqb k) l).

(** A parsed file whose ordered keys all have an entry, as every parsed
    file has. *)
Definition coherent (p : parsed) : Prop :=
  forall k, In k (ordered_keys p) -> dict_mem k (entries p) = true.

(** The test the sync command applies to a source key the target has. *)
Definition stale_key (fmt : option xml_format)
  (source_entries lang_entries : dict entry) (k : text) : bool :=
  match dict_get k source_entries, dict_get k lang_entries with
  | Some src, Some tgt =>
      is_elements fmt
      && (hash_differs (hash tgt) (get_hash (value src))
          && negb (startswith (value tgt) (untranslatedPrefix CONFIG)))
  | _, _ => false
  end.

Definition missing_keys (source_keys : list text)
  (lang_entries : dict entry) : list text :=
  filter (fun k => negb (dict_mem k lang_entries)) source_keys.

Definition stale_keys (fmt : option xml_format)
  (source_entries lang_entries : dict entry) (source_keys : list text)
  : list text :=
  filter (stale_key fmt source_entries lang_entries) source_keys.

(** The first index of a key in a list that has it. *)
Fixpoint index_of (key : text) (l : list text) : nat :=
  match l with
  | [] => 0
  | k :: l' => if text_eqb k key then 0 else S (index_of key l')
  end.

(** The keys before the first occurrence of [key], the nearest first. *)
Definition predecessors (key : text) (en_ordered_keys : list text)
  : list text :=
  rev (firstn (index_of key en_ordered_keys) en_ordered_keys).

(** What [find_insert_position] returns for a key of the source. *)
Definition insert_position (content key : text)
  (en_ordered_keys lang_keys : list text) (fmt : option xml_format)
  : option nat :=
  match after_predecessor fmt content lang_keys
          (predecessors key en_ordered_keys) with
  | Some e => Some e
  | None => str_find (closing_tag fmt) content
  end.

(** The entry the sync command writes for a missing key. *)
Definition placeholder_entry (fmt : option xml_format) (key : text)
  (source_data : entry) : text :=
  [nl; tab; tab]
    ++ format_entry key (untranslatedPrefix CONFIG ++ value source_data)
         (get_hash (value source_data)) fmt.

(** One pass of the loop that adds the missing keys, for a key of the
    source. *)
Definition add_key (fmt : option xml_format) (source_entries : dict entry)
  (source_ordered_keys : list text) (st : adding) (key : text) : adding :=
  match dict_get key source_entries with
  | None => st
  | Some source_data =>
      match insert_position (add_content st) key source_ordered_keys
              (add_key_set st) fmt with
      | Some pos =>
          {| add_content :=
               insert_at pos (placeholder_entry fmt key source_data)
                 (add_content st);
             add_key_set := key :: add_key_set st;
             added := S (added st) |}
      | None => st
      end
  end.

(** Whether the sync command rewrites the hash of a key. *)
Definition refreshed (lang_entries : dict entry) (missing stale : list text)
  (key : text) : bool :=
  match dict_get key lang_entries with
  | Some lang_data =>
      negb (mem key missing)
      && (negb (mem key stale)
          || (has_no_hash (hash lang_data)
              && negb (startswith (value lang_data)
                         (untranslatedPrefix CONFIG))))
  | None => false
  end.

(** One pass of the loop that updates the hashes. *)
Definition refresh_key (lang_entries : dict entry)
  (missing stale : list text) (content : text) (item : text * entry)
  : text :=
  if refreshed lang_entries missing stale (fst item)
  then sub (replacer (fst item) (get_hash (value (snd item)))) content
  else content.

(** A dictionary in which no key stands twice, as every dictionary is. *)
Definition proper (V : Type) (d : dict V) : Prop := NoDup (map fst d).

(** The class the read-only commands give a source item: [None] for a
    missing key. *)
Definition class_of
  (is_format_only_string is_cognate_or_international_term : text -> bool)
  (fmt : option xml_format) (lang_entries : dict entry)
  (item : text * entry) : option category :=
  match dict_get (fst item) lang_entries with
  | None => None
  | Some lang_data =>
      Some (classify_translation is_format_only_string
              is_cognate_or_international_term fmt (snd item)
              (get_hash (value (snd item))) lang_data)
  end.

Definition same_class (c1 c2 : option category) : bool :=
  match c1, c2 with
  | None, None => true
  | Some Untranslated, Some Untranslated => true
  | Some Stale, Some Stale => true
  | Some Translated, Some Translated => true
  | _, _ => false
  end.

(** The source keys of a class, in the order of the source
    dictionary. *)
Definition keys_of_class
  (is_format_only_string is_cognate_or_international_term : text -> bool)
  (fmt : option xml_format) (lang_entries : dict entry)
  (c : option category) (source_entries : dict entry) : list text :=
  map fst
    (filter
       (fun item =>
          same_class
            (class_of is_format_only_string
               is_cognate_or_international_term fmt lang_entries item) c)
       source_entries).

(** A source key the target does not have. *)
Definition has_missing (source_entries lang_entries : dict entry) : Prop :=
  exists k, dict_mem k source_entries = true /\ dict_mem k lang_entries = false.




(** ** Files used as examples *)

Definition hello_source : text :=
  Q "<l10n><elements><e k='a' v='Hello' eh='8b1a9953' /></elements></l10n>".

(** A target in which the key [a] stands twice: first with a translation
    made from the current source text, then with one made from an older
    text. *)
Definition twice_target : text :=
  Q "<l10n><elements><e k='a' v='Hallo' eh='8b1a9953' /><e k='a' v='Salut' eh='00000000' /></elements></l10n>".

(** A directory whose source file has no entry of either dialect, beside
    a target file. *)
Definition unmarked_dir : dir :=
  [(T "lang_en.xml", T "<l10n></l10n>"); (T "lang_de.xml", T "<l10n></l10n>")].

(** A directory with the source file and one translated target. *)
Definition translated_dir : dir :=
  [(T "lang_en.xml", hello_source);
   (T "lang_de.xml",
    Q "<l10n><elements><e k='a' v='Hallo' eh='8b1a9953' /></elements></l10n>")].

(** ** Notions used for well-formed files *)

(** A matcher that consumes at least one character. *)
Definition shorter (A : Type) (m : matcher A) : Prop :=
  forall s a rest, m s = Some (a, rest) -> length rest < length s.

(** No match starts inside [x] when [rest] follows it. *)
Definition dead (A : Type) (m : matcher A) (x rest : text) : Prop :=
  forall s1 s2, x = s1 ++ s2 -> s2 <> [] -> m (s2 ++ rest) = None.

(** [search], moved [n] characters to the right. *)
Definition shift (A : Type) (n : nat) (r : option (A * nat))
  : option (A * nat) :=
  match r with
  | Some (a, e) => Some (a, n + e)
  | None => None
  end.

(** The character [c] does not stand in [s]. *)
Definition free (c : ascii) (s : text) : bool := forallb (not_char c) s.

(** The two dialects write an entry as an opening, the key, a middle
    part, the value, a quote, and what stands before the end of the
    tag. *)
Definition open_tail (f : xml_format) : text :=
  match f with
  | Elements => Q "e k='"
  | Texts => Q "text name='"
  end.

Definition entry_open (f : xml_format) : text := "<"%char :: open_tail f.

Definition entry_mid (f : xml_format) : text :=
  match f with
  | Elements => Q "' v='"
  | Texts => Q "' text='"
  end.

(** The pattern compiled for a key, as [find_insert_position] searches
    it. *)
Definition key_pattern (f : xml_format) (key : text)
  : matcher (text * text) :=
  match f with
  | Elements => key_elements_pattern key
  | Texts => key_texts_pattern key
  end.

(** The closing tag of the container, after its first character. *)
Definition tag_tail (f : xml_format) : text :=
  match f with
  | Elements => T "/elements>"
  | Texts => T "/texts>"
  end.


(** An entry as it stands in a file: what is between the quotes of the
    key and of the value, and what is between the closing quote of the
    value and the end of the tag. *)
Record elem := { e_key : text; e_value : text; e_attrs : text }.

Definition render_elem (f : xml_format) (e : elem) : text :=
  entry_open f ++ e_key e ++ entry_mid f ++ e_value e ++ [dq] ++ e_attrs e
    ++ T "/>".

(** The key is not empty; key and value hold no quote and no [<]; what
    follows the value holds no [<] and no [>], and in the texts dialect
    it is white space. *)
Definition wf_elem (f : xml_format) (e : elem) : bool :=
  nonempty (e_key e) && free dq (e_key e) && free "<"%char (e_key e)
  && free dq (e_value e) && free "<"%char (e_value e)
  && free ">"%char (e_attrs e) && free "<"%char (e_attrs e)
  && match f with
     | Elements => true
     | Texts => forallb is_space (e_attrs e)
     end.

(** A file: the text before the first entry, and every entry with the
    text between it and the next entry (or the end of the file). *)
Record doc := { head : text; body : list (elem * text) }.

Definition render_body (f : xml_format) (b : list (elem * text)) : text :=
  flat_map (fun ec => render_elem f (fst ec) ++ snd ec) b.

Definition render (f : xml_format) (d : doc) : text :=
  head d ++ render_body f (body d).

(** The text between entries holds no opening of an entry. *)
Definition inert (f : xml_format) (c : text) : bool :=
  negb (contains (entry_open f) c).

Definition wf_body (f : xml_format) (b : list (elem * text)) : bool :=
  forallb (fun ec => wf_elem f (fst ec) && inert f (snd ec)) b.

Definition wf_doc (f : xml_format) (d : doc) : bool :=
  inert f (head d) && wf_body f (body d).

Definition elems (d : doc) : list elem := map fst (body d).

Definition keys (d : doc) : list text := map e_key (elems d).

Definition starts_lt (s : text) : bool :=
  match s with
  | c :: _ => Ascii.eqb c "<"%char
  | [] => false
  end.

(** The literal [p] matches nowhere inside [x] when [rest] follows. *)
Definition prefix_dead (p x rest : text) : Prop :=
  forall s1 s2, x = s1 ++ s2 -> s2 <> [] -> strip_prefix p (s2 ++ rest) = None.

(** A matcher whose pattern starts with the literal [p]. *)
Definition requires_prefix (A : Type) (m : matcher A) (p : text) : Prop :=
  forall s, strip_prefix p s = None -> m s = None.

(** The occurrence the parser reads for an entry: the pattern of the
    texts dialect has no group for what follows the value. *)
Definition occ_of_elem (f : xml_format) (e : elem) : text * text * text :=
  (e_key e, e_value e,
   match f with Elements => e_attrs e | Texts => [] end).

(** The same file with every entry replaced. *)
Definition map_elems (g : elem -> elem) (d : doc) : doc :=
  {| head := head d; body := map (fun ec => (g (fst ec), snd ec)) (body d) |}.

(** The entry [replacer] writes for an entry of its key. *)
Definition rewrite_elem (sh : text) (e : elem) : elem :=
  {| e_key := e_key e;
     e_value := e_value e;
     e_attrs :=
       if contains (Q "tag='format'") (sub strip_eh_pattern (e_attrs e))
       then Q " eh='" ++ sh ++ Q "' tag='format'"
       else Q " eh='" ++ sh ++ Q "' " |}.

(** [rewrite_elem] on the entries of one key. *)
Definition rewrite_key (k sh : text) (e : elem) : elem :=
  if text_eqb (e_key e) k then rewrite_elem sh e else e.

(** The last entry of a key in a list of entries. *)
Fixpoint last_elem (k : text) (l : list elem) : option elem :=
  match l with
  | [] => None
  | e :: l' =>
      match last_elem k l' with
      | Some x => Some x
      | None => if text_eqb (e_key e) k then Some e else None
      end
  end.

(** The entry the parser records for an entry of the file. *)
Definition entry_of_elem (f : xml_format) (e : elem) : entry :=
  occ_entry (occ_of_elem f e).

(** A text of lower-case hexadecimal digits. *)
Definition is_hex (s : text) : bool :=
  forallb (fun c => existsb (Ascii.eqb c) (T "0123456789abcdef")) s.

(** A loop over the items of a dictionary that substitutes [replacer]
    for the items [dec] selects, with the fingerprint of their value. *)
Definition rewrite_loop (dec : text * entry -> bool) (items : dict entry)
  (content : text) : text :=
  fold_left
    (fun content item =>
       if dec item
       then sub (replacer (fst item) (get_hash (value (snd item)))) content
       else content)
    items content.

(** What such a loop does to an entry of the file. *)
Definition rewrite_by (dec : text * entry -> bool) (items : dict entry)
  (e : elem) : elem :=
  match dict_get (e_key e) items with
  | Some data =>
      if dec (e_key e, data) then rewrite_elem (get_hash (value data)) e
      else e
  | None => e
  end.

(** The offset, in the rendering of a body, of the end of the first entry
    with key [q]. *)
Fixpoint end_first (f : xml_format) (q : text) (b : list (elem * text))
  : nat :=
  match b with
  | [] => 0
  | (e, c) :: b' =>
      if text_eqb (e_key e) q then length (render_elem f e)
      else length (render_elem f e ++ c) + end_first f q b'
  end.

(** A new entry on a line of its own, put right after the first entry
    with key [q]. *)
Fixpoint insert_after (q : text) (new : elem) (b : list (elem * text))
  : list (elem * text) :=
  match b with
  | [] => []
  | (e, c) :: b' =>
      if text_eqb (e_key e) q then (e, [nl; tab; tab]) :: (new, c) :: b'
      else (e, c) :: insert_after q new b'
  end.

(** The offset of the first closing tag that stands in the text after an
    entry of a body. *)
Fixpoint tag_pos (f : xml_format) (b : list (elem * text)) : option nat :=
  match b with
  | [] => None
  | (e, c) :: b' =>
      match str_find (closing_tag (Some f)) c with
      | Some n => Some (length (render_elem f e) + n)
      | None =>
          option_map (Nat.add (length (render_elem f e ++ c))) (tag_pos f b')
      end
  end.

(** A new entry on a line of its own, put right before that tag. *)
Fixpoint insert_at_tag (f : xml_format) (new : elem)
  (b : list (elem * text)) : list (elem * text) :=
  match b with
  | [] => []
  | (e, c) :: b' =>
      match str_find (closing_tag (Some f)) c with
      | Some n => (e, firstn n c ++ [nl; tab; tab]) :: (new, skipn n c) :: b'
      | None => (e, c) :: insert_at_tag f new b'
      end
  end.

(** The entry the sync command writes for a missing key. *)
Definition new_elem (f : xml_format) (k : text) (source_data : entry)
  : elem :=
  {| e_key := k;
     e_value := escape_xml (untranslatedPrefix CONFIG ++ value source_data);
     e_attrs :=
       match f with
       | Elements => Q " eh='" ++ get_hash (value source_data) ++ Q "' "
       | Texts => []
       end |}.

(** Whether a closing tag stands in the text after an entry of a body. *)
Definition tagged (f : xml_format) (b : list (elem * text)) : bool :=
  existsb (fun ec => contains (closing_tag (Some f)) (snd ec)) b.

(** Where the sync command puts the entry of a missing key in a
    well-formed file: after the first entry of a key, before the closing
    tag found at an offset of the head, before the closing tag found in
    the body, or nowhere. *)
Inductive place :=
| After (q : text)
| BeforeTagHead (n : nat)
| BeforeTagBody
| Nowhere.

Definition place_of (f : xml_format) (order : list text) (k : text)
  (d : doc) : place :=
  match List.find (fun q => mem q (keys d)) (predecessors k order) with
  | Some q => After q
  | None =>
      match str_find (closing_tag (Some f)) (head d) with
      | Some n => BeforeTagHead n
      | None => if tagged f (body d) then BeforeTagBody else Nowhere
      end
  end.

Definition put (f : xml_format) (p : place) (new : elem) (d : doc) : doc :=
  match p with
  | After q => {| head := head d; body := insert_after q new (body d) |}
  | BeforeTagHead n =>
      {| head := firstn n (head d) ++ [nl; tab; tab];
         body := (new, skipn n (head d)) :: body d |}
  | BeforeTagBody =>
      {| head := head d; body := insert_at_tag f new (body d) |}
  | Nowhere => d
  end.

Definition placed (p : place) : bool :=
  match p with Nowhere => false | _ => true end.

(** Whether the file has a closing tag outside its entries. *)
Definition doc_tagged (f : xml_format) (d : doc) : bool :=
  contains (closing_tag (Some f)) (head d) || tagged f (body d).

(** A key the sync command can write into a well-formed file: not empty,
    and without quote or [<]. *)
Definition good_key (k : text) : bool :=
  nonempty k && free dq k && free "<"%char k.

(** A missing key for which the file offers no place: none of its
    predecessors is in the file, and the file has no closing tag. *)
Definition stuck (f : xml_format) (order : list text) (k : text) (d : doc)
  : bool :=
  forallb (fun q => negb (mem q (keys d))) (predecessors k order)
  && negb (doc_tagged f d).

(** The state of the loop that adds the missing keys stands for a
    well-formed file. *)
Definition models (f : xml_format) (st : adding) (d : doc) : Prop :=
  wf_doc f d = true
  /\ add_content st = render f d
  /\ forall x, mem x (add_key_set st) = mem x (keys d).

(** How the loop that adds the keys [L] changes the entries of a file:
    the last entry of any other key stays, every entry is an old one or
    the new entry of a key of [L], and no key is lost. *)
Definition extends (f : xml_format) (se : dict entry) (L : list text)
  (d d' : doc) : Prop :=
  (forall k, ~ In k L -> last_elem k (elems d') = last_elem k (elems d))
  /\ (forall e, In e (elems d') ->
        In e (elems d)
        \/ exists k src,
             In k L /\ dict_get k se = Some src /\ e = new_elem f k src)
  /\ (forall x, mem x (keys d) = true -> mem x (keys d') = true).

(** A parsed source file the sync command can work from: every ordered
    key has an entry and every entry an ordered key, as in every parsed
    file, and the keys can be written into a well-formed file. *)
Definition regular (source : parsed) : Prop :=
  coherent source
  /\ proper (entries source)
  /\ (forall q, In q (ordered_keys source) -> good_key q = true)
  /\ (forall k, dict_mem k (entries source) = true ->
        In k (ordered_keys source)).

(** Whether the sync command rewrites the hash of the entries of a source
    item, for the target file with content [lang_content]. *)
Definition refreshes (source : parsed) (lang_content : text)
  (item : text * entry) : bool :=
  let lang_entries :=
    entries (parse_content lang_content (Some Elements)) in
  refreshed lang_entries
    (missing_keys (ordered_keys source) lang_entries)
    (stale_keys (Some Elements) (entries source) lang_entries
       (ordered_keys source))
    (fst item).

(** What the loop that updates the hashes does to the entries of a
    well-formed target: nothing in the texts dialect. *)
Definition refresh_elem (f : xml_format) (source : parsed)
  (lang_content : text) (e : elem) : elem :=
  match f with
  | Elements =>
      rewrite_by (refreshes source lang_content) (entries source) e
  | Texts => e
  end.




(** ** More files used as examples *)






(** A target without entries whose container is an empty-element tag. *)
Definition selfclosed_target : text := Q "<l10n><elements/></l10n>".

(** A well-formed source file with an outdated hash and a hash that is
    not there, and a well-formed target that has the first key only. *)
Definition sample_source : doc :=
  {| head := T "<l10n><elements>";
     body :=
       [({| e_key := T "a"; e_value := T "Hello";
            e_attrs := Q " eh='00000000' " |}, T "");
        ({| e_key := T "b"; e_value := T "Bye"; e_attrs := T " " |},
         T "</elements></l10n>")] |}.

Definition sample_target : doc :=
  {| head := T "<l10n><elements>";
     body :=
       [({| e_key := T "a"; e_value := T "Hallo";
            e_attrs := Q " eh='00000000' " |},
         T "</elements></l10n>")] |}.

Definition sample_dir : dir :=
  [(T "lang_en.xml", render Elements sample_source);
   (T "lang_de.xml", render Elements sample_target)].




(** A well-formed source file with the key [a] only, and a well-formed
    target without entries. *)
Definition hello_doc : doc :=
  {| head := T "<l10n><elements>";
     body :=
       [({| e_key := T "a"; e_value := T "Hello";
            e_attrs := Q " eh='8b1a9953' " |},
         T "</elements></l10n>")] |}.

Definition empty_doc : doc :=
  {| head := T "<l10n><elements></elements></l10n>"; body := [] |}.

(** ** The place of a new entry, as the specification words it *)

(** The offset at which the entry of a missing key goes into a
    well-formed file: right after the first entry of the nearest key
    before it, in the order of the source, that the file has; without
    such a key, at the first closing tag of the container; without such a
    tag, nowhere. *)
Definition insertion_offset (f : xml_format) (order : list text)
  (k : text) (d : doc) : option nat :=
  match List.find (fun q => mem q (keys d)) (predecessors k order) with
  | Some q => Some (length (head d) + end_first f q (body d))
  | None => str_find (closing_tag (Some f)) (render f d)
  end.

(** ** Notions used for the further properties *)

(** The characters [escape_xml] replaces. *)
Definition special (c : ascii) : bool :=
  Ascii.eqb c "&"%char || Ascii.eqb c "<"%char || Ascii.eqb c ">"%char
  || Ascii.eqb c dq.

(** A text [escape_xml] has nothing to replace in. *)
Definition plain (s : text) : bool := forallb (fun c => negb (special c)) s.

(** What [escape_xml] writes for one character. *)
Definition escape_char (c : ascii) : text :=
  if Ascii.eqb c "&"%char then T "&amp;"
  else if Ascii.eqb c "<"%char then T "&lt;"
  else if Ascii.eqb c ">"%char then T "&gt;"
  else if Ascii.eqb c dq then T "&quot;"
  else [c].

(** A matcher whose matches end with the end of a tag. *)
Definition closes (A : Type) (m : matcher A) : Prop :=
  forall s a rest,
    m s = Some (a, rest) -> exists x, s = x ++ T "/>" ++ rest.

(** An entry as [format_entry] writes it, with what the parser reads in
    it. *)
Definition written_entry (fmt : option xml_format) (v entry_hash : text)
  : entry :=
  {| value := escape_xml v;
     hash := if is_elements fmt then Some entry_hash else None |}.

(** A file name that none of the patterns of [auto_detect_file_prefix]
    matches. *)
Definition unmatched (filename : text) : bool :=
  negb (is_lang_filename (T "lang") filename)
  && negb (is_lang_filename (T "translation") filename)
  && negb (is_lang_filename (T "l10n") filename).



(** A target language that makes the validate command fail: its file is
    not there, or it lacks a key of the source. *)
Definition lacking (d : dir) (p : file_prefix) (fmt : option xml_format)
  (source_entries : dict entry) (lang_code : text) : Prop :=
  exists_file (get_lang_file_path p lang_code) d = false
  \/ exists content,
       read_file (get_lang_file_path p lang_code) d = Ok content
       /\ has_missing source_entries (entries (parse_content content fmt)).



(** A file that has every key of the source. *)
Definition complete (fmt : option xml_format) (source : parsed)
  (content : text) : Prop :=
  forall k,
    In k (ordered_keys source) ->
    dict_mem k (entries (parse_content content fmt)) = true.


(** The entries the sync command writes for a list of keys of the
    source. *)
Definition placeholders (f : xml_format) (se : dict entry)
  (ks : list text) : list elem :=
  flat_map
    (fun k =>
       match dict_get k se with
       | Some src => [new_elem f k src]
       | None => []
       end)
    ks.





(** * Properties *)

(** ** The fingerprint

    The first eight digits of the MD5 digest, on texts whose digests are
    known: the empty text, a word, a text longer than one block, and a
    character that UTF-8 encodes in two bytes. *)

Example get_hash_empty : get_hash (T "") = T "d41d8cd9".
Proof. vm_compute. reflexivity. Qed.

Example get_hash_Hello : get_hash (T "Hello") = T "8b1a9953".
Proof. vm_compute. reflexivity. Qed.

Example get_hash_long :
  get_hash (repeat "a"%char 70) = T "0f5c6c4e".
Proof. vm_compute. reflexivity. Qed.

Example get_hash_latin1 :
  get_hash [ascii_of_nat 233] = T "66ddcd97".
Proof. vm_compute. reflexivity. Qed.


(** ** Texts *)

Lemma text_eqb_refl (s : text) : text_eqb s s = true.
Proof.
  induction s as [|a s IH]; simpl; [reflexivity|].
  now rewrite Ascii.eqb_refl.
Qed.

Lemma text_eqb_eq (s t : text) : text_eqb s t = true <-> s = t.
Proof.
  split; [|intros ->; apply text_eqb_refl].
  revert t; induction s as [|a s IH]; intros [|b t]; simpl;
    try discriminate; [reflexivity|].
  intros H. apply andb_true_iff in H as [Hab Hst].
  apply Ascii.eqb_eq in Hab. now rewrite Hab, (IH t Hst).
Qed.

Lemma text_eqb_neq (s t : text) : text_eqb s t = false <-> s <> t.
Proof.
  destruct (text_eqb s t) eqn:E.
  - apply text_eqb_eq in E. split; [discriminate | congruence].
  - split; [|reflexivity]. intros _ ->. now rewrite text_eqb_refl in E.
Qed.

Lemma text_eqb_sym (s t : text) : text_eqb s t = text_eqb t s.
Proof.
  destruct (text_eqb t s) eqn:E.
  - apply text_eqb_eq in E as ->. apply text_eqb_refl.
  - apply text_eqb_neq. apply text_eqb_neq in E. congruence.
Qed.

Lemma mem_In (k : text) (l : list text) : mem k l = true <-> In k l.
Proof.
  unfold mem. rewrite existsb_exists. split.
  - intros (x & Hx & E). apply text_eqb_eq in E. now subst.
  - intros H. exists k. split; [assumption | apply text_eqb_refl].
Qed.

Lemma mem_false (k : text) (l : list text) : mem k l = false <-> ~ In k l.
Proof.
  rewrite <- mem_In. destruct (mem k l); split; congruence.
Qed.

Lemma strip_prefix_app (p r : text) : strip_prefix p (p ++ r) = Some r.
Proof.
  induction p as [|a p IH]; simpl; [reflexivity|].
  now rewrite Ascii.eqb_refl.
Qed.

Lemma strip_prefix_Some (p s r : text) :
  strip_prefix p s = Some r <-> s = p ++ r.
Proof.
  split; [|intros ->; apply strip_prefix_app].
  revert s; induction p as [|a p IH]; intros s; simpl.
  - now intros [= ->].
  - destruct s as [|b s]; [discriminate|].
    destruct (Ascii.eqb a b) eqn:E; [|discriminate].
    apply Ascii.eqb_eq in E as ->. intros H. now rewrite (IH _ H).
Qed.

Lemma startswith_app (p r : text) : startswith (p ++ r) p = true.
Proof. unfold startswith. now rewrite strip_prefix_app. Qed.

Lemma startswith_true (s p : text) :
  startswith s p = true <-> exists r, s = p ++ r.
Proof.
  unfold startswith. destruct (strip_prefix p s) as [r|] eqn:E.
  - apply strip_prefix_Some in E. split; [now exists r | reflexivity].
  - split; [discriminate|]. intros [r ->].
    now rewrite strip_prefix_app in E.
Qed.

(** ** Dictionaries *)

Lemma dict_get_set_same (V : Type) (k : text) (v : V) (d : dict V) :
  dict_get k (dict_set k v d) = Some v.
Proof.
  induction d as [|[k' v'] d IH]; simpl.
  - now rewrite text_eqb_refl.
  - destruct (text_eqb k k') eqn:E; simpl.
    + now rewrite text_eqb_refl.
    + now rewrite E.
Qed.

Lemma dict_get_set_other (V : Type) (k k' : text) (v : V) (d : dict V) :
  k <> k' -> dict_get k' (dict_set k v d) = dict_get k' d.
Proof.
  intros Hne. induction d as [|[k0 v0] d IH]; simpl.
  - assert (text_eqb k' k = false) as -> by (apply text_eqb_neq; congruence).
    reflexivity.
  - destruct (text_eqb k k0) eqn:E; simpl.
    + apply text_eqb_eq in E as <-.
      assert (text_eqb k' k = false) as -> by (apply text_eqb_neq; congruence).
      reflexivity.
    + destruct (text_eqb k' k0); [reflexivity | exact IH].
Qed.

Lemma dict_mem_set (V : Type) (k k' : text) (v : V) (d : dict V) :
  dict_mem k' (dict_set k v d) = text_eqb k' k || dict_mem k' d.
Proof.
  unfold dict_mem. destruct (text_eqb k' k) eqn:E.
  - apply text_eqb_eq in E as ->. now rewrite dict_get_set_same.
  - apply text_eqb_neq in E. rewrite dict_get_set_other by congruence.
    reflexivity.
Qed.

Lemma dict_get_In (V : Type) (k : text) (v : V) (d : dict V) :
  dict_get k d = Some v -> In (k, v) d.
Proof.
  induction d as [|[k' v'] d IH]; simpl; [discriminate|].
  destruct (text_eqb k k') eqn:E.
  - apply text_eqb_eq in E as ->. intros [= ->]. now left.
  - intros H. right. now apply IH.
Qed.

Lemma dict_mem_keys (V : Type) (k : text) (d : dict V) :
  dict_mem k d = true <-> In k (map fst d).
Proof.
  unfold dict_mem. induction d as [|[k' v'] d IH]; simpl.
  - split; [discriminate | contradiction].
  - destruct (text_eqb k k') eqn:E.
    + apply text_eqb_eq in E as ->. split; [now left | reflexivity].
    + apply text_eqb_neq in E. rewrite IH. split; [now right|].
      intros [H|H]; [congruence | assumption].
Qed.

Lemma dict_set_keys (V : Type) (k : text) (v : V) (d : dict V) :
  map fst (dict_set k v d)
  = if dict_mem k d then map fst d else map fst d ++ [k].
Proof.
  unfold dict_mem. induction d as [|[k' v'] d IH]; simpl; [reflexivity|].
  destruct (text_eqb k k') eqn:E; simpl.
  - apply text_eqb_eq in E as ->. reflexivity.
  - rewrite IH. now destruct (dict_get k d).
Qed.

Lemma hashes_of_get (k : text) (d : dict entry) :
  dict_get k (hashes_of d)
  = option_map (fun e => get_hash (value e)) (dict_get k d).
Proof.
  induction d as [|[k' e] d IH]; simpl; [reflexivity|].
  now destruct (text_eqb k k').
Qed.

(** ** Loops *)

Lemma for_each_app (A S : Type) (body : S -> A -> res S) (l1 l2 : list A)
  (st : S) :
  for_each body (l1 ++ l2) st
  = (do st' <- for_each body l1 st; for_each body l2 st').
Proof.
  revert st; induction l1 as [|a l1 IH]; intros st; simpl; [reflexivity|].
  destruct (body st a); simpl; [apply IH | reflexivity].
Qed.

(** A loop whose body never raises is a fold. *)
Lemma for_each_fold (A S : Type) (body : S -> A -> res S)
  (f : S -> A -> S) (l : list A) (st : S) :
  (forall st a, In a l -> body st a = Ok (f st a)) ->
  for_each body l st = Ok (fold_left f l st).
Proof.
  revert st; induction l as [|a l IH]; intros st H; simpl; [reflexivity|].
  rewrite H by now left. simpl. apply IH. intros st' a' Hin.
  apply H. now right.
Qed.

(** ** Parsing *)

Lemma parse_step_keys (acc : parsed) (m : text * text * text) :
  ordered_keys (parse_step acc m) = ordered_keys acc ++ [occ_key m].
Proof. now destruct m as [[k v] a]. Qed.

Lemma parse_step_entries (acc : parsed) (m : text * text * text) :
  entries (parse_step acc m) = dict_set (occ_key m) (occ_entry m) (entries acc).
Proof. now destruct m as [[k v] a]. Qed.

Lemma parse_step_duplicates (acc : parsed) (m : text * text * text) :
  duplicates (parse_step acc m)
  = if dict_mem (occ_key m) (entries acc)
    then duplicates acc ++ [occ_key m] else duplicates acc.
Proof. now destruct m as [[k v] a]. Qed.

Lemma parse_step_raw (acc : parsed) (m : text * text * text) :
  raw_content (parse_step acc m) = raw_content acc.
Proof. now destruct m as [[k v] a]. Qed.

Lemma parse_fold_keys (ms : list (text * text * text)) (acc : parsed) :
  ordered_keys (fold_left parse_step ms acc)
  = ordered_keys acc ++ map occ_key ms.
Proof.
  revert acc; induction ms as [|m ms IH]; intros acc; simpl.
  - now rewrite app_nil_r.
  - rewrite IH, parse_step_keys, <- app_assoc. reflexivity.
Qed.

Lemma parse_fold_raw (ms : list (text * text * text)) (acc : parsed) :
  raw_content (fold_left parse_step ms acc) = raw_content acc.
Proof.
  revert acc; induction ms as [|m ms IH]; intros acc; simpl;
    [reflexivity|]. now rewrite IH, parse_step_raw.
Qed.

(** A key the remaining occurrences do not have keeps its entry. *)
Lemma parse_fold_other (k : text) (ms : list (text * text * text))
  (acc : parsed) :
  ~ In k (map occ_key ms) ->
  dict_get k (entries (fold_left parse_step ms acc))
  = dict_get k (entries acc).
Proof.
  revert acc; induction ms as [|m ms IH]; intros acc Hk; simpl;
    [reflexivity|].
  rewrite IH by (intros H; apply Hk; now right).
  rewrite parse_step_entries. apply dict_get_set_other.
  intros E. apply Hk. now left.
Qed.

(** The last occurrence of a key decides its entry. *)
Lemma parse_fold_last (m : text * text * text)
  (ms1 ms2 : list (text * text * text)) (acc : parsed) :
  ~ In (occ_key m) (map occ_key ms2) ->
  dict_get (occ_key m) (entries (fold_left parse_step (ms1 ++ m :: ms2) acc))
  = Some (occ_entry m).
Proof.
  intros Hk. rewrite fold_left_app. simpl.
  rewrite parse_fold_other by assumption.
  rewrite parse_step_entries. apply dict_get_set_same.
Qed.

Lemma parse_fold_mem (k : text) (ms : list (text * text * text))
  (acc : parsed) :
  dict_mem k (entries (fold_left parse_step ms acc))
  = dict_mem k (entries acc) || mem k (map occ_key ms).
Proof.
  revert acc; induction ms as [|m ms IH]; intros acc; simpl.
  - now rewrite orb_false_r.
  - rewrite IH, parse_step_entries, dict_mem_set.
    rewrite (orb_comm (text_eqb _ _)), orb_assoc. reflexivity.
Qed.

Lemma count_app (k : text) (l1 l2 : list text) :
  count k (l1 ++ l2) = count k l1 + count k l2.
Proof. unfold count. now rewrite filter_app, length_app. Qed.

Lemma count_zero (k : text) (l : list text) : ~ In k l -> count k l = 0.
Proof.
  unfold count. induction l as [|x l IH]; simpl; [reflexivity|].
  intros H. destruct (text_eqb k x) eqn:E.
  - apply text_eqb_eq in E. exfalso. apply H. now left.
  - apply IH. intros Hin. apply H. now right.
Qed.

Lemma count_pos (k : text) (l : list text) : In k l -> 0 < count k l.
Proof.
  unfold count. induction l as [|x l IH]; simpl; [contradiction|].
  intros [->|H].
  - rewrite text_eqb_refl. simpl. lia.
  - destruct (text_eqb k x); simpl; [lia | now apply IH].
Qed.

Lemma count_cons (k x : text) (l : list text) :
  count k (x :: l) = (if text_eqb k x then 1 else 0) + count k l.
Proof. unfold count. simpl. now destruct (text_eqb k x). Qed.

(** Every occurrence of a key after its first one is recorded as a
    duplicate. *)
Lemma parse_fold_duplicates (k : text) (ms : list (text * text * text))
  (acc : parsed) :
  count k (duplicates (fold_left parse_step ms acc))
  = count k (duplicates acc)
    + (if dict_mem k (entries acc) then count k (map occ_key ms)
       else pred (count k (map occ_key ms))).
Proof.
  revert acc; induction ms as [|m ms IH]; intros acc.
  - simpl. destruct (dict_mem k (entries acc)); unfold count; simpl; lia.
  - cbn [fold_left map]. rewrite IH, parse_step_entries,
      parse_step_duplicates, dict_mem_set, count_cons.
    destruct (text_eqb k (occ_key m)) eqn:E; cbn [orb].
    + apply text_eqb_eq in E as <-.
      destruct (dict_mem k (entries acc)).
      * rewrite count_app, count_cons, text_eqb_refl.
        change (count k []) with 0. lia.
      * simpl. lia.
    + cbn [Nat.add].
      destruct (dict_mem (occ_key m) (entries acc)); [|reflexivity].
      rewrite count_app, count_cons, E. change (count k []) with 0.
      destruct (dict_mem k (entries acc)); lia.
Qed.

Lemma parse_content_keys (content : text) (fmt : option xml_format) :
  ordered_keys (parse_content content fmt)
  = map occ_key (occurrences content fmt).
Proof. unfold parse_content. now rewrite parse_fold_keys. Qed.

Lemma parse_content_raw (content : text) (fmt : option xml_format) :
  raw_content (parse_content content fmt) = content.
Proof. unfold parse_content. now rewrite parse_fold_raw. Qed.

Lemma parse_content_mem (content : text) (fmt : option xml_format)
  (k : text) :
  dict_mem k (entries (parse_content content fmt))
  = mem k (ordered_keys (parse_content content fmt)).
Proof.
  rewrite parse_content_keys. unfold parse_content.
  now rewrite parse_fold_mem.
Qed.

Lemma parse_content_last (content : text) (fmt : option xml_format)
  (m : text * text * text) (ms1 ms2 : list (text * text * text)) :
  occurrences content fmt = ms1 ++ m :: ms2 ->
  ~ In (occ_key m) (map occ_key ms2) ->
  dict_get (occ_key m) (entries (parse_content content fmt))
  = Some (occ_entry m).
Proof.
  intros Hocc Hk. unfold parse_content. fold (occurrences content fmt).
  rewrite Hocc. now apply parse_fold_last.
Qed.

Lemma parse_content_duplicates (content : text) (fmt : option xml_format)
  (k : text) :
  count k (duplicates (parse_content content fmt))
  = pred (count k (map occ_key (occurrences content fmt))).
Proof.
  unfold parse_content. fold (occurrences content fmt).
  now rewrite parse_fold_duplicates.
Qed.

Lemma parse_content_coherent (content : text) (fmt : option xml_format) :
  coherent (parse_content content fmt).
Proof.
  intros k Hk. rewrite parse_content_mem. now apply mem_In.
Qed.

Lemma dict_set_proper (V : Type) (k : text) (v : V) (d : dict V) :
  proper d -> proper (dict_set k v d).
Proof.
  unfold proper. rewrite dict_set_keys.
  destruct (dict_mem k d) eqn:E; [trivial|].
  intros H. apply NoDup_app; [assumption | repeat constructor; easy |].
  intros x Hx [<-|[]].
  apply dict_mem_keys in Hx. congruence.
Qed.

Lemma parse_content_proper (content : text) (fmt : option xml_format) :
  proper (entries (parse_content content fmt)).
Proof.
  unfold parse_content.
  assert (G : forall ms acc, proper (entries acc) ->
              proper (entries (fold_left parse_step ms acc))).
  { induction ms as [|m ms IH]; intros acc H; simpl; [assumption|].
    apply IH. rewrite parse_step_entries. now apply dict_set_proper. }
  apply G. constructor.
Qed.

(** In a proper dictionary an item is what its key looks up. *)
Lemma proper_get (V : Type) (k : text) (v : V) (d : dict V) :
  proper d -> In (k, v) d -> dict_get k d = Some v.
Proof.
  unfold proper. induction d as [|[k' v'] d IH]; simpl; [contradiction|].
  intros Hnd [[= -> ->]|Hin].
  - now rewrite text_eqb_refl.
  - inversion Hnd as [|? ? Hnot Hnd']; subst.
    destruct (text_eqb k k') eqn:E.
    + apply text_eqb_eq in E as ->. exfalso. apply Hnot.
      now apply (in_map fst) in Hin.
    + now apply IH.
Qed.

(** ** The sync command for one language *)

Lemma hash_differs_true (h : option text) (x : text) :
  hash_differs h x = true <-> h <> Some x.
Proof.
  destruct h as [y|]; simpl.
  - rewrite negb_true_iff, text_eqb_neq. split; congruence.
  - split; [discriminate | reflexivity].
Qed.

Lemma dict_lookup_hashes (k : text) (d : dict entry) (e : entry) :
  dict_get k d = Some e ->
  dict_lookup k (hashes_of d) = Ok (get_hash (value e)).
Proof.
  intros H. unfold dict_lookup. now rewrite hashes_of_get, H.
Qed.

Lemma classify_step_Ok (fmt : option xml_format)
  (source_entries lang_entries : dict entry) (k : text)
  (missing stale : list text) :
  dict_mem k source_entries = true ->
  classify_step fmt (hashes_of source_entries) lang_entries
    (missing, stale) k
  = Ok (missing ++ missing_keys [k] lang_entries,
        stale ++ stale_keys fmt source_entries lang_entries [k]).
Proof.
  unfold dict_mem. intros Hm.
  destruct (dict_get k source_entries) as [src|] eqn:Es; [|discriminate].
  unfold classify_step, missing_keys, stale_keys, stale_key, dict_mem.
  cbn [filter]. rewrite (dict_lookup_hashes _ _ Es), Es. cbn [bind].
  destruct (dict_get k lang_entries) as [tgt|]; cbn [negb].
  - destruct (is_elements fmt && _); now rewrite !app_nil_r.
  - now rewrite app_nil_r.
Qed.

Lemma classify_loop (fmt : option xml_format)
  (source_entries lang_entries : dict entry) (keys : list text)
  (missing stale : list text) :
  (forall k, In k keys -> dict_mem k source_entries = true) ->
  for_each (classify_step fmt (hashes_of source_entries) lang_entries)
    keys (missing, stale)
  = Ok (missing ++ missing_keys keys lang_entries,
        stale ++ stale_keys fmt source_entries lang_entries keys).
Proof.
  revert missing stale; induction keys as [|k keys IH];
    intros missing stale Hk; cbn [for_each].
  - unfold missing_keys, stale_keys. cbn [filter]. now rewrite !app_nil_r.
  - rewrite classify_step_Ok by (apply Hk; now left). cbn [bind].
    rewrite IH by (intros; apply Hk; now right).
    rewrite <- !app_assoc. unfold missing_keys, stale_keys.
    now rewrite <- !filter_app.
Qed.

Lemma index_Ok (key : text) (l : list text) :
  In key l -> index key l = Ok (index_of key l).
Proof.
  induction l as [|k l IH]; simpl; [contradiction|].
  intros H. destruct (text_eqb k key) eqn:E; [reflexivity|].
  apply text_eqb_neq in E. destruct H as [H|H]; [congruence|].
  now rewrite IH.
Qed.

Lemma find_insert_position_Ok (content key : text)
  (en_ordered_keys lang_keys : list text) (fmt : option xml_format) :
  In key en_ordered_keys ->
  find_insert_position content key en_ordered_keys lang_keys fmt
  = Ok (insert_position content key en_ordered_keys lang_keys fmt).
Proof.
  intros H. unfold find_insert_position, insert_position, predecessors.
  rewrite (index_Ok _ _ H). cbn [bind].
  now destruct (after_predecessor _ _ _ _).
Qed.

Lemma add_step_Ok (fmt : option xml_format) (source : parsed)
  (st : adding) (key : text) :
  coherent source -> In key (ordered_keys source) ->
  add_step fmt (entries source) (hashes_of (entries source))
    (ordered_keys source) st key
  = Ok (add_key fmt (entries source) (ordered_keys source) st key).
Proof.
  intros Hc Hk. unfold add_step, add_key.
  assert (Hm := Hc _ Hk). unfold dict_mem in Hm.
  destruct (dict_get key (entries source)) as [src|] eqn:Es;
    [|discriminate].
  unfold dict_lookup at 1. rewrite Es. cbn [bind].
  rewrite (dict_lookup_hashes _ _ Es). cbn [bind].
  rewrite find_insert_position_Ok by assumption. cbn [bind].
  now destruct (insert_position _ _ _ _ _).
Qed.

Lemma refresh_step_Ok (source_entries lang_entries : dict entry)
  (missing stale : list text) (content : text) (item : text * entry) :
  proper source_entries -> In item source_entries ->
  refresh_step (hashes_of source_entries) lang_entries missing stale
    content item
  = Ok (refresh_key lang_entries missing stale content item).
Proof.
  intros Hp Hin. destruct item as [key src].
  assert (Es := proper_get _ _ Hp Hin).
  unfold refresh_step, refresh_key, refreshed. cbn [fst snd].
  destruct (dict_get key lang_entries) as [tgt|]; [|reflexivity].
  destruct (mem key missing); cbn [negb andb]; [reflexivity|].
  rewrite (dict_lookup_hashes _ _ Es). cbn [bind].
  now destruct (negb (mem key stale)
                || has_no_hash (hash tgt)
                   && negb (startswith (value tgt)
                              (untranslatedPrefix CONFIG))).
Qed.

Lemma missing_keys_In (k : text) (keys : list text) (d : dict entry) :
  In k (missing_keys keys d) <-> In k keys /\ dict_get k d = None.
Proof.
  unfold missing_keys. rewrite filter_In, negb_true_iff. unfold dict_mem.
  destruct (dict_get k d); intuition congruence.
Qed.

(** The sync command never raises on a parsed source: what it returns. *)
Lemma sync_language_Ok (fmt : option xml_format) (source : parsed)
  (lang_content : text) :
  coherent source -> proper (entries source) ->
  let lang := parse_content lang_content fmt in
  let missing := missing_keys (ordered_keys source) (entries lang) in
  let stale :=
    stale_keys fmt (entries source) (entries lang) (ordered_keys source) in
  let st :=
    fold_left (add_key fmt (entries source) (ordered_keys source)) missing
      {| add_content := lang_content; add_key_set := ordered_keys lang;
         added := 0 |} in
  let issues := validation_issues (entries source) (entries lang) in
  sync_language fmt source lang_content
  = Ok {| new_content :=
            if is_elements fmt
            then fold_left (refresh_key (entries lang) missing stale)
                   (entries source) (add_content st)
            else add_content st;
          sync_missing := missing;
          sync_stale := stale;
          sync_duplicates := duplicates lang;
          sync_orphaned :=
            orphaned_keys (entries source) (ordered_keys lang);
          sync_format_errors := filter is_format_error issues;
          sync_empty_values := filter is_empty_issue issues;
          sync_whitespace_issues := filter is_whitespace_issue issues;
          sync_added := added st |}.
Proof.
  intros Hc Hp lang missing stale st issues. unfold sync_language.
  rewrite classify_loop by exact Hc. cbn [app bind].
  fold lang. fold missing. fold stale.
  rewrite (for_each_fold _
             (add_key fmt (entries source) (ordered_keys source))).
  2:{ intros st' k Hk. apply add_step_Ok; [assumption|].
      now apply missing_keys_In in Hk. }
  cbn [bind].
  replace (raw_content lang) with lang_content
    by (symmetry; apply parse_content_raw).
  fold st.
  destruct (is_elements fmt); cbn [bind]; [|reflexivity].
  rewrite (for_each_fold _ (refresh_key (entries lang) missing stale)).
  2:{ intros c item Hin. now apply refresh_step_Ok. }
  reflexivity.
Qed.

(** ** The comparison of the read-only commands *)

Section Comparison.

Variable is_format_only_string : text -> bool.
Variable is_cognate_or_international_term : text -> bool.

Let classes := keys_of_class is_format_only_string
                 is_cognate_or_international_term.

Lemma compare_step_Ok (fmt : option xml_format)
  (source_entries lang_entries : dict entry) (item : text * entry)
  (st : comparison) :
  dict_get (fst item) source_entries = Some (snd item) ->
  compare_step is_format_only_string is_cognate_or_international_term
    fmt (hashes_of source_entries) lang_entries st item
  = Ok {| cmp_translated :=
            cmp_translated st
            ++ classes fmt lang_entries (Some Translated) [item];
          cmp_missing :=
            cmp_missing st ++ classes fmt lang_entries None [item];
          cmp_stale :=
            cmp_stale st ++ classes fmt lang_entries (Some Stale) [item];
          cmp_untranslated :=
            cmp_untranslated st
            ++ classes fmt lang_entries (Some Untranslated) [item] |}.
Proof.
  destruct item as [k src]. cbn [fst snd]. intros Es.
  unfold compare_step. rewrite (dict_lookup_hashes _ _ Es). cbn [bind].
  unfold classes, keys_of_class, class_of. cbn [filter fst snd].
  destruct (dict_get k lang_entries) as [tgt|].
  - destruct (classify_translation _ _ _ _ _ _);
      cbn [same_class map fst]; now rewrite !app_nil_r.
  - cbn [same_class map fst]. now rewrite !app_nil_r.
Qed.

Lemma classes_cons (fmt : option xml_format) (lang_entries : dict entry)
  (c : option category) (item : text * entry) (items : dict entry) :
  classes fmt lang_entries c (item :: items)
  = classes fmt lang_entries c [item] ++ classes fmt lang_entries c items.
Proof.
  unfold classes, keys_of_class. rewrite <- map_app, <- filter_app.
  reflexivity.
Qed.

Lemma compare_loop (fmt : option xml_format)
  (source_entries lang_entries : dict entry) (items : dict entry)
  (st : comparison) :
  proper source_entries ->
  (forall item, In item items -> In item source_entries) ->
  for_each
    (compare_step is_format_only_string is_cognate_or_international_term
       fmt (hashes_of source_entries) lang_entries) items st
  = Ok {| cmp_translated :=
            cmp_translated st
            ++ classes fmt lang_entries (Some Translated) items;
          cmp_missing :=
            cmp_missing st ++ classes fmt lang_entries None items;
          cmp_stale :=
            cmp_stale st ++ classes fmt lang_entries (Some Stale) items;
          cmp_untranslated :=
            cmp_untranslated st
            ++ classes fmt lang_entries (Some Untranslated) items |}.
Proof.
  intros Hp. revert st. induction items as [|item items IH];
    intros st Hin; cbn [for_each].
  - unfold classes, keys_of_class. cbn [filter map].
    rewrite !app_nil_r. now destruct st.
  - rewrite compare_step_Ok.
    2:{ destruct item as [k src]. apply proper_get; [assumption|].
        apply Hin. now left. }
    cbn [bind]. rewrite IH by (intros; apply Hin; now right).
    cbn [cmp_translated cmp_missing cmp_stale cmp_untranslated].
    rewrite <- !app_assoc, <- !classes_cons. reflexivity.
Qed.

Lemma compare_language_Ok (fmt : option xml_format)
  (source_entries : dict entry) (lang : parsed) :
  proper source_entries ->
  compare_language is_format_only_string is_cognate_or_international_term
    fmt source_entries lang
  = Ok {| cmp_translated :=
            classes fmt (entries lang) (Some Translated) source_entries;
          cmp_missing := classes fmt (entries lang) None source_entries;
          cmp_stale :=
            classes fmt (entries lang) (Some Stale) source_entries;
          cmp_untranslated :=
            classes fmt (entries lang) (Some Untranslated) source_entries |}.
Proof.
  intros Hp. unfold compare_language. now rewrite compare_loop.
Qed.

Lemma classes_In (fmt : option xml_format)
  (source_entries lang_entries : dict entry) (c : option category)
  (k : text) (src : entry) :
  proper source_entries -> dict_get k source_entries = Some src ->
  In k (classes fmt lang_entries c source_entries)
  <-> same_class
        (class_of is_format_only_string is_cognate_or_international_term
           fmt lang_entries (k, src)) c = true.
Proof.
  intros Hp Es. unfold classes, keys_of_class. rewrite in_map_iff. split.
  - intros ([k' src'] & E & Hin). cbn [fst] in E. subst k'.
    apply filter_In in Hin as [Hin Hc].
    rewrite (proper_get _ _ Hp Hin) in Es. now injection Es as <-.
  - intros Hc. exists (k, src). split; [reflexivity|].
    apply filter_In. split; [now apply dict_get_In | assumption].
Qed.

End Comparison.

(** ** Claims about classification and duplicates *)

Lemma stale_keys_In (fmt : option xml_format)
  (source_entries lang_entries : dict entry) (keys : list text)
  (k : text) (src tgt : entry) :
  dict_get k source_entries = Some src ->
  dict_get k lang_entries = Some tgt ->
  In k (stale_keys fmt source_entries lang_entries keys)
  <-> In k keys /\ is_elements fmt = true
      /\ hash tgt <> Some (get_hash (value src))
      /\ startswith (value tgt) (untranslatedPrefix CONFIG) = false.
Proof.
  intros Es Et. unfold stale_keys. rewrite filter_In.
  unfold stale_key. rewrite Es, Et.
  rewrite !andb_true_iff, hash_differs_true, negb_true_iff. tauto.
Qed.

Lemma stale_not_missing (fmt : option xml_format)
  (source_entries lang_entries : dict entry) (keys : list text) (k : text) :
  In k (missing_keys keys lang_entries) ->
  ~ In k (stale_keys fmt source_entries lang_entries keys).
Proof.
  intros Hm Hs. apply missing_keys_In in Hm as [_ Hm].
  unfold stale_keys in Hs. apply filter_In in Hs as [_ Hs].
  unfold stale_key in Hs. rewrite Hm in Hs.
  now destruct (dict_get k source_entries).
Qed.

(** C3: under the elements dialect the sync command marks a source key
    the target has as stale exactly when the hash of the target entry
    differs from the fingerprint of the source value and the target value
    does not start with the untranslated prefix; a value with the prefix
    is never stale, and no key is both missing and stale. *)
Theorem sync_stale_classification (source_content lang_content : text) :
  let fmt := Some Elements in
  let source := parse_content source_content fmt in
  let lang := parse_content lang_content fmt in
  exists r,
    sync_language fmt source lang_content = Ok r
    /\ (forall k src tgt,
          In k (ordered_keys source) ->
          dict_get k (entries source) = Some src ->
          dict_get k (entries lang) = Some tgt ->
          (In k (sync_stale r)
           <-> hash tgt <> Some (get_hash (value src))
               /\ startswith (value tgt) (untranslatedPrefix CONFIG) = false)
          /\ (startswith (value tgt) (untranslatedPrefix CONFIG) = true ->
              ~ In k (sync_stale r)))
    /\ (forall k, In k (sync_missing r) -> ~ In k (sync_stale r)).
Proof.
  intros fmt source lang. eexists. split.
  - apply sync_language_Ok;
      [apply parse_content_coherent | apply parse_content_proper].
  - cbn [sync_stale sync_missing]. split.
    + intros k src tgt Hk Es Et. fold lang.
      rewrite (@stale_keys_In fmt _ _ _ _ _ _ Es Et). split.
      * split; [tauto|]. intros [H1 H2]. now repeat split.
      * intros Hp (_ & _ & _ & H). congruence.
    + intros k. apply stale_not_missing.
Qed.

(** C10: an entry of an elements target that has no hash attribute, whose
    value does not start with the untranslated prefix and differs from the
    source value, is stale for the sync command, and is translated, not
    stale, in the comparison that the check, status and report commands
    run. *)
Theorem hashless_entry_stale_only_for_sync
  (is_format_only_string is_cognate_or_international_term : text -> bool)
  (source_content lang_content : text) :
  let fmt := Some Elements in
  let source := parse_content source_content fmt in
  let lang := parse_content lang_content fmt in
  exists r c row,
    sync_language fmt source lang_content = Ok r
    /\ compare_language is_format_only_string
         is_cognate_or_international_term fmt (entries source) lang = Ok c
    /\ status_language is_format_only_string
         is_cognate_or_international_term fmt (entries source) lang = Ok row
    /\ st_stale row = length (cmp_stale c)
    /\ st_translated row = length (cmp_translated c)
    /\ forall k src tgt,
         In k (ordered_keys source) ->
         dict_get k (entries source) = Some src ->
         dict_get k (entries lang) = Some tgt ->
         hash tgt = None ->
         startswith (value tgt) (untranslatedPrefix CONFIG) = false ->
         value tgt <> value src ->
         In k (sync_stale r)
         /\ ~ In k (cmp_stale c)
         /\ In k (cmp_translated c).
Proof.
  intros fmt source lang.
  assert (Hc := parse_content_coherent source_content fmt).
  assert (Hp := parse_content_proper source_content fmt).
  fold source in Hc, Hp.
  eexists. eexists. eexists. split; [now apply sync_language_Ok|].
  split; [now apply compare_language_Ok|]. split.
  { unfold status_language. rewrite compare_language_Ok by assumption.
    cbn [bind]. reflexivity. }
  split; [reflexivity|]. split; [reflexivity|].
  intros k src tgt Hk Es Et Hh Hpre Hne.
  cbn [sync_stale cmp_stale cmp_translated]. fold lang.
  rewrite (@stale_keys_In fmt _ _ _ _ _ _ Es Et).
  rewrite !(@classes_In _ _ fmt _ _ _ _ _ Hp Es).
  unfold class_of. cbn [fst snd]. rewrite Et.
  unfold classify_translation. rewrite Hpre, Hh.
  assert (text_eqb (value tgt) (value src) = false) as ->
    by now apply text_eqb_neq.
  cbn [andb negb has_no_hash is_elements fmt same_class].
  repeat split; try assumption; discriminate.
Qed.

(** C9: when a key occurs exactly twice in a file, with different values,
    parsing records it once as a duplicate, the lookup of the key gives the
    value of the last occurrence, and the ordered keys hold both
    occurrences in document order. *)
Theorem duplicate_detection (content : text) (fmt : option xml_format)
  (k v1 a1 v2 a2 : text) (ms1 ms2 ms3 : list (text * text * text)) :
  occurrences content fmt = ms1 ++ (k, v1, a1) :: ms2 ++ (k, v2, a2) :: ms3 ->
  ~ In k (map occ_key (ms1 ++ ms2 ++ ms3)) ->
  v1 <> v2 ->
  let p := parse_content content fmt in
  filter (text_eqb k) (duplicates p) = [k]
  /\ option_map value (dict_get k (entries p)) = Some v2
  /\ ordered_keys p
     = map occ_key ms1 ++ k :: map occ_key ms2 ++ k :: map occ_key ms3.
Proof.
  intros Hocc Hk _ p. rewrite !map_app, !in_app_iff in Hk.
  split; [|split].
  - assert (Hc : count k (duplicates p) = 1).
    { unfold p. rewrite parse_content_duplicates, Hocc.
      rewrite !map_app. cbn [map]. rewrite !map_app. cbn [map].
      rewrite !count_app, !count_cons, !count_app, !count_cons.
      cbn [occ_key fst]. rewrite text_eqb_refl.
      rewrite !count_zero by tauto. reflexivity. }
    unfold count in Hc.
    assert (Hall : forall x, In x (filter (text_eqb k) (duplicates p)) ->
                             x = k).
    { intros x Hx. apply filter_In in Hx as [_ Hx].
      symmetry. now apply text_eqb_eq. }
    destruct (filter (text_eqb k) (duplicates p)) as [|x [|y l]];
      try discriminate.
    now rewrite (Hall x) by now left.
  - unfold p.
    change k with (occ_key (k, v2, a2)) at 1.
    rewrite (parse_content_last content fmt (k, v2, a2)
               (ms1 ++ (k, v1, a1) :: ms2) ms3).
    + reflexivity.
    + now rewrite <- app_assoc.
    + cbn [occ_key fst]. tauto.
  - unfold p. rewrite parse_content_keys, Hocc.
    rewrite !map_app. cbn [map]. rewrite !map_app. reflexivity.
Qed.

Lemma validation_issues_In (source_entries lang_entries : dict entry)
  (k : text) (src tgt : entry) (i : issue) :
  In (k, src) source_entries ->
  dict_get k lang_entries = Some tgt ->
  In i (validate_entry k (value src) (value tgt)) ->
  In i (validation_issues source_entries lang_entries).
Proof.
  intros Hin Et Hi. unfold validation_issues. apply in_flat_map.
  exists (k, src). split; [assumption|]. now rewrite Et.
Qed.

Lemma issue_sorted_out (i : issue) (l : list issue) :
  In i l ->
  In i (filter is_format_error l ++ filter is_empty_issue l
        ++ filter is_whitespace_issue l).
Proof.
  intros Hin. rewrite !in_app_iff, !filter_In.
  unfold is_format_error, is_empty_issue, is_whitespace_issue.
  destruct (issue_kind i); tauto.
Qed.

(** C8, the counterexample: in a target where the key [a] stands twice,
    the lookup gives the second value, and the sync command finds the key
    stale, as the second occurrence is, although the first occurrence is
    not. *)
Lemma first_occurrence_does_not_win :
  let fmt := Some Elements in
  let source := parse_content hello_source fmt in
  let lang := parse_content twice_target fmt in
  map occ_entry (occurrences twice_target fmt)
  = [ {| value := T "Hallo"; hash := Some (T "8b1a9953") |};
      {| value := T "Salut"; hash := Some (T "00000000") |} ]
  /\ dict_get (T "a") (entries lang)
     = Some {| value := T "Salut"; hash := Some (T "00000000") |}
  /\ match sync_language fmt source twice_target with
     | Ok r => sync_stale r = [T "a"]
     | Raise _ => False
     end
  /\ stale_key fmt (entries source)
       [(T "a", {| value := T "Hallo"; hash := Some (T "8b1a9953") |})]
       (T "a") = false.
Proof. vm_compute. repeat split. Qed.

(** C8, amended: the entry of the last occurrence of a key is the one the
    comparisons use: the lookup returns it, the sync command decides
    staleness on it, the read-only commands classify it, and the
    validation checks its value. *)
Theorem last_occurrence_wins
  (is_format_only_string is_cognate_or_international_term : text -> bool)
  (fmt : option xml_format) (source_content lang_content : text) :
  let source := parse_content source_content fmt in
  let lang := parse_content lang_content fmt in
  exists r c,
    sync_language fmt source lang_content = Ok r
    /\ compare_language is_format_only_string
         is_cognate_or_international_term fmt (entries source) lang = Ok c
    /\ forall k v a ms1 ms2 src,
         occurrences lang_content fmt = ms1 ++ (k, v, a) :: ms2 ->
         ~ In k (map occ_key ms2) ->
         In k (ordered_keys source) ->
         dict_get k (entries source) = Some src ->
         let last := {| value := v; hash := hash_in a |} in
         dict_get k (entries lang) = Some last
         /\ (In k (sync_stale r)
             <-> is_elements fmt = true
                 /\ hash_in a <> Some (get_hash (value src))
                 /\ startswith v (untranslatedPrefix CONFIG) = false)
         /\ (In k (cmp_stale c)
             <-> classify_translation is_format_only_string
                   is_cognate_or_international_term fmt src
                   (get_hash (value src)) last = Stale)
         /\ (In k (cmp_untranslated c)
             <-> classify_translation is_format_only_string
                   is_cognate_or_international_term fmt src
                   (get_hash (value src)) last = Untranslated)
         /\ (forall i, In i (validate_entry k (value src) v) ->
               In i (sync_format_errors r ++ sync_empty_values r
                     ++ sync_whitespace_issues r)).
Proof.
  intros source lang.
  assert (Hc := parse_content_coherent source_content fmt).
  assert (Hp := parse_content_proper source_content fmt).
  fold source in Hc, Hp.
  eexists. eexists. split; [now apply sync_language_Ok|].
  split; [now apply compare_language_Ok|].
  intros k v a ms1 ms2 src Hocc Hlast Hk Es last.
  assert (Et : dict_get k (entries lang) = Some last).
  { exact (parse_content_last lang_content fmt (k, v, a) ms1 ms2
             Hocc Hlast). }
  cbn [sync_stale cmp_stale cmp_untranslated sync_format_errors
       sync_empty_values sync_whitespace_issues].
  fold lang. split; [exact Et|].
  rewrite (@stale_keys_In fmt _ _ _ _ _ _ Es Et).
  rewrite !(@classes_In _ _ fmt _ _ _ _ _ Hp Es).
  unfold class_of. cbn [fst snd]. rewrite Et.
  split; [cbn [value hash last]; tauto|].
  split.
  { destruct (classify_translation _ _ _ _ _ _); cbn [same_class];
      split; congruence. }
  split.
  { destruct (classify_translation _ _ _ _ _ _); cbn [same_class];
      split; congruence. }
  intros i Hi. apply issue_sorted_out.
  apply (@validation_issues_In (entries source) (entries lang) k src last);
    [now apply dict_get_In | exact Et | exact Hi].
Qed.

Lemma duplicate_detection_witness :
  let p := parse_content twice_target (Some Elements) in
  occurrences twice_target (Some Elements)
  = [(T "a", T "Hallo", Q " eh='8b1a9953' ");
     (T "a", T "Salut", Q " eh='00000000' ")]
  /\ filter (text_eqb (T "a")) (duplicates p) = [T "a"]
  /\ option_map value (dict_get (T "a") (entries p)) = Some (T "Salut")
  /\ ordered_keys p = [T "a"; T "a"].
Proof.
  split; [vm_compute; reflexivity|].
  apply (@duplicate_detection twice_target (Some Elements) (T "a")
           (T "Hallo") (Q " eh='8b1a9953' ") (T "Salut")
           (Q " eh='00000000' ") [] [] []).
  - vm_compute. reflexivity.
  - intros H. exact H.
  - discriminate.
Defined.

(** ** Format specifiers *)

Lemma code_inj (a b : ascii) : code a = code b -> a = b.
Proof.
  unfold code. intros H.
  rewrite <- (ascii_N_embedding a), <- (ascii_N_embedding b).
  now rewrite H.
Qed.

Lemma text_leb_total (s t : text) :
  text_leb s t = false -> text_leb t s = true.
Proof.
  revert t; induction s as [|a s IH]; intros [|b t]; cbn [text_leb];
    try discriminate; try reflexivity.
  destruct (code a <? code b)%N eqn:E1; [discriminate|].
  destruct (code b <? code a)%N eqn:E2; [reflexivity|]. apply IH.
Qed.

Lemma text_leb_antisym (s t : text) :
  text_leb s t = true -> text_leb t s = true -> s = t.
Proof.
  revert t; induction s as [|a s IH]; intros [|b t]; cbn [text_leb];
    try discriminate; try reflexivity.
  destruct (code a <? code b)%N eqn:E1, (code b <? code a)%N eqn:E2;
    try discriminate.
  - apply N.ltb_lt in E1, E2. lia.
  - intros H1 H2. apply N.ltb_ge in E1, E2.
    rewrite (code_inj a b) by lia. now rewrite (IH t).
Qed.

Lemma text_leb_trans (s t u : text) :
  text_leb s t = true -> text_leb t u = true -> text_leb s u = true.
Proof.
  revert t u; induction s as [|a s IH]; intros [|b t] [|c u];
    cbn [text_leb]; try discriminate; try reflexivity.
  destruct (code a <? code b)%N eqn:E1, (code b <? code a)%N eqn:E2,
    (code b <? code c)%N eqn:E3, (code c <? code b)%N eqn:E4,
    (code a <? code c)%N eqn:E5, (code c <? code a)%N eqn:E6;
    try discriminate; try reflexivity;
    rewrite ?N.ltb_lt, ?N.ltb_ge in *; try lia.
  apply IH.
Qed.

Lemma insert_sorted_comm (x y : text) (l : list text) :
  insert_sorted x (insert_sorted y l) = insert_sorted y (insert_sorted x l).
Proof.
  induction l as [|z l IH]; cbn [insert_sorted].
  - destruct (text_leb x y) eqn:Exy, (text_leb y x) eqn:Eyx;
      try reflexivity.
    + now rewrite (text_leb_antisym _ _ Exy Eyx).
    + apply text_leb_total in Exy. congruence.
  - destruct (text_leb y z) eqn:Eyz, (text_leb x z) eqn:Exz;
      cbn [insert_sorted]; rewrite ?Eyz, ?Exz.
    + destruct (text_leb x y) eqn:Exy, (text_leb y x) eqn:Eyx;
        try reflexivity.
      * now rewrite (text_leb_antisym _ _ Exy Eyx).
      * apply text_leb_total in Exy. congruence.
    + destruct (text_leb x y) eqn:Exy; [|reflexivity].
      rewrite (text_leb_trans _ _ _ Exy Eyz) in Exz. discriminate.
    + destruct (text_leb y x) eqn:Eyx; [|reflexivity].
      rewrite (text_leb_trans _ _ _ Eyx Exz) in Eyz. discriminate.
    + now rewrite IH.
Qed.

(** Sorting forgets the order of the list. *)
Lemma sorted_permutation (l1 l2 : list text) :
  Permutation l1 l2 -> sorted l1 = sorted l2.
Proof.
  unfold sorted. induction 1; cbn [fold_right].
  - reflexivity.
  - now rewrite IHPermutation.
  - apply insert_sorted_comm.
  - congruence.
Qed.

Lemma first_difference_false (l1 l2 : list text) :
  length l1 = length l2 ->
  first_difference l1 l2 = false <-> l1 = l2.
Proof.
  revert l2; induction l1 as [|a l1 IH]; intros [|b l2] Hlen;
    cbn [first_difference]; try discriminate.
  - tauto.
  - injection Hlen as Hlen. destruct (text_eqb a b) eqn:E; cbn [negb].
    + apply text_eqb_eq in E as ->. rewrite (IH _ Hlen).
      split; congruence.
    + apply text_eqb_neq in E. split; [discriminate | congruence].
Qed.

(** C4, the counterexample: the values [%d %s] and [%s %d] have their
    specifiers in different orders, and the validator reports nothing. *)
Lemma reordered_specifiers_pass :
  finditer format_specifier_pattern (T "%d %s") = [T "%d"; T "%s"]
  /\ finditer format_specifier_pattern (T "%s %d") = [T "%s"; T "%d"]
  /\ check_format_specifiers (T "%d %s") (T "%s %d") (T "msg") = None.
Proof. vm_compute. repeat split. Qed.

(** C4, amended: the validator compares the sorted lists of the
    specifiers of the two values.  It reports an error, which carries both
    sorted lists, exactly when they differ in length or at some position;
    values with the same specifiers in another order pass. *)
Theorem format_specifier_parity (source_value target_value key : text) :
  (check_format_specifiers source_value target_value key = None
   <-> sorted (finditer format_specifier_pattern source_value)
       = sorted (finditer format_specifier_pattern target_value))
  /\ (forall i,
        check_format_specifiers source_value target_value key = Some i ->
        issue_key i = key
        /\ issue_source i = extract_format_specifiers source_value
        /\ issue_target i = extract_format_specifiers target_value
        /\ (issue_kind i = Count
            <-> length (issue_source i) <> length (issue_target i))
        /\ (issue_kind i = Mismatch
            <-> length (issue_source i) = length (issue_target i)))
  /\ (Permutation
        (finditer format_specifier_pattern source_value)
        (finditer format_specifier_pattern target_value) ->
      check_format_specifiers source_value target_value key = None).
Proof.
  assert (Hiff :
    check_format_specifiers source_value target_value key = None
    <-> extract_format_specifiers source_value
        = extract_format_specifiers target_value).
  { unfold check_format_specifiers.
    destruct (length (extract_format_specifiers source_value)
              =? length (extract_format_specifiers target_value)) eqn:El;
      cbn [negb].
    - apply Nat.eqb_eq in El.
      destruct (first_difference _ _) eqn:Ed.
      + split; [discriminate|]. intros E.
        apply (first_difference_false _ _ El) in E. congruence.
      + split; [|reflexivity]. intros _.
        now apply (first_difference_false _ _ El).
    - apply Nat.eqb_neq in El. split; [discriminate | congruence]. }
  split; [exact Hiff|]. split.
  - intros i. unfold check_format_specifiers.
    destruct (length (extract_format_specifiers source_value)
              =? length (extract_format_specifiers target_value)) eqn:El;
      cbn [negb].
    + apply Nat.eqb_eq in El.
      destruct (first_difference _ _); [|discriminate].
      intros [= <-].
      cbn [issue_key issue_kind issue_source issue_target].
      repeat split; easy.
    + apply Nat.eqb_neq in El.
      intros [= <-].
      cbn [issue_key issue_kind issue_source issue_target].
      repeat split; easy.
  - intros Hperm. apply Hiff. unfold extract_format_specifiers.
    now apply sorted_permutation.
Qed.

(** ** Exit codes *)

(** C5, at the failing input: the source file is found and has no
    dialect marker.  The sync command exits with status 1; the check and
    validate commands go on, compare the target and exit with status 0; the
    status and report commands go on and return with a line for the
    target. *)
Theorem undetected_dialect_is_not_fatal
  (is_format_only_string is_cognate_or_international_term : text -> bool) :
  let run := main is_format_only_string is_cognate_or_international_term in
  auto_detect_file_prefix unmarked_dir = Some Lang
  /\ auto_detect_xml_format (T "<l10n></l10n>") = None
  /\ fst (run Sync unmarked_dir) = Exit 1
  /\ fst (run Check unmarked_dir) = Exit 0
  /\ fst (run Validate unmarked_dir) = Exit 0
  /\ fst (run Status unmarked_dir) = Returned
  /\ fst (run Report unmarked_dir) = Returned
  /\ length (snd (show_status is_format_only_string
                    is_cognate_or_international_term unmarked_dir)) = 1.
Proof. vm_compute. repeat split. Qed.

Lemma exists_file_get (name : text) (d : dir) :
  exists_file name d = dict_mem name d.
Proof.
  unfold exists_file, dict_mem. induction d as [|[n c] d IH];
    cbn [existsb dict_get fst]; [reflexivity|].
  destruct (text_eqb name n); [reflexivity | exact IH].
Qed.

Lemma read_file_Ok (name : text) (d : dir) :
  exists_file name d = true <-> exists content, read_file name d = Ok content.
Proof.
  rewrite exists_file_get. unfold dict_mem, read_file.
  destruct (dict_get name d) as [c|].
  - split; [now exists c | reflexivity].
  - split; [discriminate | now intros [c H]].
Qed.


Lemma count_In (k : text) (l : list text) : 0 < count k l <-> In k l.
Proof.
  split; [|apply count_pos].
  intros H. destruct (mem k l) eqn:E; [now apply mem_In|].
  apply mem_false in E. rewrite (count_zero _ _ E) in H. lia.
Qed.



Section ExitCodes.

Variable is_format_only_string : text -> bool.
Variable is_cognate_or_international_term : text -> bool.

Let classes := keys_of_class is_format_only_string
                 is_cognate_or_international_term.




End ExitCodes.



(** ** Moving a matcher over a text *)

Section Scanning.

Variable A : Type.
Variable m : matcher A.
Hypothesis m_shorter : shorter m.

Lemma finditer_from_enough (n1 n2 : nat) (s : text) :
  length s < n1 -> length s < n2 ->
  finditer_from m n1 s = finditer_from m n2 s.
Proof.
  revert n2 s; induction n1 as [|n1 IH]; intros [|n2] s H1 H2; try lia.
  cbn [finditer_from]. destruct (m s) as [[a rest]|] eqn:E.
  - apply m_shorter in E. f_equal. apply IH; lia.
  - destruct s as [|c s]; [reflexivity|]. cbn [length] in *.
    apply IH; lia.
Qed.

Lemma finditer_hit (s rest : text) (a : A) :
  m s = Some (a, rest) -> finditer m s = a :: finditer m rest.
Proof.
  intros E. unfold finditer at 1. cbn [finditer_from]. rewrite E. f_equal.
  apply m_shorter in E. unfold finditer. apply finditer_from_enough; lia.
Qed.

Lemma finditer_miss (c : ascii) (s : text) :
  m (c :: s) = None -> finditer m (c :: s) = finditer m s.
Proof.
  intros E. unfold finditer at 1. cbn [finditer_from]. rewrite E.
  unfold finditer. apply finditer_from_enough; cbn [length]; lia.
Qed.

Lemma finditer_nil : finditer m [] = [].
Proof.
  unfold finditer. cbn [finditer_from length].
  destruct (m []) as [[a rest]|] eqn:E; [|reflexivity].
  apply m_shorter in E. cbn [length] in E. lia.
Qed.

Lemma finditer_dead (x rest : text) :
  dead m x rest -> finditer m (x ++ rest) = finditer m rest.
Proof.
  induction x as [|c x IH]; intros Hd; [reflexivity|].
  cbn [app]. rewrite finditer_miss.
  - apply IH. intros s1 s2 -> Hs. apply (Hd (c :: s1) s2); trivial.
  - apply (Hd [] (c :: x)); [reflexivity | discriminate].
Qed.

Lemma search_hit (s rest : text) (a : A) :
  m s = Some (a, rest) -> search m s = Some (a, length s - length rest).
Proof. intros E. destruct s; cbn [search]; now rewrite E. Qed.

Lemma search_dead (x rest : text) :
  dead m x rest -> search m (x ++ rest) = shift (length x) (search m rest).
Proof.
  induction x as [|c x IH]; intros Hd.
  - cbn [app length shift]. now destruct (search m rest) as [[a e]|].
  - assert (E : m (c :: x ++ rest) = None)
      by (apply (Hd [] (c :: x)); [reflexivity | discriminate]).
    cbn [app search]. rewrite E.
    rewrite IH by (intros s1 s2 -> Hs; apply (Hd (c :: s1) s2); trivial).
    now destruct (search m rest) as [[a e]|].
Qed.

End Scanning.

Section Substituting.

Variable m : matcher text.
Hypothesis m_shorter : shorter m.

Lemma sub_from_enough (n1 n2 : nat) (s : text) :
  length s < n1 -> length s < n2 -> sub_from m n1 s = sub_from m n2 s.
Proof.
  revert n2 s; induction n1 as [|n1 IH]; intros [|n2] s H1 H2; try lia.
  cbn [sub_from]. destruct (m s) as [[a rest]|] eqn:E.
  - apply m_shorter in E. f_equal. apply IH; lia.
  - destruct s as [|c s]; [reflexivity|]. cbn [length] in *.
    f_equal. apply IH; lia.
Qed.

Lemma sub_hit (s rest r : text) :
  m s = Some (r, rest) -> sub m s = r ++ sub m rest.
Proof.
  intros E. unfold sub at 1. cbn [sub_from]. rewrite E. f_equal.
  apply m_shorter in E. unfold sub. apply sub_from_enough; lia.
Qed.

Lemma sub_miss (c : ascii) (s : text) :
  m (c :: s) = None -> sub m (c :: s) = c :: sub m s.
Proof.
  intros E. unfold sub at 1. cbn [sub_from]. now rewrite E.
Qed.

Lemma sub_nil : sub m [] = [].
Proof.
  unfold sub. cbn [sub_from length].
  destruct (m []) as [[a rest]|] eqn:E; [|reflexivity].
  apply m_shorter in E. cbn [length] in E. lia.
Qed.

Lemma sub_dead (x rest : text) :
  dead m x rest -> sub m (x ++ rest) = x ++ sub m rest.
Proof.
  induction x as [|c x IH]; intros Hd; [reflexivity|].
  cbn [app]. rewrite sub_miss.
  - f_equal. apply IH. intros s1 s2 -> Hs.
    apply (Hd (c :: s1) s2); trivial.
  - apply (Hd [] (c :: x)); [reflexivity | discriminate].
Qed.

End Substituting.

(** ** The patterns *)

Lemma free_In (c : ascii) (s : text) : free c s = true <-> ~ In c s.
Proof.
  unfold free. rewrite forallb_forall. unfold not_char. split.
  - intros H Hin. specialize (H c Hin). now rewrite Ascii.eqb_refl in H.
  - intros H x Hx. apply negb_true_iff. apply Ascii.eqb_neq.
    intros <-. contradiction.
Qed.

Lemma free_app (c : ascii) (s t : text) :
  free c (s ++ t) = free c s && free c t.
Proof. unfold free. apply forallb_app. Qed.

Lemma free_cons (c a : ascii) (s : text) :
  free c (a :: s) = negb (Ascii.eqb c a) && free c s.
Proof. reflexivity. Qed.

Lemma span_app_stop (f : ascii -> bool) (x : text) (c : ascii) (r : text) :
  forallb f x = true -> f c = false -> span f (x ++ c :: r) = (x, c :: r).
Proof.
  intros Hx Hc. induction x as [|a x IH]; cbn [app span].
  - now rewrite Hc.
  - cbn [forallb] in Hx. apply andb_true_iff in Hx as [Ha Hx].
    now rewrite Ha, (IH Hx).
Qed.

Lemma span_all (f : ascii -> bool) (x : text) :
  forallb f x = true -> span f x = (x, []).
Proof.
  intros Hx. induction x as [|a x IH]; cbn [span]; [reflexivity|].
  cbn [forallb] in Hx. apply andb_true_iff in Hx as [Ha Hx].
  now rewrite Ha, (IH Hx).
Qed.

Lemma span_spec (f : ascii -> bool) (s : text) :
  s = fst (span f s) ++ snd (span f s)
  /\ forallb f (fst (span f s)) = true.
Proof.
  induction s as [|a s [IH1 IH2]]; cbn [span]; [now split|].
  destruct (f a) eqn:E; [|now split].
  destruct (span f s) as [x y]. cbn [fst snd app forallb] in *.
  split; [now rewrite IH1 at 1 | now rewrite E, IH2].
Qed.

Lemma span_length (f : ascii -> bool) (s : text) :
  length (snd (span f s)) <= length s.
Proof.
  destruct (span_spec f s) as [H _]. rewrite H at 2.
  rewrite length_app. lia.
Qed.

Lemma strip_prefix_length (p s r : text) :
  strip_prefix p s = Some r -> length s = length p + length r.
Proof.
  intros H. apply strip_prefix_Some in H as ->. apply length_app.
Qed.

Lemma match_close_length (s r : text) :
  match_close s = Some r -> length r < length s.
Proof.
  unfold match_close. intros H. apply strip_prefix_length in H.
  pose proof (span_length is_space s).
  change (length (T "/>")) with 2 in H. lia.
Qed.

Lemma give_back_Some (A : Type) (k : text -> text -> option A) (n : nat)
  (run rest : text) (x : A) :
  give_back k n run rest = Some x ->
  exists n', k (firstn n' run) (skipn n' run ++ rest) = Some x.
Proof.
  induction n as [|n IH]; cbn [give_back].
  - destruct (k (firstn 0 run) (skipn 0 run ++ rest)) eqn:E;
      [|discriminate]. intros [= <-]. now exists 0.
  - destruct (k (firstn (S n) run) (skipn (S n) run ++ rest)) eqn:E.
    + intros [= <-]. now exists (S n).
    + exact IH.
Qed.

Lemma match_attrs_close_length (s attrs r : text) :
  match_attrs_close s = Some (attrs, r) -> length r < length s.
Proof.
  unfold match_attrs_close.
  destruct (span_spec (not_char ">"%char) s) as [Hs _].
  destruct (span (not_char ">"%char) s) as [run rest]. cbn [fst snd] in Hs.
  intros H. apply give_back_Some in H as [n H].
  destruct (match_close (skipn n run ++ rest)) as [r'|] eqn:E;
    [|discriminate].
  injection H as _ <-. apply match_close_length in E.
  rewrite Hs, length_app. rewrite length_app, length_skipn in E. lia.
Qed.

Lemma match_value_length (lit s v r : text) :
  match_value lit s = Some (v, r) -> length r < length s.
Proof.
  unfold match_value.
  destruct (strip_prefix lit s) as [s1|] eqn:E1; [|discriminate].
  pose proof (span_length (not_char dq) s1) as Hl.
  destruct (span (not_char dq) s1) as [v' s2]. cbn [snd] in Hl.
  destruct (strip_prefix [dq] s2) as [s3|] eqn:E2; [|discriminate].
  intros [= _ <-]. apply strip_prefix_length in E1, E2.
  cbn [length] in E2. lia.
Qed.

Lemma match_key_value_length (open mid s k v r : text) :
  match_key_value open mid s = Some (k, v, r) -> length r < length s.
Proof.
  unfold match_key_value.
  destruct (strip_prefix open s) as [s1|] eqn:E1; [|discriminate].
  pose proof (span_length (not_char dq) s1) as Hl1.
  destruct (span (not_char dq) s1) as [k' s2]. cbn [snd] in Hl1.
  destruct k' as [|c k']; [discriminate|].
  destruct (strip_prefix mid s2) as [s3|] eqn:E2; [|discriminate].
  pose proof (span_length (not_char dq) s3) as Hl2.
  destruct (span (not_char dq) s3) as [v' s4]. cbn [snd] in Hl2.
  destruct (strip_prefix [dq] s4) as [s5|] eqn:E3; [|discriminate].
  intros [= _ _ <-]. apply strip_prefix_length in E1, E2, E3.
  cbn [length] in E3. lia.
Qed.

Lemma elements_pattern_shorter : shorter elements_pattern.
Proof.
  intros s a rest. unfold elements_pattern.
  destruct (match_key_value _ _ s) as [[[k v] s1]|] eqn:E1; [|discriminate].
  destruct (match_attrs_close s1) as [[attrs r]|] eqn:E2; [|discriminate].
  intros [= _ <-]. apply match_key_value_length in E1.
  apply match_attrs_close_length in E2. lia.
Qed.

Lemma key_elements_pattern_shorter (key : text) :
  shorter (key_elements_pattern key).
Proof.
  intros s a rest. unfold key_elements_pattern.
  destruct (match_value _ s) as [[v s1]|] eqn:E1; [|discriminate].
  destruct (match_attrs_close s1) as [[attrs r]|] eqn:E2; [|discriminate].
  intros [= _ <-]. apply match_value_length in E1.
  apply match_attrs_close_length in E2. lia.
Qed.

Lemma replacer_shorter (k sh : text) : shorter (replacer k sh).
Proof.
  intros s a rest. unfold replacer.
  destruct (key_elements_pattern k s) as [[[v attrs] r]|] eqn:E;
    [|discriminate].
  intros [= _ <-]. now apply key_elements_pattern_shorter in E.
Qed.

Lemma strip_eh_pattern_shorter : shorter strip_eh_pattern.
Proof.
  intros s a rest. unfold strip_eh_pattern, eh_pattern.
  pose proof (span_length is_space s) as Hl.
  destruct (match_value _ (snd (span is_space s))) as [[v r]|] eqn:E;
    [|discriminate].
  intros [= _ <-]. apply match_value_length in E. lia.
Qed.

Lemma eh_pattern_shorter : shorter eh_pattern.
Proof. intros s a rest. apply match_value_length. Qed.

Lemma strip_prefix_app_both (p x s : text) :
  strip_prefix (p ++ x) (p ++ s) = strip_prefix x s.
Proof.
  induction p as [|a p IH]; cbn [app strip_prefix]; [reflexivity|].
  now rewrite Ascii.eqb_refl.
Qed.

Lemma strip_prefix_app_None (p x s : text) :
  strip_prefix p s = None -> strip_prefix (p ++ x) s = None.
Proof.
  revert s; induction p as [|a p IH]; intros s; cbn [app strip_prefix];
    [discriminate|].
  destruct s as [|b s]; [reflexivity|].
  destruct (Ascii.eqb a b); [apply IH | reflexivity].
Qed.

Lemma strip_prefix_app_split (p x s : text) :
  strip_prefix (p ++ x) s
  = match strip_prefix p s with
    | Some s' => strip_prefix x s'
    | None => None
    end.
Proof.
  destruct (strip_prefix p s) as [s'|] eqn:E.
  - apply strip_prefix_Some in E as ->. apply strip_prefix_app_both.
  - now apply strip_prefix_app_None.
Qed.

(** Two texts without [c] that are both followed by [c] are the same. *)
Lemma until_unique (c : ascii) (x y a b : text) :
  free c x = true -> free c y = true ->
  x ++ c :: a = y ++ c :: b -> x = y /\ a = b.
Proof.
  revert y; induction x as [|x0 x IH]; intros [|y0 y] Hx Hy;
    cbn [app]; intros E.
  - now injection E as ->.
  - injection E as <- _. rewrite free_cons, Ascii.eqb_refl in Hy.
    discriminate.
  - injection E as -> _. rewrite free_cons, Ascii.eqb_refl in Hx.
    discriminate.
  - injection E as -> E. rewrite free_cons in Hx, Hy.
    apply andb_true_iff in Hx as [_ Hx], Hy as [_ Hy].
    destruct (IH y Hx Hy E) as [-> ->]. now split.
Qed.

Lemma match_attrs_close_exact (attrs rest : text) :
  free ">"%char attrs = true ->
  match_attrs_close (attrs ++ T "/>" ++ rest) = Some (attrs, rest).
Proof.
  intros Hf. unfold match_attrs_close.
  change (attrs ++ T "/>" ++ rest)
    with (attrs ++ "/"%char :: ">"%char :: rest).
  replace (attrs ++ "/"%char :: ">"%char :: rest)
    with ((attrs ++ ["/"%char]) ++ ">"%char :: rest)
    by now rewrite <- app_assoc.
  rewrite span_app_stop.
  2:{ fold (free ">"%char (attrs ++ ["/"%char])). rewrite free_app, Hf.
      reflexivity. }
  2:{ reflexivity. }
  rewrite length_app. cbn [length]. rewrite Nat.add_1_r.
  cbn [give_back].
  replace (firstn (S (length attrs)) (attrs ++ ["/"%char]))
    with (attrs ++ ["/"%char])
    by (symmetry; apply firstn_all2; rewrite length_app; cbn; lia).
  replace (skipn (S (length attrs)) (attrs ++ ["/"%char])) with (@nil ascii)
    by (symmetry; apply skipn_all2; rewrite length_app; cbn; lia).
  cbn [app]. unfold match_close at 1. cbn [span is_space].
  change (is_space ">"%char) with false. cbv iota. cbn [snd strip_prefix T].
  change (strip_prefix (list_ascii_of_string "/>") (">"%char :: rest))
    with (@None text).
  cbv iota.
  destruct (length attrs) as [|n] eqn:El.
  - destruct attrs; [|discriminate]. reflexivity.
  - cbn [give_back]. rewrite <- El.
    rewrite firstn_app, Nat.sub_diag, firstn_all, app_nil_r.
    rewrite skipn_app, Nat.sub_diag, skipn_all. reflexivity.
Qed.

Lemma wf_elem_spec (f : xml_format) (e : elem) :
  wf_elem f e = true ->
  e_key e <> [] /\ free dq (e_key e) = true /\ free "<"%char (e_key e) = true
  /\ free dq (e_value e) = true /\ free "<"%char (e_value e) = true
  /\ free ">"%char (e_attrs e) = true /\ free "<"%char (e_attrs e) = true.
Proof.
  unfold wf_elem. rewrite !andb_true_iff.
  intros [[[[[[[H1 H2] H3] H4] H5] H6] H7] _]. repeat split; try assumption.
  intros E. now rewrite E in H1.
Qed.

Lemma wf_elem_space (e : elem) :
  wf_elem Texts e = true -> forallb is_space (e_attrs e) = true.
Proof. unfold wf_elem. rewrite !andb_true_iff. now intros [_ H]. Qed.

Lemma match_value_exact (lit v r : text) :
  free dq v = true ->
  match_value lit (lit ++ v ++ dq :: r) = Some (v, r).
Proof.
  intros Hv. unfold match_value. rewrite strip_prefix_app.
  rewrite span_app_stop;
    [| exact Hv | unfold not_char; now rewrite Ascii.eqb_refl].
  cbn [strip_prefix]. now rewrite Ascii.eqb_refl.
Qed.

Lemma match_key_value_exact (open mid' k v r : text) :
  k <> [] -> free dq k = true -> free dq v = true ->
  match_key_value open (dq :: mid')
    (open ++ k ++ (dq :: mid') ++ v ++ dq :: r)
  = Some (k, v, r).
Proof.
  intros Hk Hfk Hfv. unfold match_key_value. rewrite strip_prefix_app.
  cbn [app]. rewrite span_app_stop;
    [| exact Hfk | unfold not_char; now rewrite Ascii.eqb_refl].
  destruct k as [|c k]; [contradiction|].
  change (dq :: mid' ++ v ++ dq :: r) with ((dq :: mid') ++ v ++ dq :: r).
  rewrite strip_prefix_app.
  rewrite span_app_stop;
    [| exact Hfv | unfold not_char; now rewrite Ascii.eqb_refl].
  cbn [strip_prefix]. now rewrite Ascii.eqb_refl.
Qed.

Lemma match_close_exact (ws rest : text) :
  forallb is_space ws = true ->
  match_close (ws ++ T "/>" ++ rest) = Some rest.
Proof.
  intros Hws. unfold match_close.
  change (ws ++ T "/>" ++ rest) with (ws ++ "/"%char :: ">"%char :: rest).
  rewrite span_app_stop; [| exact Hws | reflexivity].
  reflexivity.
Qed.

Lemma render_elem_eq (f : xml_format) (e : elem) (rest : text) :
  render_elem f e ++ rest
  = entry_open f ++ e_key e ++ entry_mid f ++ e_value e
      ++ dq :: (e_attrs e ++ T "/>" ++ rest).
Proof. unfold render_elem. now rewrite <- !app_assoc. Qed.

(** The pattern of the parser matches a rendered entry, all of it. *)
Lemma elements_pattern_exact (e : elem) (rest : text) :
  wf_elem Elements e = true ->
  elements_pattern (render_elem Elements e ++ rest)
  = Some ((e_key e, e_value e, e_attrs e), rest).
Proof.
  intros Hwf. apply wf_elem_spec in Hwf as (Hk & Hfk & _ & Hfv & _ & Ha & _).
  unfold elements_pattern. rewrite render_elem_eq.
  change (entry_open Elements) with (Q "<e k='").
  change (entry_mid Elements) with (Q "' v='").
  change (Q "' v='") with (dq :: Q " v='").
  rewrite match_key_value_exact by assumption.
  now rewrite match_attrs_close_exact.
Qed.

Lemma texts_pattern_exact (e : elem) (rest : text) :
  wf_elem Texts e = true ->
  texts_pattern (render_elem Texts e ++ rest)
  = Some ((e_key e, e_value e, []), rest).
Proof.
  intros Hwf. pose proof (wf_elem_space _ Hwf) as Hs.
  apply wf_elem_spec in Hwf as (Hk & Hfk & _ & Hfv & _ & Ha & _).
  unfold texts_pattern. rewrite render_elem_eq.
  change (entry_open Texts) with (Q "<text name='").
  change (entry_mid Texts) with (Q "' text='").
  change (Q "' text='") with (dq :: Q " text='").
  rewrite match_key_value_exact by assumption.
  now rewrite match_close_exact.
Qed.

Lemma entry_pattern_exact (f : xml_format) (e : elem) (rest : text) :
  wf_elem f e = true ->
  entry_pattern (Some f) (render_elem f e ++ rest)
  = Some (occ_of_elem f e, rest).
Proof.
  destruct f; intros Hwf.
  - now apply elements_pattern_exact.
  - now apply texts_pattern_exact.
Qed.

(** The pattern of a key matches a rendered entry when the entry has the
    key, and only then. *)
Lemma key_literal_exact (f : xml_format) (k : text) (e : elem)
  (rest : text) :
  wf_elem f e = true -> free dq k = true ->
  match_value (entry_open f ++ k ++ entry_mid f) (render_elem f e ++ rest)
  = if text_eqb (e_key e) k
    then Some (e_value e, e_attrs e ++ T "/>" ++ rest) else None.
Proof.
  intros Hwf Hk.
  apply wf_elem_spec in Hwf as (_ & Hfk & _ & Hfv & _ & Ha & _).
  rewrite render_elem_eq.
  destruct (text_eqb (e_key e) k) eqn:E.
  - apply text_eqb_eq in E as <-.
    replace (entry_open f ++ e_key e ++ entry_mid f ++ e_value e
             ++ dq :: e_attrs e ++ T "/>" ++ rest)
      with ((entry_open f ++ e_key e ++ entry_mid f) ++ e_value e
            ++ dq :: e_attrs e ++ T "/>" ++ rest)
      by now rewrite <- !app_assoc.
    now rewrite match_value_exact.
  - apply text_eqb_neq in E. unfold match_value.
    rewrite strip_prefix_app_both.
    destruct (strip_prefix _ _) as [s1|] eqn:Es; [|reflexivity].
    exfalso. apply strip_prefix_Some in Es.
    assert (Em : exists m, entry_mid f = dq :: m)
      by (destruct f; eexists; reflexivity).
    destruct Em as (m & Em). rewrite Em in Es.
    rewrite <- !app_assoc in Es. cbn [app] in Es.
    apply until_unique in Es as [Es _]; congruence.
Qed.

Lemma key_elements_pattern_exact (k : text) (e : elem) (rest : text) :
  wf_elem Elements e = true -> free dq k = true ->
  key_elements_pattern k (render_elem Elements e ++ rest)
  = if text_eqb (e_key e) k
    then Some ((e_value e, e_attrs e), rest) else None.
Proof.
  intros Hwf Hk. unfold key_elements_pattern.
  change (Q "<e k='" ++ k ++ Q "' v='")
    with (entry_open Elements ++ k ++ entry_mid Elements).
  rewrite (key_literal_exact Elements k e rest Hwf Hk).
  apply wf_elem_spec in Hwf as (_ & _ & _ & _ & _ & Ha & _).
  destruct (text_eqb (e_key e) k); [|reflexivity].
  now rewrite match_attrs_close_exact.
Qed.

Lemma key_texts_pattern_exact (k : text) (e : elem) (rest : text) :
  wf_elem Texts e = true -> free dq k = true ->
  key_texts_pattern k (render_elem Texts e ++ rest)
  = if text_eqb (e_key e) k then Some ((e_value e, []), rest) else None.
Proof.
  intros Hwf Hk. unfold key_texts_pattern.
  change (Q "<text name='" ++ k ++ Q "' text='")
    with (entry_open Texts ++ k ++ entry_mid Texts).
  rewrite (key_literal_exact Texts k e rest Hwf Hk).
  destruct (text_eqb (e_key e) k); [|reflexivity].
  now rewrite match_close_exact by now apply wf_elem_space.
Qed.

Lemma key_pattern_exact (f : xml_format) (k : text) (e : elem)
  (rest : text) :
  wf_elem f e = true -> free dq k = true ->
  key_pattern f k (render_elem f e ++ rest)
  = if text_eqb (e_key e) k
    then Some ((e_value e, snd (occ_of_elem f e)), rest) else None.
Proof.
  destruct f; intros Hwf Hk.
  - now apply key_elements_pattern_exact.
  - now apply key_texts_pattern_exact.
Qed.

Lemma elements_pattern_requires : requires_prefix elements_pattern (Q "<e k='").
Proof.
  intros s H. unfold elements_pattern, match_key_value. now rewrite H.
Qed.

Lemma texts_pattern_requires :
  requires_prefix texts_pattern (Q "<text name='").
Proof.
  intros s H. unfold texts_pattern, match_key_value. now rewrite H.
Qed.

Lemma entry_pattern_requires (f : xml_format) :
  requires_prefix (entry_pattern (Some f)) (entry_open f).
Proof.
  destruct f; [apply elements_pattern_requires | apply texts_pattern_requires].
Qed.

Lemma key_elements_pattern_requires (k : text) :
  requires_prefix (key_elements_pattern k) (Q "<e k='").
Proof.
  intros s H. unfold key_elements_pattern, match_value.
  now rewrite (@strip_prefix_app_None _ _ _ H).
Qed.

Lemma key_texts_pattern_requires (k : text) :
  requires_prefix (key_texts_pattern k) (Q "<text name='").
Proof.
  intros s H. unfold key_texts_pattern, match_value.
  now rewrite (@strip_prefix_app_None _ _ _ H).
Qed.

Lemma key_pattern_requires (f : xml_format) (k : text) :
  requires_prefix (key_pattern f k) (entry_open f).
Proof.
  destruct f;
    [apply key_elements_pattern_requires | apply key_texts_pattern_requires].
Qed.

Lemma replacer_requires (k sh : text) :
  requires_prefix (replacer k sh) (entry_open Elements).
Proof.
  intros s H. unfold replacer.
  now rewrite (@key_elements_pattern_requires k _ H).
Qed.

Lemma requires_dead (A : Type) (m : matcher A) (p x rest : text) :
  requires_prefix m p -> prefix_dead p x rest -> dead m x rest.
Proof. intros Hr Hd s1 s2 E Hs. apply Hr. now apply (Hd s1 s2). Qed.

Lemma texts_pattern_shorter : shorter texts_pattern.
Proof.
  intros s a rest. unfold texts_pattern.
  destruct (match_key_value _ _ s) as [[[k v] s1]|] eqn:E1; [|discriminate].
  destruct (match_close s1) as [r|] eqn:E2; [|discriminate].
  intros [= _ <-]. apply match_key_value_length in E1.
  apply match_close_length in E2. lia.
Qed.

Lemma key_texts_pattern_shorter (key : text) :
  shorter (key_texts_pattern key).
Proof.
  intros s a rest. unfold key_texts_pattern.
  destruct (match_value _ s) as [[v s1]|] eqn:E1; [|discriminate].
  destruct (match_close s1) as [r|] eqn:E2; [|discriminate].
  intros [= _ <-]. apply match_value_length in E1.
  apply match_close_length in E2. lia.
Qed.

Lemma entry_pattern_shorter (f : xml_format) :
  shorter (entry_pattern (Some f)).
Proof.
  destruct f; [apply elements_pattern_shorter | apply texts_pattern_shorter].
Qed.

Lemma key_pattern_shorter (f : xml_format) (key : text) :
  shorter (key_pattern f key).
Proof.
  destruct f;
    [apply key_elements_pattern_shorter | apply key_texts_pattern_shorter].
Qed.

Lemma search_entry_end_eq (f : xml_format) (k content : text) :
  search_entry_end (Some f) k content
  = option_map snd (search (key_pattern f k) content).
Proof. now destruct f. Qed.

Lemma closing_tag_eq (f : xml_format) :
  closing_tag (Some f) = "<"%char :: tag_tail f.
Proof. now destruct f. Qed.

Lemma open_tail_free (f : xml_format) : free "<"%char (open_tail f) = true.
Proof. now destruct f. Qed.

Lemma tag_tail_free (f : xml_format) : free "<"%char (tag_tail f) = true.
Proof. now destruct f. Qed.

Lemma entry_mid_free (f : xml_format) : free "<"%char (entry_mid f) = true.
Proof. now destruct f. Qed.

(** ** Where a literal can match *)

Lemma strip_prefix_app_short (p s rest x : text) :
  strip_prefix p (s ++ rest) = Some x ->
  (exists y, strip_prefix p s = Some y)
  \/ (exists q, q <> [] /\ p = s ++ q /\ rest = q ++ x).
Proof.
  revert p; induction s as [|a s IH]; intros p H.
  - destruct p as [|b p]; [left; now exists []|].
    right. exists (b :: p). split; [discriminate|]. split; [reflexivity|].
    now apply strip_prefix_Some in H.
  - destruct p as [|b p]; [left; now exists (a :: s)|].
    cbn [app strip_prefix] in H |- *.
    destruct (Ascii.eqb b a) eqn:E; [|discriminate].
    apply Ascii.eqb_eq in E as ->.
    destruct (IH p H) as [[y Hy]|(q & Hq & -> & ->)].
    + left. now exists y.
    + right. now exists q.
Qed.

Lemma strip_prefix_long (p y rest : text) :
  strip_prefix p y = None -> length p <= length y ->
  strip_prefix p (y ++ rest) = None.
Proof.
  intros H Hl. destruct (strip_prefix p (y ++ rest)) as [x|] eqn:E;
    [|reflexivity].
  apply strip_prefix_app_short in E as [[z Hz]|(q & Hq & -> & _)].
  - congruence.
  - rewrite length_app in Hl. destruct q; [contradiction|].
    cbn [length] in Hl. lia.
Qed.

Lemma startswith_false (s p : text) :
  startswith s p = false <-> strip_prefix p s = None.
Proof.
  unfold startswith. destruct (strip_prefix p s); split; congruence.
Qed.

Lemma str_find_None (p s : text) :
  str_find p s = None
  <-> forall s1 s2, s = s1 ++ s2 -> strip_prefix p s2 = None.
Proof.
  induction s as [|c s IH]; cbn [str_find].
  - destruct (startswith [] p) eqn:E.
    + split; [discriminate|]. intros H. specialize (H [] [] eq_refl).
      apply startswith_false in H. congruence.
    + split; [|reflexivity]. intros _ s1 s2 Hs.
      symmetry in Hs. apply app_eq_nil in Hs as [_ ->].
      now apply startswith_false.
  - destruct (startswith (c :: s) p) eqn:E.
    + split; [discriminate|]. intros H. specialize (H [] (c :: s) eq_refl).
      apply startswith_false in H. congruence.
    + apply startswith_false in E.
      destruct (str_find p s) as [n|] eqn:En; cbn [option_map].
      * split; [discriminate|]. intros H.
        assert (Some n = None); [|discriminate].
        apply IH. intros s1 s2 ->. now apply (H (c :: s1) s2).
      * split; [|reflexivity]. intros _ [|a s1] s2 Hs.
        -- cbn [app] in Hs. now subst s2.
        -- injection Hs as -> ->. now apply (proj1 IH eq_refl s1 s2).
Qed.

(** The first occurrence of a literal splits the text. *)
Lemma str_find_Some (p s : text) (n : nat) :
  str_find p s = Some n ->
  exists pre post,
    s = pre ++ p ++ post /\ length pre = n
    /\ prefix_dead p pre (p ++ post).
Proof.
  revert n; induction s as [|c s IH]; intros n; cbn [str_find].
  - destruct (strip_prefix p []) as [x|] eqn:E.
    + unfold startswith. rewrite E. intros [= <-].
      apply strip_prefix_Some in E. exists [], x. split; [exact E|].
      split; [reflexivity|]. intros s1 s2 Hs Hne.
      symmetry in Hs. now apply app_eq_nil in Hs as [_ ->].
    + unfold startswith. now rewrite E.
  - destruct (strip_prefix p (c :: s)) as [x|] eqn:E.
    + unfold startswith. rewrite E. intros [= <-].
      apply strip_prefix_Some in E. exists [], x. split; [exact E|].
      split; [reflexivity|]. intros s1 s2 Hs Hne.
      symmetry in Hs. now apply app_eq_nil in Hs as [_ ->].
    + unfold startswith. rewrite E.
      destruct (str_find p s) as [n'|]; [|discriminate].
      cbn [option_map]. intros [= <-].
      destruct (IH n' eq_refl) as (pre & post & -> & <- & Hd).
      exists (c :: pre), post. split; [reflexivity|].
      split; [reflexivity|]. intros [|a s1] s2 Hs Hne.
      * cbn [app] in Hs. subst s2. exact E.
      * injection Hs as -> ->. now apply (Hd s1 s2).
Qed.

Lemma str_find_dead (p x rest : text) :
  prefix_dead p x rest ->
  str_find p (x ++ rest) = option_map (Nat.add (length x)) (str_find p rest).
Proof.
  induction x as [|c x IH]; intros Hd.
  - cbn [app length]. now destruct (str_find p rest).
  - assert (E : strip_prefix p (c :: x ++ rest) = None)
      by (apply (Hd [] (c :: x)); [reflexivity | discriminate]).
    cbn [app str_find]. unfold startswith. rewrite E.
    rewrite IH by (intros s1 s2 -> Hs; apply (Hd (c :: s1) s2); trivial).
    now destruct (str_find p rest).
Qed.

Lemma str_find_here (p rest : text) : str_find p (p ++ rest) = Some 0.
Proof.
  destruct (p ++ rest) eqn:E; cbn [str_find]; rewrite <- E;
    now rewrite startswith_app.
Qed.

(** A text without [<] holds no occurrence of a literal that starts with
    [<]. *)
Lemma free_prefix_dead (p' x rest : text) :
  free "<"%char x = true -> prefix_dead ("<"%char :: p') x rest.
Proof.
  intros Hf s1 s2 -> Hne. rewrite free_app in Hf.
  apply andb_true_iff in Hf as [_ Hf].
  destruct s2 as [|c s2]; [contradiction|].
  rewrite free_cons in Hf. apply andb_true_iff in Hf as [Hc _].
  cbn [app strip_prefix]. apply negb_true_iff in Hc. now rewrite Hc.
Qed.

(** A text that holds no occurrence of a literal, followed by nothing or
    by [<], has no occurrence that reaches into what follows, when the
    literal has [<] as its first character only. *)
Lemma chunk_prefix_dead (p' c rest : text) :
  free "<"%char p' = true ->
  str_find ("<"%char :: p') c = None ->
  rest = [] \/ starts_lt rest = true ->
  prefix_dead ("<"%char :: p') c rest.
Proof.
  intros Hp Hc Hrest s1 s2 -> Hne.
  destruct (strip_prefix _ (s2 ++ rest)) as [x|] eqn:E; [|reflexivity].
  exfalso. apply strip_prefix_app_short in E as [[y Hy]|(q & Hq & Hpq & Hr)].
  - rewrite (proj1 (str_find_None _ _) Hc s1 s2 eq_refl) in Hy.
    discriminate.
  - destruct s2 as [|a s2]; [contradiction|]. injection Hpq as _ Hpq.
    destruct q as [|b q]; [contradiction|].
    assert (Hb : Ascii.eqb b "<"%char = false).
    { rewrite Hpq, free_app in Hp. apply andb_true_iff in Hp as [_ Hp].
      rewrite free_cons in Hp. apply andb_true_iff in Hp as [Hp _].
      apply negb_true_iff in Hp. now rewrite Ascii.eqb_sym. }
    subst rest. destruct Hrest as [Hr|Hr]; [discriminate|].
    cbn [app starts_lt] in Hr. congruence.
Qed.

(** *** Hashes are hexadecimal *)

Lemma hexdigit_hex (n : Z) : is_hex [MD5.hexdigit n] = true.
Proof.
  unfold MD5.hexdigit.
  assert (H : (0 <= n mod 16 < 16)%Z) by (apply Z.mod_pos_bound; lia).
  assert (Hn : Z.to_nat (n mod 16) < 16) by lia.
  destruct (Z.to_nat (n mod 16)) as [|[|[|[|[|[|[|[|[|[|[|[|[|[|[|[|k]]]]]]]]]]]]]]]];
    try reflexivity. lia.
Qed.

Lemma is_hex_app (s t : text) : is_hex (s ++ t) = is_hex s && is_hex t.
Proof. unfold is_hex. apply forallb_app. Qed.

Lemma get_hash_hex (s : text) : is_hex (get_hash s) = true.
Proof.
  unfold get_hash, MD5.hexdigest.
  assert (G : forall l, is_hex (flat_map MD5.hex_byte l) = true).
  { induction l as [|b l IH]; [reflexivity|].
    cbn [flat_map]. rewrite is_hex_app, IH. unfold MD5.hex_byte.
    change [MD5.hexdigit (b / 16); MD5.hexdigit b]
      with ([MD5.hexdigit (b / 16)] ++ [MD5.hexdigit b]).
    now rewrite is_hex_app, !hexdigit_hex. }
  assert (F : forall n l, is_hex l = true -> is_hex (firstn n l) = true).
  { induction n as [|n IH]; intros [|c l]; cbn [firstn]; trivial.
    unfold is_hex. cbn [forallb]. rewrite !andb_true_iff.
    intros [H1 H2]. split; [exact H1 | now apply IH]. }
  apply F, G.
Qed.

Lemma hex_free (c : ascii) (s : text) :
  existsb (Ascii.eqb c) (T "0123456789abcdef") = false ->
  is_hex s = true -> free c s = true.
Proof.
  intros Hc Hs. apply free_In. intros Hin.
  unfold is_hex in Hs. rewrite forallb_forall in Hs.
  specialize (Hs c Hin). congruence.
Qed.

Lemma get_hash_free_dq (s : text) : free dq (get_hash s) = true.
Proof. apply hex_free; [reflexivity | apply get_hash_hex]. Qed.

Lemma get_hash_free_lt (s : text) : free "<"%char (get_hash s) = true.
Proof. apply hex_free; [reflexivity | apply get_hash_hex]. Qed.

Lemma get_hash_free_gt (s : text) : free ">"%char (get_hash s) = true.
Proof. apply hex_free; [reflexivity | apply get_hash_hex]. Qed.

(** ** Well-formed files

    What follows holds for the elements dialect and for the texts
    dialect alike. *)

Section Dialect.

Variable f : xml_format.

Lemma render_elem_cons (e : elem) :
  render_elem f e
  = "<"%char :: (open_tail f ++ e_key e ++ entry_mid f ++ e_value e ++ [dq]
                 ++ e_attrs e ++ T "/>").
Proof. reflexivity. Qed.

Lemma render_elem_tail_free (e : elem) :
  wf_elem f e = true ->
  free "<"%char (open_tail f ++ e_key e ++ entry_mid f ++ e_value e ++ [dq]
                 ++ e_attrs e ++ T "/>") = true.
Proof.
  intros Hwf. apply wf_elem_spec in Hwf as (_ & _ & Hk & _ & Hv & _ & Ha).
  rewrite !free_app, open_tail_free, entry_mid_free, Hk, Hv, Ha.
  reflexivity.
Qed.

Lemma render_body_cons (e : elem) (c : text) (b : list (elem * text)) :
  render_body f ((e, c) :: b) = render_elem f e ++ c ++ render_body f b.
Proof. unfold render_body. cbn [flat_map fst snd]. now rewrite app_assoc. Qed.

Lemma render_body_app (b1 b2 : list (elem * text)) :
  render_body f (b1 ++ b2) = render_body f b1 ++ render_body f b2.
Proof. unfold render_body. apply flat_map_app. Qed.

Lemma render_body_starts (b : list (elem * text)) :
  render_body f b = [] \/ starts_lt (render_body f b) = true.
Proof.
  destruct b as [|[e c] b]; [now left|]. right.
  now rewrite render_body_cons, render_elem_cons.
Qed.

Lemma wf_body_cons (e : elem) (c : text) (b : list (elem * text)) :
  wf_body f ((e, c) :: b) = wf_elem f e && inert f c && wf_body f b.
Proof. reflexivity. Qed.

Lemma wf_body_app (b1 b2 : list (elem * text)) :
  wf_body f (b1 ++ b2) = wf_body f b1 && wf_body f b2.
Proof. unfold wf_body. apply forallb_app. Qed.

Lemma inert_spec (c : text) :
  inert f c = true <-> str_find (entry_open f) c = None.
Proof.
  unfold inert, contains.
  destruct (str_find _ c); cbn [negb]; split; easy.
Qed.

Section DeadParts.

Variable A : Type.
Variable m : matcher A.
Hypothesis m_requires : requires_prefix m (entry_open f).

(** No match starts in the text between entries. *)
Lemma chunk_dead (c rest : text) :
  inert f c = true -> rest = [] \/ starts_lt rest = true -> dead m c rest.
Proof.
  intros Hc Hrest. apply (requires_dead m_requires).
  apply (@chunk_prefix_dead (open_tail f));
    [apply open_tail_free | now apply inert_spec | exact Hrest].
Qed.

(** No match starts inside an entry, after its first character. *)
Lemma elem_dead (e : elem) (rest : text) :
  wf_elem f e = true -> m (render_elem f e ++ rest) = None ->
  dead m (render_elem f e) rest.
Proof.
  intros Hwf Hm [|a s1] s2 Hs Hne.
  - cbn [app] in Hs. now subst s2.
  - rewrite render_elem_cons in Hs. injection Hs as _ Hs.
    apply m_requires.
    apply (@free_prefix_dead (open_tail f) _ rest
             (render_elem_tail_free _ Hwf) s1 s2 Hs Hne).
Qed.

End DeadParts.

Lemma occurrences_body (b : list (elem * text)) :
  wf_body f b = true ->
  finditer (entry_pattern (Some f)) (render_body f b)
  = map (occ_of_elem f) (map fst b).
Proof.
  induction b as [|[e c] b IH]; intros Hwf.
  - apply finditer_nil, (entry_pattern_shorter f).
  - rewrite wf_body_cons in Hwf.
    apply andb_true_iff in Hwf as [Hwf Hb].
    apply andb_true_iff in Hwf as [He Hc].
    rewrite render_body_cons.
    rewrite (finditer_hit (entry_pattern_shorter f) _
               (entry_pattern_exact f _ _ He)).
    rewrite finditer_dead;
      [| apply (entry_pattern_shorter f)
       | apply (chunk_dead (entry_pattern_requires f));
         [exact Hc | apply render_body_starts]].
    cbn [map fst]. now rewrite IH.
Qed.

(** The occurrences the parser finds in a well-formed file are its
    entries. *)
Lemma occurrences_render (d : doc) :
  wf_doc f d = true ->
  occurrences (render f d) (Some f) = map (occ_of_elem f) (elems d).
Proof.
  unfold wf_doc. intros Hwf. apply andb_true_iff in Hwf as [Hh Hb].
  unfold occurrences, render. cbn [entry_pattern].
  rewrite finditer_dead;
    [| apply (entry_pattern_shorter f)
     | apply (chunk_dead (entry_pattern_requires f));
       [exact Hh | apply render_body_starts]].
  now apply occurrences_body.
Qed.

Lemma keys_render (d : doc) :
  wf_doc f d = true ->
  ordered_keys (parse_content (render f d) (Some f)) = keys d.
Proof.
  intros Hwf. rewrite parse_content_keys, (occurrences_render _ Hwf).
  unfold keys. rewrite !map_map. reflexivity.
Qed.

Lemma parse_fold_get (k : text) (l : list elem) (acc : parsed) :
  dict_get k (entries (fold_left parse_step (map (occ_of_elem f) l) acc))
  = match last_elem k l with
    | Some e => Some (entry_of_elem f e)
    | None => dict_get k (entries acc)
    end.
Proof.
  revert acc; induction l as [|e l IH]; intros acc;
    cbn [map fold_left last_elem]; [reflexivity|].
  rewrite IH. destruct (last_elem k l); [reflexivity|].
  rewrite parse_step_entries. cbn [occ_key occ_of_elem fst].
  destruct (text_eqb (e_key e) k) eqn:E.
  - apply text_eqb_eq in E as <-. apply dict_get_set_same.
  - apply text_eqb_neq in E. now apply dict_get_set_other.
Qed.

(** The entry the parser records for a key of a well-formed file is that
    of its last entry with the key. *)
Lemma entries_render (d : doc) (k : text) :
  wf_doc f d = true ->
  dict_get k (entries (parse_content (render f d) (Some f)))
  = option_map (entry_of_elem f) (last_elem k (elems d)).
Proof.
  intros Hwf. unfold parse_content.
  fold (occurrences (render f d) (Some f)).
  rewrite (occurrences_render _ Hwf), parse_fold_get.
  now destruct (last_elem k (elems d)).
Qed.


Lemma last_elem_None (k : text) (l : list elem) :
  last_elem k l = None <-> ~ In k (map e_key l).
Proof.
  induction l as [|a l IH]; cbn [last_elem map]; [tauto|].
  destruct (last_elem k l) as [x|].
  - split; [discriminate|]. intros H.
    assert (Hx : Some x = None)
      by (apply IH; intros Hin; apply H; now right).
    discriminate.
  - destruct (text_eqb (e_key a) k) eqn:E.
    + apply text_eqb_eq in E. split; [discriminate|]. intros H.
      exfalso. apply H. now left.
    + apply text_eqb_neq in E. split; [|reflexivity]. intros _ [H|H].
      * contradiction.
      * now apply (proj1 IH).
Qed.

Unset Implicit Arguments.

(** *** Searching a well-formed file *)

Lemma dead_app (A : Type) (m : matcher A) (x y rest : text) :
  dead m x (y ++ rest) -> dead m y rest -> dead m (x ++ y) rest.
Proof.
  intros Hx Hy s1 s2 E Hne. apply app_eq_app in E as [l [[E1 E2]|[E1 E2]]].
  - destruct l as [|a l].
    + cbn [app] in E2. subst s2. apply (Hy [] y); [reflexivity | exact Hne].
    + subst s2. rewrite <- app_assoc. apply (Hx s1 (a :: l)); [exact E1|].
      discriminate.
  - apply (Hy l s2); [exact E2 | exact Hne].
Qed.

Lemma prefix_dead_app (p x y rest : text) :
  prefix_dead p x (y ++ rest) -> prefix_dead p y rest ->
  prefix_dead p (x ++ y) rest.
Proof.
  intros Hx Hy s1 s2 E Hne. apply app_eq_app in E as [l [[E1 E2]|[E1 E2]]].
  - destruct l as [|a l].
    + cbn [app] in E2. subst s2. apply (Hy [] y); [reflexivity | exact Hne].
    + subst s2. rewrite <- app_assoc. apply (Hx s1 (a :: l)); [exact E1|].
      discriminate.
  - apply (Hy l s2); [exact E2 | exact Hne].
Qed.

Lemma starts_app (x rest : text) :
  x = [] \/ starts_lt x = true ->
  rest = [] \/ starts_lt rest = true ->
  x ++ rest = [] \/ starts_lt (x ++ rest) = true.
Proof.
  intros [->|Hx] Hr; [exact Hr|]. right.
  destruct x; [discriminate | exact Hx].
Qed.

(** No match of the pattern of a key starts in a body without the key. *)
Lemma body_dead_key (k : text) (b : list (elem * text)) (rest : text) :
  wf_body f b = true -> free dq k = true ->
  ~ In k (map e_key (map fst b)) ->
  rest = [] \/ starts_lt rest = true ->
  dead (key_pattern f k) (render_body f b) rest.
Proof.
  intros Hwf Hk Hnot Hrest. induction b as [|[e c] b IH].
  - intros s1 s2 E Hne. symmetry in E.
    apply app_eq_nil in E as [_ ->]. contradiction.
  - rewrite wf_body_cons in Hwf.
    apply andb_true_iff in Hwf as [Hwf Hb].
    apply andb_true_iff in Hwf as [He Hc].
    cbn [map fst] in Hnot. rewrite render_body_cons.
    apply dead_app; [|apply dead_app].
    + apply (elem_dead (key_pattern_requires f k)); [exact He|].
      rewrite (@key_pattern_exact f k e _ He Hk).
      destruct (text_eqb (e_key e) k) eqn:E; [|reflexivity].
      apply text_eqb_eq in E. exfalso. apply Hnot. now left.
    + apply (chunk_dead (key_pattern_requires f k)); [exact Hc|].
      apply starts_app; [apply render_body_starts | exact Hrest].
    + apply IH; [exact Hb|]. intros H. apply Hnot. now right.
Qed.

Lemma search_key_body (k : text) (b : list (elem * text)) :
  wf_body f b = true -> free dq k = true ->
  option_map snd (search (key_pattern f k) (render_body f b))
  = if mem k (map e_key (map fst b)) then Some (end_first f k b) else None.
Proof.
  intros Hwf Hk. induction b as [|[e c] b IH].
  - cbn [map fst mem existsb render_body flat_map search].
    now rewrite (key_pattern_requires f k [] eq_refl).
  - rewrite wf_body_cons in Hwf.
    apply andb_true_iff in Hwf as [Hwf Hb].
    apply andb_true_iff in Hwf as [He Hc].
    rewrite render_body_cons. cbn [map fst mem existsb end_first].
    pose proof (@key_pattern_exact f k e (c ++ render_body f b) He Hk)
      as Hm.
    rewrite (text_eqb_sym k (e_key e)).
    destruct (text_eqb (e_key e) k) eqn:E.
    + rewrite (@search_hit _ _ _ _ _ Hm). cbn [option_map snd orb].
      f_equal. rewrite length_app. lia.
    + cbn [orb]. rewrite search_dead
        by (apply (elem_dead (key_pattern_requires f k));
            assumption).
      rewrite search_dead
        by (apply (chunk_dead (key_pattern_requires f k));
            [exact Hc | apply render_body_starts]).
      fold (mem k (map e_key (map fst b))).
      specialize (IH Hb).
      destruct (search (key_pattern f k) (render_body f b))
        as [[a n]|]; cbn [shift option_map snd] in *.
      * destruct (mem k (map e_key (map fst b))); [|discriminate].
        injection IH as ->. f_equal. rewrite length_app. lia.
      * now destruct (mem k (map e_key (map fst b))).
Qed.

(** The search for the entry of a key in a well-formed file ends after
    the first entry with the key. *)
Lemma search_key_render (k : text) (d : doc) :
  wf_doc f d = true -> free dq k = true ->
  search_entry_end (Some f) k (render f d)
  = if mem k (keys d) then Some (length (head d) + end_first f k (body d))
    else None.
Proof.
  unfold wf_doc. intros Hwf Hk. apply andb_true_iff in Hwf as [Hh Hb].
  rewrite search_entry_end_eq. unfold render.
  rewrite search_dead
    by (apply (chunk_dead (key_pattern_requires f k));
        [exact Hh | apply render_body_starts]).
  pose proof (search_key_body k (body d) Hb Hk) as H.
  unfold keys, elems.
  destruct (search (key_pattern f k) (render_body f (body d)))
    as [[a n]|]; cbn [shift option_map snd] in *.
  - destruct (mem k (map e_key (map fst (body d)))); [|discriminate].
    now injection H as ->.
  - now destruct (mem k (map e_key (map fst (body d)))).
Qed.

(** *** Inserting into a well-formed file *)

Lemma insert_at_exact (a x s : text) :
  insert_at (length a) x (a ++ s) = a ++ x ++ s.
Proof.
  unfold insert_at.
  rewrite firstn_app, Nat.sub_diag, firstn_all, firstn_O, app_nil_r.
  rewrite skipn_app, Nat.sub_diag, skipn_all, skipn_O. reflexivity.
Qed.

Lemma insert_at_skip (a x s : text) (n : nat) :
  insert_at (length a + n) x (a ++ s) = a ++ insert_at n x s.
Proof.
  unfold insert_at.
  rewrite firstn_app, skipn_app.
  replace (length a + n - length a) with n by lia.
  rewrite firstn_all2 by lia. rewrite skipn_all2 by lia.
  now rewrite <- app_assoc.
Qed.

Lemma inert_nltt : inert f [nl; tab; tab] = true.
Proof. reflexivity. Qed.

Lemma insert_after_render (q : text) (new : elem) (b : list (elem * text)) :
  mem q (map e_key (map fst b)) = true ->
  insert_at (end_first f q b) ([nl; tab; tab] ++ render_elem f new)
    (render_body f b)
  = render_body f (insert_after q new b).
Proof.
  induction b as [|[e c] b IH]; [discriminate|].
  cbn [map fst mem existsb end_first insert_after].
  rewrite (text_eqb_sym q (e_key e)).
  destruct (text_eqb (e_key e) q); cbn [orb]; intros Hin.
  - rewrite !render_body_cons, insert_at_exact.
    now rewrite <- !app_assoc.
  - rewrite !render_body_cons, app_assoc, length_app.
    rewrite <- length_app, insert_at_skip, (IH Hin).
    now rewrite <- app_assoc.
Qed.

Lemma wf_insert_after (q : text) (new : elem) (b : list (elem * text)) :
  wf_elem f new = true -> wf_body f b = true ->
  wf_body f (insert_after q new b) = true.
Proof.
  intros Hn. induction b as [|[e c] b IH]; [trivial|].
  rewrite wf_body_cons. intros Hwf.
  apply andb_true_iff in Hwf as [Hwf Hb].
  apply andb_true_iff in Hwf as [He Hc].
  cbn [insert_after]. destruct (text_eqb (e_key e) q).
  - rewrite !wf_body_cons, He, Hn, Hc, Hb, inert_nltt. reflexivity.
  - rewrite wf_body_cons, He, Hc, (IH Hb). reflexivity.
Qed.

(** The entries after an insertion: the old ones and the new one. *)
Lemma insert_after_elems (q : text) (new : elem) (b : list (elem * text)) :
  mem q (map e_key (map fst b)) = true ->
  exists l1 l2,
    map fst b = l1 ++ l2
    /\ map fst (insert_after q new b) = l1 ++ new :: l2.
Proof.
  induction b as [|[e c] b IH]; [discriminate|].
  cbn [map fst mem existsb insert_after].
  rewrite (text_eqb_sym q (e_key e)).
  destruct (text_eqb (e_key e) q); cbn [orb]; intros Hin.
  - exists [e], (map fst b). split; reflexivity.
  - destruct (IH Hin) as (l1 & l2 & E1 & E2).
    exists (e :: l1), l2. cbn [map fst app]. now rewrite E1, E2.
Qed.

Lemma tagged_insert_after (q : text) (new : elem) (b : list (elem * text)) :
  tagged f (insert_after q new b) = tagged f b.
Proof.
  induction b as [|[e c] b IH]; [reflexivity|].
  cbn [insert_after]. destruct (text_eqb (e_key e) q).
  - unfold tagged. cbn [existsb snd].
    assert (Hn : contains (closing_tag (Some f)) [nl; tab; tab] = false)
      by now destruct f.
    now rewrite Hn.
  - unfold tagged in *. cbn [existsb snd]. now rewrite IH.
Qed.

Lemma str_find_app_hit (p c rest : text) (n : nat) :
  str_find p c = Some n -> str_find p (c ++ rest) = Some n.
Proof.
  intros H. apply str_find_Some in H as (pre & post & -> & <- & Hd).
  rewrite <- !app_assoc. rewrite str_find_dead.
  - rewrite str_find_here. cbn [option_map]. f_equal. lia.
  - intros s1 s2 E Hne. specialize (Hd s1 s2 E Hne).
    rewrite (app_assoc p post rest), app_assoc.
    apply strip_prefix_long; [exact Hd|].
    rewrite !length_app. lia.
Qed.

Lemma str_find_split (p c : text) (n : nat) :
  str_find p c = Some n ->
  exists pre post,
    c = pre ++ p ++ post /\ length pre = n
    /\ firstn n c = pre /\ skipn n c = p ++ post.
Proof.
  intros H. apply str_find_Some in H as (pre & post & -> & <- & _).
  exists pre, post.
  rewrite skipn_app, Nat.sub_diag, skipn_all, skipn_O.
  rewrite firstn_app, Nat.sub_diag, firstn_all, firstn_O, app_nil_r.
  now repeat split.
Qed.

(** The closing tag matches nowhere in an entry. *)
Lemma elem_tag_dead (e : elem) (rest : text) :
  wf_elem f e = true ->
  prefix_dead (closing_tag (Some f)) (render_elem f e) rest.
Proof.
  intros Hwf [|a s1] s2 E Hne.
  - cbn [app] in E. subst s2. now destruct f.
  - rewrite render_elem_cons in E. injection E as _ E.
    rewrite closing_tag_eq.
    apply (@free_prefix_dead (tag_tail f) _ rest
             (render_elem_tail_free _ Hwf) s1 s2 E Hne).
Qed.

Lemma chunk_tag_dead (c rest : text) :
  str_find (closing_tag (Some f)) c = None ->
  rest = [] \/ starts_lt rest = true ->
  prefix_dead (closing_tag (Some f)) c rest.
Proof.
  intros Hc Hrest. rewrite closing_tag_eq in *.
  apply (@chunk_prefix_dead (tag_tail f));
    [apply tag_tail_free | exact Hc | exact Hrest].
Qed.

Lemma str_find_tag_body (b : list (elem * text)) :
  wf_body f b = true ->
  str_find (closing_tag (Some f)) (render_body f b) = tag_pos f b.
Proof.
  induction b as [|[e c] b IH]; intros Hwf; [now destruct f|].
  rewrite wf_body_cons in Hwf.
  apply andb_true_iff in Hwf as [Hwf Hb].
  apply andb_true_iff in Hwf as [He Hc].
  rewrite render_body_cons. cbn [tag_pos].
  rewrite str_find_dead by now apply elem_tag_dead.
  destruct (str_find (closing_tag (Some f)) c) as [n|] eqn:E.
  - now rewrite (str_find_app_hit _ _ _ _ E).
  - rewrite str_find_dead
      by (apply chunk_tag_dead; [exact E | apply render_body_starts]).
    rewrite (IH Hb). destruct (tag_pos f b); cbn [option_map]; [|reflexivity].
    f_equal. rewrite length_app. lia.
Qed.

Lemma insert_at_tag_render (new : elem) (b : list (elem * text)) (n : nat) :
  tag_pos f b = Some n ->
  insert_at n ([nl; tab; tab] ++ render_elem f new) (render_body f b)
  = render_body f (insert_at_tag f new b).
Proof.
  revert n; induction b as [|[e c] b IH]; intros n; [discriminate|].
  cbn [tag_pos insert_at_tag].
  destruct (str_find (closing_tag (Some f)) c) as [i|] eqn:E.
  - intros H.
    assert (Hn : n = length (render_elem f e) + i) by congruence.
    apply str_find_split in E as (pre & post & Ec & El & E1 & E2).
    rewrite !render_body_cons, E1, E2. subst c i n.
    rewrite insert_at_skip, <- !app_assoc, insert_at_exact.
    reflexivity.
  - destruct (tag_pos f b) as [j|]; [|discriminate]. cbn [option_map].
    intros H.
    assert (Hn : n = length (render_elem f e ++ c) + j) by congruence.
    subst n. rewrite !render_body_cons, app_assoc.
    rewrite insert_at_skip, (IH j eq_refl). now rewrite <- app_assoc.
Qed.

Lemma inert_suffix (a b : text) : inert f (a ++ b) = true -> inert f b = true.
Proof.
  rewrite !inert_spec, !str_find_None. intros H s1 s2 ->.
  apply (H (a ++ s1) s2). now rewrite app_assoc.
Qed.

(** The text before a closing tag stays inert when a line break and two
    tabs follow it. *)
Lemma inert_before (pre post : text) :
  inert f (pre ++ post) = true -> inert f (pre ++ [nl; tab; tab]) = true.
Proof.
  rewrite !inert_spec, !str_find_None. intros H s1 s2 E.
  apply app_eq_app in E as [l [[E1 E2]|[E1 E2]]].
  - subst s2 pre.
    destruct (strip_prefix (entry_open f) (l ++ [nl; tab; tab])) as [x|] eqn:Ex;
      [|reflexivity].
    exfalso. apply strip_prefix_app_short in Ex as [[y Hy]|(q & Hq & Eq & Er)].
    + specialize (H s1 (l ++ post)). rewrite <- app_assoc in H.
      specialize (H eq_refl). apply strip_prefix_Some in Hy.
      rewrite Hy, <- app_assoc, strip_prefix_app in H. discriminate.
    + destruct q as [|c q]; [contradiction|]. injection Er as <- _.
      assert (Hin : In nl (entry_open f))
        by (rewrite Eq; apply in_or_app; right; now left).
      clear - Hin. destruct f; cbn in Hin;
        repeat (destruct Hin as [Hin|Hin]; [discriminate|]); exact Hin.
  - destruct l as [|a [|b [|c [|x l]]]]; cbn [app] in E2.
    + now subst s2.
    + injection E2 as _ <-. reflexivity.
    + injection E2 as _ _ <-. reflexivity.
    + injection E2 as _ _ _ <-. reflexivity.
    + discriminate.
Qed.

Lemma wf_insert_at_tag (new : elem) (b : list (elem * text)) :
  wf_elem f new = true -> wf_body f b = true ->
  wf_body f (insert_at_tag f new b) = true.
Proof.
  intros Hn. induction b as [|[e c] b IH]; [trivial|].
  rewrite wf_body_cons. intros Hwf.
  apply andb_true_iff in Hwf as [Hwf Hb].
  apply andb_true_iff in Hwf as [He Hc].
  cbn [insert_at_tag].
  destruct (str_find (closing_tag (Some f)) c) as [n|] eqn:E.
  - apply str_find_split in E as (pre & post & Ec & El & E1 & E2).
    rewrite E1, E2. rewrite !wf_body_cons, He, Hn, Hb.
    rewrite Ec in Hc.
    now rewrite (inert_before _ _ Hc), (inert_suffix _ _ Hc).
  - rewrite wf_body_cons, He, Hc, (IH Hb). reflexivity.
Qed.

Lemma tag_pos_tagged (b : list (elem * text)) :
  tag_pos f b = None <-> tagged f b = false.
Proof.
  unfold tagged. induction b as [|[e c] b IH]; cbn [tag_pos existsb snd].
  - tauto.
  - unfold contains. destruct (str_find (closing_tag (Some f)) c) as [n|].
    + split; discriminate.
    + cbn [orb]. rewrite <- IH. destruct (tag_pos f b); split; easy.
Qed.

Lemma insert_at_tag_elems (new : elem) (b : list (elem * text)) :
  tagged f b = true ->
  exists l1 l2,
    map fst b = l1 ++ l2
    /\ map fst (insert_at_tag f new b) = l1 ++ new :: l2.
Proof.
  unfold tagged. induction b as [|[e c] b IH]; [discriminate|].
  cbn [existsb snd insert_at_tag map fst]. unfold contains.
  destruct (str_find (closing_tag (Some f)) c) as [n|]; cbn [orb].
  - intros _. exists [e], (map fst b). split; reflexivity.
  - intros H. destruct (IH H) as (l1 & l2 & E1 & E2).
    exists (e :: l1), l2. cbn [map fst app]. now rewrite E1, E2.
Qed.

Lemma tagged_cons (e : elem) (c : text) (b : list (elem * text)) :
  tagged f ((e, c) :: b) = contains (closing_tag (Some f)) c || tagged f b.
Proof. reflexivity. Qed.

Lemma tagged_insert_at_tag (new : elem) (b : list (elem * text)) :
  tagged f (insert_at_tag f new b) = tagged f b.
Proof.
  induction b as [|[e c] b IH]; [reflexivity|].
  cbn [insert_at_tag].
  destruct (str_find (closing_tag (Some f)) c) as [n|] eqn:E.
  - rewrite !tagged_cons.
    assert (Hc : contains (closing_tag (Some f)) c = true)
      by (unfold contains; now rewrite E).
    apply str_find_split in E as (pre & post & _ & _ & _ & E2).
    assert (Hs : contains (closing_tag (Some f)) (skipn n c) = true)
      by (unfold contains; now rewrite E2, str_find_here).
    rewrite Hc, Hs. cbn [orb]. now rewrite orb_true_r.
  - rewrite !tagged_cons. now rewrite IH.
Qed.

(** *** The entry written for a missing key *)

Lemma free_replace_char (c old : ascii) (new s : text) :
  free c new = true -> free c s = true ->
  free c (replace_char old new s) = true.
Proof.
  intros Hn. unfold replace_char. induction s as [|a s IH]; [trivial|].
  rewrite free_cons. intros H. apply andb_true_iff in H as [Ha Hs].
  cbn [flat_map]. rewrite free_app, (IH Hs).
  destruct (Ascii.eqb a old); [now rewrite Hn|].
  now rewrite free_cons, Ha.
Qed.

Lemma free_replace_char_same (c : ascii) (new s : text) :
  free c new = true -> free c (replace_char c new s) = true.
Proof.
  intros Hn. unfold replace_char. induction s as [|a s IH]; [trivial|].
  cbn [flat_map]. rewrite free_app, IH.
  destruct (Ascii.eqb a c) eqn:E; [now rewrite Hn|].
  rewrite free_cons, Ascii.eqb_sym, E. reflexivity.
Qed.

Lemma escape_xml_free_dq (s : text) : free dq (escape_xml s) = true.
Proof. unfold escape_xml. now apply free_replace_char_same. Qed.

Lemma escape_xml_free_lt (s : text) : free "<"%char (escape_xml s) = true.
Proof.
  unfold escape_xml.
  apply free_replace_char; [reflexivity|].
  apply free_replace_char; [reflexivity|].
  now apply free_replace_char_same.
Qed.

Lemma wf_new_elem (k : text) (source_data : entry) :
  k <> [] -> free dq k = true -> free "<"%char k = true ->
  wf_elem f (new_elem f k source_data) = true.
Proof.
  intros Hk Hd Hl. unfold wf_elem, new_elem. cbn [e_key e_value e_attrs].
  rewrite Hd, Hl, escape_xml_free_dq, escape_xml_free_lt.
  destruct f.
  - rewrite !free_app, get_hash_free_gt, get_hash_free_lt. now destruct k.
  - now destruct k.
Qed.

Lemma placeholder_entry_render (k : text) (source_data : entry) :
  placeholder_entry (Some f) k source_data
  = [nl; tab; tab] ++ render_elem f (new_elem f k source_data).
Proof.
  destruct f; unfold placeholder_entry, format_entry, render_elem, new_elem;
    cbn [e_key e_value e_attrs]; rewrite <- ?app_assoc; reflexivity.
Qed.

Lemma escape_xml_app (s t : text) :
  escape_xml (s ++ t) = escape_xml s ++ escape_xml t.
Proof.
  unfold escape_xml, replace_char. now rewrite !flat_map_app.
Qed.

(** The value written for a missing key starts with the untranslated
    prefix. *)
Lemma new_elem_untranslated (k : text) (source_data : entry) :
  startswith (e_value (new_elem f k source_data)) (untranslatedPrefix CONFIG)
  = true.
Proof.
  unfold new_elem. cbn [e_value]. rewrite escape_xml_app.
  change (escape_xml (untranslatedPrefix CONFIG))
    with (untranslatedPrefix CONFIG).
  apply startswith_app.
Qed.

(** *** One pass of the loop that adds the missing keys *)

Lemma after_predecessor_render (d : doc) (ks preds : list text) :
  wf_doc f d = true ->
  (forall x, mem x ks = mem x (keys d)) ->
  (forall q, In q preds -> free dq q = true) ->
  after_predecessor (Some f) (render f d) ks preds
  = match List.find (fun q => mem q (keys d)) preds with
    | Some q => Some (length (head d) + end_first f q (body d))
    | None => None
    end.
Proof.
  intros Hwf Hks Hq. induction preds as [|q preds IH];
    cbn [after_predecessor List.find]; [reflexivity|].
  rewrite Hks.
  rewrite (search_key_render q d Hwf) by (apply Hq; now left).
  destruct (mem q (keys d)); [reflexivity|].
  apply IH. intros q' Hq'. apply Hq. now right.
Qed.

Lemma str_find_tag_render (d : doc) :
  wf_doc f d = true ->
  str_find (closing_tag (Some f)) (render f d)
  = match str_find (closing_tag (Some f)) (head d) with
    | Some n => Some n
    | None => option_map (Nat.add (length (head d))) (tag_pos f (body d))
    end.
Proof.
  unfold wf_doc. intros Hwf. apply andb_true_iff in Hwf as [Hh Hb].
  unfold render.
  destruct (str_find (closing_tag (Some f)) (head d)) as [n|] eqn:E.
  - now apply str_find_app_hit.
  - rewrite str_find_dead
      by (apply chunk_tag_dead; [exact E | apply render_body_starts]).
    now rewrite str_find_tag_body.
Qed.

Lemma In_predecessors (q k : text) (order : list text) :
  In q (predecessors k order) -> In q order.
Proof.
  unfold predecessors. rewrite <- in_rev. intros H.
  rewrite <- (firstn_skipn (index_of k order) order).
  apply in_or_app. now left.
Qed.

(** What one pass does to a well-formed file. *)
Lemma add_key_render (se : dict entry) (order : list text) (d : doc)
  (ks : list text) (n : nat) (k : text) (src : entry) :
  wf_doc f d = true ->
  (forall x, mem x ks = mem x (keys d)) ->
  (forall q, In q order -> free dq q = true) ->
  dict_get k se = Some src ->
  add_key (Some f) se order
    {| add_content := render f d; add_key_set := ks; added := n |} k
  = {| add_content :=
         render f (put f (place_of f order k d) (new_elem f k src) d);
       add_key_set := if placed (place_of f order k d) then k :: ks else ks;
       added := if placed (place_of f order k d) then S n else n |}.
Proof.
  intros Hwf Hks Hq Es. unfold add_key. rewrite Es.
  cbn [add_content add_key_set added].
  unfold insert_position.
  rewrite (after_predecessor_render d ks _ Hwf Hks)
    by (intros q Hin; apply Hq; now apply (In_predecessors q k)).
  unfold place_of.
  destruct (List.find _ (predecessors k order)) as [q|] eqn:Ef.
  - apply find_some in Ef as [_ Hm]. cbn [placed put].
    f_equal. rewrite placeholder_entry_render. unfold render at 1 2.
    cbn [head body]. rewrite insert_at_skip. f_equal.
    apply insert_after_render. exact Hm.
  - rewrite (str_find_tag_render d Hwf).
    destruct (str_find (closing_tag (Some f)) (head d)) as [i|] eqn:Eh.
    + cbn [placed put]. f_equal. rewrite placeholder_entry_render.
      apply str_find_split in Eh as (pre & post & Ec & El & E1 & E2).
      unfold render. cbn [head body]. rewrite E1, E2, render_body_cons.
      rewrite Ec at 1. subst i. rewrite <- !app_assoc.
      now rewrite insert_at_exact.
    + destruct (tagged f (body d)) eqn:Et.
      * destruct (tag_pos f (body d)) as [j|] eqn:Ep.
        -- cbn [option_map placed put]. f_equal.
           rewrite placeholder_entry_render. unfold render at 1 2.
           cbn [head body]. rewrite insert_at_skip. f_equal.
           now apply insert_at_tag_render.
        -- apply tag_pos_tagged in Ep. congruence.
      * apply tag_pos_tagged in Et. rewrite Et. cbn [option_map placed put].
        reflexivity.
Qed.

Lemma put_wf (order : list text) (k : text) (new : elem) (d : doc) :
  wf_doc f d = true -> wf_elem f new = true ->
  wf_doc f (put f (place_of f order k d) new d) = true.
Proof.
  unfold wf_doc. intros Hwf Hn. apply andb_true_iff in Hwf as [Hh Hb].
  unfold place_of.
  destruct (List.find _ (predecessors k order)) as [q|].
  - cbn [put head body]. now rewrite Hh, wf_insert_after.
  - destruct (str_find (closing_tag (Some f)) (head d)) as [i|] eqn:Eh.
    + cbn [put head body].
      apply str_find_split in Eh as (pre & post & Ec & El & E1 & E2).
      rewrite E1, E2, wf_body_cons, Hn, Hb. rewrite Ec in Hh.
      now rewrite (inert_before _ _ Hh), (inert_suffix _ _ Hh).
    + destruct (tagged f (body d)); cbn [put head body].
      * now rewrite Hh, wf_insert_at_tag.
      * now rewrite Hh, Hb.
Qed.

(** The entries after a pass that found a place: the old ones and the
    new one. *)
Lemma put_elems (order : list text) (k : text) (new : elem) (d : doc) :
  placed (place_of f order k d) = true ->
  exists l1 l2,
    elems d = l1 ++ l2
    /\ elems (put f (place_of f order k d) new d) = l1 ++ new :: l2.
Proof.
  unfold place_of, elems.
  destruct (List.find _ (predecessors k order)) as [q|] eqn:Ef.
  - intros _. apply find_some in Ef as [_ Hm]. cbn [put body].
    now apply insert_after_elems.
  - destruct (str_find (closing_tag (Some f)) (head d)) as [i|].
    + intros _. cbn [put body map fst]. now exists [], (map fst (body d)).
    + destruct (tagged f (body d)) eqn:Et; [|discriminate].
      intros _. cbn [put body]. now apply insert_at_tag_elems.
Qed.

Lemma put_nowhere (order : list text) (k : text) (new : elem) (d : doc) :
  placed (place_of f order k d) = false ->
  put f (place_of f order k d) new d = d.
Proof. now destruct (place_of f order k d). Qed.

Lemma put_tagged (order : list text) (k : text) (new : elem) (d : doc) :
  doc_tagged f (put f (place_of f order k d) new d) = doc_tagged f d.
Proof.
  unfold place_of, doc_tagged.
  destruct (List.find _ (predecessors k order)) as [q|].
  - cbn [put head body]. now rewrite tagged_insert_after.
  - destruct (str_find (closing_tag (Some f)) (head d)) as [i|] eqn:Eh.
    + cbn [put head body]. rewrite tagged_cons.
      assert (Hc : contains (closing_tag (Some f)) (head d) = true)
        by (unfold contains; now rewrite Eh).
      apply str_find_split in Eh as (pre & post & _ & _ & _ & E2).
      assert (Hs : contains (closing_tag (Some f)) (skipn i (head d)) = true)
        by (unfold contains; now rewrite E2, str_find_here).
      rewrite Hc, Hs. cbn [orb]. now rewrite orb_true_r.
    + destruct (tagged f (body d)) eqn:Et; cbn [put head body].
      * now rewrite tagged_insert_at_tag, Et.
      * now rewrite Et.
Qed.

Lemma placed_stuck (order : list text) (k : text) (d : doc) :
  placed (place_of f order k d) = negb (stuck f order k d).
Proof.
  unfold place_of, stuck, doc_tagged, contains.
  destruct (List.find _ (predecessors k order)) as [q|] eqn:Ef.
  - apply find_some in Ef as [Hin Hm]. cbn [placed].
    assert (Hf : forallb (fun q => negb (mem q (keys d)))
                   (predecessors k order) = false).
    { destruct (forallb _ _) eqn:E; [|reflexivity].
      rewrite forallb_forall in E. specialize (E q Hin).
      now rewrite Hm in E. }
    now rewrite Hf.
  - assert (Hf : forallb (fun q => negb (mem q (keys d)))
                   (predecessors k order) = true).
    { apply forallb_forall. intros q Hin.
      now rewrite (find_none _ _ Ef q Hin). }
    rewrite Hf.
    destruct (str_find (closing_tag (Some f)) (head d)); [reflexivity|].
    now destruct (tagged f (body d)).
Qed.

Lemma mem_app (x : text) (l1 l2 : list text) :
  mem x (l1 ++ l2) = mem x l1 || mem x l2.
Proof. unfold mem. apply existsb_app. Qed.

Lemma mem_cons (x a : text) (l : list text) :
  mem x (a :: l) = text_eqb x a || mem x l.
Proof. reflexivity. Qed.

Lemma keys_put (order : list text) (k : text) (new : elem) (d : doc)
  (x : text) :
  placed (place_of f order k d) = true ->
  mem x (keys (put f (place_of f order k d) new d))
  = text_eqb x (e_key new) || mem x (keys d).
Proof.
  intros Hp. destruct (put_elems order k new d Hp) as (l1 & l2 & E1 & E2).
  unfold keys. rewrite E1, E2, !map_app. cbn [map].
  rewrite !mem_app, mem_cons.
  destruct (mem x (map e_key l1)), (text_eqb x (e_key new)); reflexivity.
Qed.

(** *** The loop that adds the missing keys *)

Lemma index_of_firstn (r : text) (l : list text) (n : nat) :
  In r (firstn n l) -> index_of r l < n.
Proof.
  revert n; induction l as [|a l IH]; intros [|n]; cbn [firstn index_of];
    try contradiction.
  destruct (text_eqb a r) eqn:E; [lia|]. apply text_eqb_neq in E.
  intros [H|H]; [contradiction|]. apply IH in H. lia.
Qed.

Lemma firstn_In_le (q : text) (l : list text) (m n : nat) :
  m <= n -> In q (firstn m l) -> In q (firstn n l).
Proof.
  revert m n; induction l as [|a l IH]; intros [|m] [|n] Hle;
    cbn [firstn]; try contradiction; try lia.
  intros [H|H]; [now left | right]. apply (IH m n); [lia | exact H].
Qed.

(** A key before a key that is before [k] is before [k]. *)
Lemma predecessors_trans (q r k : text) (order : list text) :
  In r (predecessors k order) -> In q (predecessors r order) ->
  In q (predecessors k order).
Proof.
  unfold predecessors. rewrite <- !in_rev. intros Hr Hq.
  apply index_of_firstn in Hr.
  apply (firstn_In_le q order (index_of r order)); [lia | exact Hq].
Qed.

Lemma forallb_false_exists (A : Type) (g : A -> bool) (l : list A) :
  forallb g l = false -> exists x, In x l /\ g x = false.
Proof.
  induction l as [|a l IH]; cbn [forallb]; [discriminate|].
  destruct (g a) eqn:E; cbn [andb].
  - intros H. destruct (IH H) as (x & Hx & Hf). exists x. split; [now right|].
    exact Hf.
  - intros _. exists a. split; [now left | exact E].
Qed.

(** A key without a place keeps being without a place when another key
    is added. *)
Lemma stuck_put (order : list text) (x r : text) (new : elem) (d : doc) :
  e_key new = r ->
  stuck f order x d = true ->
  stuck f order x (put f (place_of f order r d) new d) = true.
Proof.
  intros Hr Hx. destruct (placed (place_of f order r d)) eqn:Hp.
  2:{ now rewrite put_nowhere. }
  unfold stuck in *. apply andb_true_iff in Hx as [Hpre Htag].
  rewrite put_tagged, Htag, andb_true_r.
  apply forallb_forall. intros q Hq. rewrite keys_put by exact Hp.
  rewrite forallb_forall in Hpre. specialize (Hpre q Hq) as Hqd.
  apply negb_true_iff in Hqd. rewrite Hqd, orb_false_r, Hr.
  apply negb_true_iff. apply text_eqb_neq. intros ->.
  rewrite placed_stuck in Hp. apply negb_true_iff in Hp.
  unfold stuck in Hp. rewrite Htag, andb_true_r in Hp.
  apply forallb_false_exists in Hp as (q0 & Hq0 & Hm).
  apply negb_false_iff in Hm.
  specialize (Hpre q0 (predecessors_trans q0 r x order Hq Hq0)).
  now rewrite Hm in Hpre.
Qed.

Lemma last_elem_app (k : text) (l1 l2 : list elem) :
  last_elem k (l1 ++ l2)
  = match last_elem k l2 with
    | Some x => Some x
    | None => last_elem k l1
    end.
Proof.
  induction l1 as [|a l1 IH]; cbn [app last_elem].
  - now destruct (last_elem k l2).
  - rewrite IH. now destruct (last_elem k l2).
Qed.

Lemma last_elem_insert (k : text) (new : elem) (l1 l2 : list elem) :
  e_key new <> k ->
  last_elem k (l1 ++ new :: l2) = last_elem k (l1 ++ l2).
Proof.
  intros Hne. rewrite !last_elem_app. cbn [last_elem].
  destruct (last_elem k l2); [reflexivity|].
  apply text_eqb_neq in Hne. now rewrite Hne.
Qed.

Lemma good_key_spec (k : text) :
  good_key k = true ->
  k <> [] /\ free dq k = true /\ free "<"%char k = true.
Proof.
  unfold good_key. rewrite !andb_true_iff. intros [[H1 H2] H3].
  repeat split; try assumption. intros ->. discriminate.
Qed.

(** The loop takes a well-formed file to a well-formed file. *)
Lemma add_loop (se : dict entry) (order L : list text) :
  (forall q, In q order -> good_key q = true) ->
  (forall k, In k L -> In k order /\ exists src, dict_get k se = Some src) ->
  forall st d,
    models f st d ->
    exists d',
      models f (fold_left (add_key (Some f) se order) L st) d'
      /\ extends f se L d d'
      /\ doc_tagged f d' = doc_tagged f d
      /\ (forall x, stuck f order x d = true -> stuck f order x d' = true)
      /\ (forall k, In k L ->
            mem k (keys d') = true \/ stuck f order k d' = true).
Proof.
  intros Hgood. induction L as [|k L IH]; intros HL st d Hm.
  - exists d. cbn [fold_left]. split; [exact Hm|]. split.
    { split; [reflexivity|]. split; [now left | trivial]. }
    split; [reflexivity|]. split; [trivial | contradiction].
  - destruct (HL k (or_introl eq_refl)) as (Hk & src & Es).
    destruct Hm as (Hwf & Hc & Hks).
    assert (Hfree : forall q, In q order -> free dq q = true)
      by (intros q Hq; now apply good_key_spec, Hgood).
    destruct (good_key_spec k (Hgood k Hk)) as (Hk1 & Hk2 & Hk3).
    set (p := place_of f order k d).
    set (d1 := put f p (new_elem f k src) d).
    assert (Hstep :
      add_key (Some f) se order st k
      = {| add_content := render f d1;
           add_key_set := if placed p then k :: add_key_set st
                          else add_key_set st;
           added := if placed p then S (added st) else added st |}).
    { destruct st as [c ks n]. cbn [add_content add_key_set added] in *.
      subst c. now apply add_key_render. }
    assert (Hwf1 : wf_doc f d1 = true)
      by (apply put_wf; [exact Hwf | now apply wf_new_elem]).
    assert (Hm1 : models f (add_key (Some f) se order st k) d1).
    { rewrite Hstep. split; [exact Hwf1|]. split; [reflexivity|].
      cbn [add_key_set]. intros x. unfold d1.
      destruct (placed p) eqn:Hp.
      - unfold p in *. rewrite keys_put by exact Hp.
        rewrite mem_cons, Hks. reflexivity.
      - unfold p in *. rewrite put_nowhere by exact Hp. apply Hks. }
    destruct (IH (fun k' Hk' => HL k' (or_intror Hk')) _ _ Hm1)
      as (d' & Hm' & (Hl & He & Hkeys) & Htag & Hst & HJ).
    exists d'. cbn [fold_left]. split; [exact Hm'|].
    assert (Hd1 : placed p = false -> d1 = d)
      by (intros Hp; now apply put_nowhere).
    split; [split; [|split]|split; [|split]].
    + intros k' Hk'. rewrite Hl by (intros H; apply Hk'; now right).
      destruct (placed p) eqn:Hp; [|now rewrite Hd1].
      destruct (put_elems order k (new_elem f k src) d Hp)
        as (l1 & l2 & E1 & E2).
      unfold d1, p. rewrite E1, E2. apply last_elem_insert.
      cbn [new_elem e_key]. intros ->. apply Hk'. now left.
    + intros e Hin. destruct (He e Hin) as [H|(k' & s' & Hk' & Es' & ->)].
      * destruct (placed p) eqn:Hp; [|left; now rewrite <- Hd1].
        destruct (put_elems order k (new_elem f k src) d Hp)
          as (l1 & l2 & E1 & E2).
        unfold d1, p in H. rewrite E2 in H. rewrite E1.
        apply in_app_or in H as [H|[H|H]].
        -- left. apply in_or_app. now left.
        -- right. exists k, src. split; [now left|]. now split.
        -- left. apply in_or_app. now right.
      * right. exists k', s'. split; [now right|]. now split.
    + intros x Hx. apply Hkeys.
      destruct (placed p) eqn:Hp; [|now rewrite Hd1].
      unfold d1, p. rewrite keys_put by exact Hp. now rewrite Hx, orb_true_r.
    + rewrite Htag. apply put_tagged.
    + intros x Hx. apply Hst. now apply stuck_put.
    + intros k' [<-|Hk']; [|now apply HJ].
      destruct (placed p) eqn:Hp.
      * left. apply Hkeys. unfold d1, p. rewrite keys_put by exact Hp.
        cbn [new_elem e_key]. now rewrite text_eqb_refl.
      * right. apply Hst. rewrite Hd1 by reflexivity.
        unfold p in Hp. rewrite placed_stuck in Hp.
        now apply negb_false_iff in Hp.
Qed.

Lemma wf_map_elems (g : elem -> elem) (d : doc) :
  (forall e, wf_elem f e = true -> wf_elem f (g e) = true) ->
  wf_doc f d = true -> wf_doc f (map_elems g d) = true.
Proof.
  intros Hg. unfold wf_doc, map_elems. cbn [head body].
  rewrite !andb_true_iff. intros [Hh Hb]. split; [exact Hh|].
  unfold wf_body in *. rewrite forallb_forall in *.
  intros [e c] Hin. apply in_map_iff in Hin as ([e0 c0] & [= <- <-] & Hin).
  specialize (Hb _ Hin). cbn [fst snd] in *.
  apply andb_true_iff in Hb as [He Hc]. now rewrite (Hg _ He), Hc.
Qed.

Lemma elems_map_elems (g : elem -> elem) (d : doc) :
  elems (map_elems g d) = map g (elems d).
Proof. unfold elems, map_elems. cbn [body]. now rewrite !map_map. Qed.

Lemma map_elems_compose (g h : elem -> elem) (d : doc) :
  map_elems g (map_elems h d) = map_elems (fun e => g (h e)) d.
Proof. unfold map_elems. cbn [head body]. now rewrite map_map. Qed.

Lemma map_elems_ext (g h : elem -> elem) (d : doc) :
  (forall e, In e (elems d) -> g e = h e) -> map_elems g d = map_elems h d.
Proof.
  intros H. unfold map_elems. f_equal. apply map_ext_in.
  intros [e c] Hin. cbn [fst snd]. f_equal. apply H.
  unfold elems. now apply (in_map fst) in Hin.
Qed.

Lemma map_elems_id (g : elem -> elem) (d : doc) :
  (forall e, In e (elems d) -> g e = e) -> map_elems g d = d.
Proof.
  intros H. rewrite (map_elems_ext g (fun e => e) d H).
  unfold map_elems. destruct d as [h b]. cbn [head body]. f_equal.
  rewrite <- (map_id b) at 2. apply map_ext. now intros [e c].
Qed.

Lemma last_elem_map (g : elem -> elem) (k : text) (l : list elem) :
  (forall e, e_key (g e) = e_key e) ->
  last_elem k (map g l) = option_map g (last_elem k l).
Proof.
  intros Hg. induction l as [|e l IH]; [reflexivity|].
  cbn [map last_elem]. rewrite IH, Hg.
  destruct (last_elem k l); [reflexivity|].
  now destruct (text_eqb (e_key e) k).
Qed.

Lemma keys_map_elems (g : elem -> elem) (d : doc) :
  (forall e, e_key (g e) = e_key e) -> keys (map_elems g d) = keys d.
Proof.
  intros Hg. unfold keys. rewrite elems_map_elems, map_map.
  apply map_ext. exact Hg.
Qed.

Lemma doc_tagged_map_elems (g : elem -> elem) (d : doc) :
  doc_tagged f (map_elems g d) = doc_tagged f d.
Proof.
  unfold doc_tagged, map_elems, tagged. cbn [head body]. f_equal.
  induction (body d) as [|ec b IH]; [reflexivity|].
  cbn [map existsb fst snd]. now rewrite IH.
Qed.



(** *** The source file

    A well-formed source file gives the sync command a parsed file it can
    work from. *)
Lemma regular_render (S : doc) :
  wf_doc f S = true -> regular (parse_content (render f S) (Some f)).
Proof.
  intros HS. split; [apply parse_content_coherent|].
  split; [apply parse_content_proper|]. split.
  - intros q Hq. rewrite keys_render in Hq by exact HS.
    unfold keys in Hq. apply in_map_iff in Hq as (e & <- & He).
    unfold elems in He. apply in_map_iff in He as ((e' & c) & <- & Hin).
    unfold wf_doc in HS. apply andb_true_iff in HS as [_ Hb].
    unfold wf_body in Hb. rewrite forallb_forall in Hb.
    specialize (Hb _ Hin). cbn [fst snd] in *.
    apply andb_true_iff in Hb as [Hw _].
    destruct (wf_elem_spec f _ Hw) as (H1 & H2 & H3 & _).
    unfold good_key. rewrite H2, H3, !andb_true_r.
    destruct (e_key e'); [contradiction | reflexivity].
  - intros k Hk. rewrite parse_content_mem in Hk. now apply mem_In.
Qed.

Lemma dict_mem_get (V : Type) (k : text) (d : dict V) :
  dict_mem k d = true <-> exists v, dict_get k d = Some v.
Proof.
  unfold dict_mem. destruct (dict_get k d) as [v|]; split;
    try discriminate; try reflexivity.
  - intros _. now exists v.
  - intros [v Hv]. discriminate.
Qed.


(** [find_insert_position] on a well-formed file gives the offset the
    specification describes. *)
Lemma insert_position_render (order ks : list text) (k : text) (d : doc) :
  wf_doc f d = true ->
  (forall x, mem x ks = mem x (keys d)) ->
  (forall q, In q order -> free dq q = true) ->
  insert_position (render f d) k order ks (Some f)
  = insertion_offset f order k d.
Proof.
  intros Hwf Hks Hq. unfold insert_position, insertion_offset.
  rewrite (after_predecessor_render d ks _ Hwf Hks)
    by (intros q Hin; apply Hq; now apply (In_predecessors q k)).
  now destruct (List.find _ (predecessors k order)).
Qed.

(** A pass of the loop that adds the missing keys takes a well-formed
    file to a well-formed file. *)
Lemma add_key_models (se : dict entry) (order : list text) (st : adding)
  (d : doc) (k : text) (src : entry) :
  models f st d ->
  (forall q, In q order -> good_key q = true) ->
  In k order ->
  dict_get k se = Some src ->
  models f (add_key (Some f) se order st k)
    (put f (place_of f order k d) (new_elem f k src) d).
Proof.
  intros (Hwf & Hc & Hks) Hgood Hk Es.
  assert (Hfree : forall q, In q order -> free dq q = true)
    by (intros q Hq; now apply good_key_spec, Hgood).
  destruct (good_key_spec k (Hgood k Hk)) as (Hk1 & Hk2 & Hk3).
  destruct st as [c ks n]. cbn [add_content add_key_set added] in *.
  subst c. rewrite (add_key_render se order d ks n k src Hwf Hks Hfree Es).
  split; [apply put_wf; [exact Hwf | now apply wf_new_elem]|].
  split; [reflexivity|]. cbn [add_key_set]. intros x.
  destruct (placed (place_of f order k d)) eqn:Hp.
  - rewrite keys_put by exact Hp. rewrite mem_cons, Hks. reflexivity.
  - rewrite put_nowhere by exact Hp. apply Hks.
Qed.

End Dialect.

Lemma entry_of_elem_elements (e : elem) :
  entry_of_elem Elements e
  = {| value := e_value e; hash := hash_in (e_attrs e) |}.
Proof. reflexivity. Qed.

Lemma entry_of_elem_texts (e : elem) :
  entry_of_elem Texts e = {| value := e_value e; hash := None |}.
Proof. reflexivity. Qed.

(** *** Rewriting the hash of the entries of a key *)



Lemma replacer_exact (k sh : text) (e : elem) (rest : text) :
  wf_elem Elements e = true -> free dq k = true ->
  replacer k sh (render_elem Elements e ++ rest)
  = if text_eqb (e_key e) k
    then Some (render_elem Elements (rewrite_elem sh e), rest) else None.
Proof.
  intros Hwf Hk. unfold replacer.
  rewrite (@key_pattern_exact Elements k e _ Hwf Hk).
  destruct (text_eqb (e_key e) k) eqn:E; [|reflexivity].
  apply text_eqb_eq in E as <-.
  unfold rewrite_elem, render_elem. cbn [e_key e_value e_attrs].
  destruct (contains _ _); rewrite <- !app_assoc; reflexivity.
Qed.

Lemma wf_rewrite_elem (sh : text) (e : elem) :
  free "<"%char sh = true -> free ">"%char sh = true ->
  wf_elem Elements e = true -> wf_elem Elements (rewrite_elem sh e) = true.
Proof.
  intros H1 H2 Hwf.
  apply wf_elem_spec in Hwf as (Hk & Hfk & Hlk & Hfv & Hlv & _ & _).
  unfold wf_elem, rewrite_elem. cbn [e_key e_value e_attrs].
  rewrite Hfk, Hlk, Hfv, Hlv.
  destruct (e_key e); [contradiction|]. cbn [nonempty andb].
  destruct (contains _ _); rewrite !free_app, H1, H2; reflexivity.
Qed.

Lemma wf_rewrite_key (k sh : text) (e : elem) :
  free "<"%char sh = true -> free ">"%char sh = true ->
  wf_elem Elements e = true -> wf_elem Elements (rewrite_key k sh e) = true.
Proof.
  intros H1 H2 Hwf. unfold rewrite_key.
  destruct (text_eqb (e_key e) k); [now apply wf_rewrite_elem | exact Hwf].
Qed.

Lemma rewrite_key_key (k sh : text) (e : elem) :
  e_key (rewrite_key k sh e) = e_key e.
Proof. unfold rewrite_key. now destruct (text_eqb (e_key e) k). Qed.

Lemma sub_replacer_body (k sh : text) (b : list (elem * text)) :
  wf_body Elements b = true -> free dq k = true ->
  sub (replacer k sh) (render_body Elements b)
  = render_body Elements
      (map (fun ec => (rewrite_key k sh (fst ec), snd ec)) b).
Proof.
  intros Hwf Hk. induction b as [|[e c] b IH].
  - apply sub_nil, replacer_shorter.
  - rewrite wf_body_cons in Hwf.
    apply andb_true_iff in Hwf as [Hwf Hb].
    apply andb_true_iff in Hwf as [He Hc].
    cbn [map fst snd]. rewrite !render_body_cons, <- (IH Hb).
    assert (Hchunk :
      sub (replacer k sh) (c ++ render_body Elements b)
      = c ++ sub (replacer k sh) (render_body Elements b)).
    { apply sub_dead.
      apply (chunk_dead (replacer_requires k sh));
        [exact Hc | apply render_body_starts]. }
    pose proof (replacer_exact k sh e (c ++ render_body Elements b) He Hk)
      as Hr.
    unfold rewrite_key. destruct (text_eqb (e_key e) k).
    + rewrite (sub_hit (replacer_shorter k sh) _ Hr), Hchunk.
      reflexivity.
    + rewrite sub_dead
        by (apply (elem_dead (replacer_requires k sh)); assumption).
      now rewrite Hchunk.
Qed.

(** Substituting [replacer] in a well-formed file rewrites the entries of
    the key and nothing else. *)
Lemma sub_replacer_render (k sh : text) (d : doc) :
  wf_doc Elements d = true -> free dq k = true ->
  sub (replacer k sh) (render Elements d)
  = render Elements (map_elems (rewrite_key k sh) d).
Proof.
  unfold wf_doc. intros Hwf Hk. apply andb_true_iff in Hwf as [Hh Hb].
  unfold render, map_elems. cbn [head body].
  rewrite sub_dead
    by (apply (chunk_dead (replacer_requires k sh));
        [exact Hh | apply render_body_starts]).
  now rewrite sub_replacer_body.
Qed.

Lemma hash_in_written (sh r : text) :
  free dq sh = true -> hash_in (Q " eh='" ++ sh ++ dq :: r) = Some sh.
Proof.
  intros Hsh. unfold hash_in.
  change (Q " eh='" ++ sh ++ dq :: r)
    with (" "%char :: (Q "eh='" ++ sh ++ dq :: r)).
  cbn [search]. unfold eh_pattern at 1.
  change (match_value (Q "eh='") (" "%char :: Q "eh='" ++ sh ++ dq :: r))
    with (@None (text * text)).
  cbv iota.
  rewrite (@search_hit _ eh_pattern _ _ _
             (match_value_exact (Q "eh='") sh r Hsh)).
  reflexivity.
Qed.

Lemma strip_eh_written (sh r : text) :
  free dq sh = true ->
  sub strip_eh_pattern (Q " eh='" ++ sh ++ dq :: r) = sub strip_eh_pattern r.
Proof.
  intros Hsh.
  assert (E : strip_eh_pattern (Q " eh='" ++ sh ++ dq :: r) = Some ([], r)).
  { unfold strip_eh_pattern.
    change (Q " eh='" ++ sh ++ dq :: r)
      with (" "%char :: "e"%char :: (Q "h='" ++ sh ++ dq :: r)).
    cbn [span]. change (is_space " "%char) with true.
    change (is_space "e"%char) with false. cbv iota. cbn [snd].
    change ("e"%char :: Q "h='" ++ sh ++ dq :: r)
      with (Q "eh='" ++ sh ++ dq :: r).
    unfold eh_pattern. now rewrite match_value_exact. }
  now rewrite (@sub_hit strip_eh_pattern strip_eh_pattern_shorter _ _ _ E).
Qed.



Lemma rewrite_by_key (dec : text * entry -> bool) (items : dict entry)
  (e : elem) :
  e_key (rewrite_by dec items e) = e_key e.
Proof.
  unfold rewrite_by. destruct (dict_get (e_key e) items) as [data|];
    [|reflexivity].
  now destruct (dec (e_key e, data)).
Qed.

Lemma wf_rewrite_by (dec : text * entry -> bool) (items : dict entry)
  (e : elem) :
  wf_elem Elements e = true -> wf_elem Elements (rewrite_by dec items e) = true.
Proof.
  intros Hwf. unfold rewrite_by.
  destruct (dict_get (e_key e) items) as [data|]; [|exact Hwf].
  destruct (dec (e_key e, data)); [|exact Hwf].
  apply wf_rewrite_elem;
    [apply get_hash_free_lt | apply get_hash_free_gt | exact Hwf].
Qed.

Lemma dict_get_not_in (V : Type) (k : text) (d : dict V) :
  ~ In k (map fst d) -> dict_get k d = None.
Proof.
  intros H. destruct (dict_get k d) as [v|] eqn:E; [|reflexivity].
  exfalso. apply H. apply dict_mem_keys. unfold dict_mem. now rewrite E.
Qed.

(** A loop of substitutions over distinct keys rewrites, in a well-formed
    file, the entries of the selected keys. *)
Lemma rewrite_loop_render (dec : text * entry -> bool) (items : dict entry)
  (d : doc) :
  wf_doc Elements d = true -> proper items ->
  (forall k, In k (map fst items) -> free dq k = true) ->
  rewrite_loop dec items (render Elements d)
  = render Elements (map_elems (rewrite_by dec items) d).
Proof.
  unfold rewrite_loop. revert d.
  induction items as [|[k data] items IH]; intros d Hwf Hp Hk.
  - cbn [fold_left]. rewrite map_elems_id; [reflexivity|]. now intros e _.
  - cbn [fold_left fst snd]. unfold proper in Hp. cbn [map fst] in Hp.
    inversion Hp as [|? ? Hnot Hp']; subst.
    set (g := fun e => if dec (k, data)
                       then rewrite_key k (get_hash (value data)) e
                       else e).
    assert (Hg : (if dec (k, data)
                  then sub (replacer k (get_hash (value data)))
                         (render Elements d)
                  else render Elements d)
                 = render Elements (map_elems g d)).
    { unfold g. destruct (dec (k, data)).
      - apply sub_replacer_render; [exact Hwf|]. apply Hk. now left.
      - rewrite map_elems_id; [reflexivity|]. now intros e _. }
    rewrite Hg. rewrite IH.
    + rewrite map_elems_compose. f_equal. apply map_elems_ext.
      intros e _. unfold rewrite_by at 2. cbn [dict_get].
      destruct (text_eqb (e_key e) k) eqn:E.
      * apply text_eqb_eq in E. unfold rewrite_by.
        assert (Hkey : e_key (g e) = k).
        { unfold g. destruct (dec (k, data)); [|exact E].
          now rewrite rewrite_key_key. }
        rewrite Hkey, (dict_get_not_in _ _ _ Hnot).
        unfold g, rewrite_key. rewrite E, text_eqb_refl. reflexivity.
      * assert (Hge : g e = e).
        { unfold g, rewrite_key. rewrite E. now destruct (dec (k, data)). }
        now rewrite Hge.
    + apply wf_map_elems; [|exact Hwf]. intros e He. unfold g.
      destruct (dec (k, data)); [|exact He].
      apply wf_rewrite_key;
        [apply get_hash_free_lt | apply get_hash_free_gt | exact He].
    + exact Hp'.
    + intros k' Hk'. apply Hk. now right.
Qed.

Lemma new_elem_entry (k : text) (source_data : entry) :
  hash (entry_of_elem Elements (new_elem Elements k source_data))
  = Some (get_hash (value source_data)).
Proof.
  rewrite entry_of_elem_elements. unfold new_elem. cbn [hash e_attrs].
  change (Q " eh='" ++ get_hash (value source_data) ++ Q "' ")
    with (Q " eh='" ++ get_hash (value source_data) ++ dq :: Q " ").
  apply hash_in_written, get_hash_free_dq.
Qed.

Lemma new_elem_settled (k : text) (source_data : entry) :
  rewrite_elem (get_hash (value source_data)) (new_elem Elements k source_data)
  = new_elem Elements k source_data.
Proof.
  unfold rewrite_elem, new_elem. cbn [e_key e_value e_attrs]. f_equal.
  change (Q " eh='" ++ get_hash (value source_data) ++ Q "' ")
    with (Q " eh='" ++ get_hash (value source_data) ++ dq :: Q " ").
  rewrite (strip_eh_written _ _ (get_hash_free_dq _)). reflexivity.
Qed.

(** *** The sync command on a well-formed target *)

Lemma refresh_elem_key (f : xml_format) (source : parsed) (content : text)
  (e : elem) :
  e_key (refresh_elem f source content e) = e_key e.
Proof. destruct f; [apply rewrite_by_key | reflexivity]. Qed.

Lemma wf_refresh_elem (f : xml_format) (source : parsed) (content : text)
  (e : elem) :
  wf_elem f e = true -> wf_elem f (refresh_elem f source content e) = true.
Proof. destruct f; [apply wf_rewrite_by | trivial]. Qed.

(** The loop that updates the hashes, on a well-formed file. *)
Lemma refresh_loop_render (f : xml_format) (source : parsed)
  (content : text) (d : doc) :
  regular source -> wf_doc f d = true ->
  (if is_elements (Some f)
   then
     fold_left
       (refresh_key (entries (parse_content content (Some f)))
          (missing_keys (ordered_keys source)
             (entries (parse_content content (Some f))))
          (stale_keys (Some f) (entries source)
             (entries (parse_content content (Some f)))
             (ordered_keys source)))
       (entries source) (render f d)
   else render f d)
  = render f (map_elems (refresh_elem f source content) d).
Proof.
  intros (Hcoh & Hprop & Hgood & Hlisted) Hwf. destruct f; cbn [is_elements].
  - transitivity (rewrite_loop (refreshes source content) (entries source)
                    (render Elements d)); [reflexivity|].
    rewrite (rewrite_loop_render (refreshes source content)
               (entries source) d Hwf Hprop); [reflexivity|].
    intros k Hk. apply dict_mem_keys in Hk. apply Hlisted in Hk.
    now apply good_key_spec, Hgood.
  - rewrite map_elems_id; [reflexivity|]. now intros e _.
Qed.

(** The content the sync command writes for a well-formed target: the
    file with the new entries, in which, in the elements dialect, the
    entries of the source items selected by [refreshes] carry the
    fingerprint of the source value. *)
Lemma sync_language_render (f : xml_format) (source : parsed) (D : doc) :
  regular source -> wf_doc f D = true ->
  exists r d_add,
    sync_language (Some f) source (render f D) = Ok r
    /\ new_content r
       = render f (map_elems (refresh_elem f source (render f D)) d_add)
    /\ sync_missing r
       = missing_keys (ordered_keys source)
           (entries (parse_content (render f D) (Some f)))
    /\ sync_stale r
       = stale_keys (Some f) (entries source)
           (entries (parse_content (render f D) (Some f)))
           (ordered_keys source)
    /\ wf_doc f d_add = true
    /\ extends f (entries source) (sync_missing r) D d_add
    /\ doc_tagged f d_add = doc_tagged f D
    /\ (forall k, In k (sync_missing r) ->
          mem k (keys d_add) = true
          \/ stuck f (ordered_keys source) k d_add = true).
Proof.
  intros Hreg HD. pose proof Hreg as (Hcoh & Hprop & Hgood & Hlisted).
  rewrite (sync_language_Ok (Some f) (render f D) Hcoh Hprop).
  cbv zeta.
  set (le := entries (parse_content (render f D) (Some f))).
  set (missing := missing_keys (ordered_keys source) le).
  set (stale := stale_keys (Some f) (entries source) le
                  (ordered_keys source)).
  set (init := {| add_content := render f D;
                  add_key_set :=
                    ordered_keys (parse_content (render f D) (Some f));
                  added := 0 |}).
  assert (Hinit : models f init D).
  { split; [exact HD|]. split; [reflexivity|]. intros x.
    unfold init. cbn [add_key_set]. now rewrite keys_render. }
  assert (HL : forall k, In k missing ->
             In k (ordered_keys source)
             /\ exists src, dict_get k (entries source) = Some src).
  { intros k Hk. apply missing_keys_In in Hk as [Hk _].
    split; [exact Hk|]. apply dict_mem_get. now apply Hcoh. }
  destruct (add_loop f (entries source) (ordered_keys source) missing
              Hgood HL init D Hinit)
    as (d' & (Hwf' & Hc' & Hks') & Hext & Htag & Hst & HJ).
  eexists. exists d'. split; [reflexivity|]. cbn [new_content sync_missing
    sync_stale sync_added].
  split.
  { rewrite Hc'. now apply refresh_loop_render. }
  repeat (split; [first [reflexivity | assumption]|]).
  exact HJ.
Qed.






(** *** The hashes of the source file *)

(** The loop of [update_source_hashes] is a loop of substitutions, with
    a counter beside it. *)
Lemma update_loop (dec : text * entry -> bool) (items : dict entry)
  (content : text) (n : nat) :
  fold_left
    (fun (st : text * nat) (item : text * entry) =>
       let (content, updated) := st in
       let (key, data) := item in
       let correct_hash := get_hash (value data) in
       if dec (key, data)
       then (sub (replacer key correct_hash) content, S updated)
       else (content, updated))
    items (content, n)
  = (rewrite_loop dec items content, n + length (filter dec items)).
Proof.
  revert content n. induction items as [|[k data] items IH]; intros content n.
  - cbn. f_equal. lia.
  - cbn [fold_left filter]. unfold rewrite_loop. cbn [fold_left fst snd].
    destruct (dec (k, data)); rewrite IH; unfold rewrite_loop; f_equal.
    cbn [length]. lia.
Qed.

Lemma rewrite_loop_none (dec : text * entry -> bool) (items : dict entry)
  (content : text) :
  (forall item, In item items -> dec item = false) ->
  rewrite_loop dec items content = content.
Proof.
  unfold rewrite_loop. revert content.
  induction items as [|item items IH]; intros content H; [reflexivity|].
  cbn [fold_left]. rewrite (H item) by now left.
  apply IH. intros i Hi. apply H. now right.
Qed.


Lemma filter_nil_none (A : Type) (f : A -> bool) (l : list A) :
  length (filter f l) = 0 -> forall x, In x l -> f x = false.
Proof.
  induction l as [|a l IH]; intros H x Hx; [contradiction|].
  cbn [filter] in H. destruct (f a) eqn:E; [discriminate|].
  destruct Hx as [<-|Hx]; [exact E | now apply IH].
Qed.

(** Whether [update_source_hashes] rewrites the hash of an item. *)
Lemma update_source_hashes_eq (content : text) :
  update_source_hashes content (Some Elements)
  = (rewrite_loop (fun item => hash_differs (hash (snd item))
                                 (get_hash (value (snd item))))
       (entries (parse_content content (Some Elements))) content,
     length (filter (fun item => hash_differs (hash (snd item))
                                   (get_hash (value (snd item))))
               (entries (parse_content content (Some Elements))))).
Proof.
  unfold update_source_hashes.
  exact (update_loop (fun item => hash_differs (hash (snd item))
                                    (get_hash (value (snd item))))
           (entries (parse_content content (Some Elements))) content 0).
Qed.

(** The content unchanged when nothing is counted. *)
Lemma update_source_hashes_zero (content : text) :
  snd (update_source_hashes content (Some Elements)) = 0 ->
  fst (update_source_hashes content (Some Elements)) = content.
Proof.
  rewrite update_source_hashes_eq. cbn [fst snd]. intros H.
  apply rewrite_loop_none. now apply filter_nil_none.
Qed.


(** *** The sync command on a directory of well-formed files *)

Lemma insert_sorted_In (x y : text) (l : list text) :
  In x (insert_sorted y l) <-> x = y \/ In x l.
Proof.
  induction l as [|a l IH]; cbn [insert_sorted].
  - cbn. intuition congruence.
  - destruct (text_leb y a); cbn [In].
    + intuition congruence.
    + rewrite IH. intuition congruence.
Qed.

Lemma sorted_In (x : text) (l : list text) : In x (sorted l) <-> In x l.
Proof.
  unfold sorted. induction l as [|a l IH]; cbn [fold_right]; [reflexivity|].
  rewrite insert_sorted_In, IH. cbn. intuition congruence.
Qed.

(** The source language is not among the target languages. *)
Lemma enabled_not_source (d : dir) (lang_code : text) :
  In lang_code (get_enabled_languages d) ->
  lang_code <> sourceLanguage CONFIG.
Proof.
  unfold get_enabled_languages.
  destruct (auto_detect_file_prefix d) as [p|]; [|contradiction].
  rewrite sorted_In, in_flat_map. intros (filename & _ & H).
  destruct (match_lang_filename (prefix_name p) filename) as [g|];
    [|contradiction].
  cbv zeta in H.
  destruct (text_eqb (map lower g) (sourceLanguage CONFIG)) eqn:E;
    cbn [negb] in H; [contradiction|].
  destruct H as [<-|[]]. now apply text_eqb_neq.
Qed.

Lemma lang_path_not_source (p : file_prefix) (lang_code : text) :
  lang_code <> sourceLanguage CONFIG ->
  get_lang_file_path p lang_code <> get_source_file_path p.
Proof.
  unfold get_lang_file_path, get_source_file_path. intros Hne E.
  apply app_inv_head in E. apply app_inv_head in E.
  apply app_inv_tail in E. contradiction.
Qed.

Lemma exists_file_listdir (name : text) (d : dir) :
  exists_file name d = mem name (listdir d).
Proof.
  unfold exists_file, listdir, mem. induction d as [|f d IH];
    [reflexivity|].
  cbn [existsb map]. now rewrite IH.
Qed.

Lemma exists_file_names (name : text) (d d' : dir) :
  map fst d' = map fst d -> exists_file name d' = exists_file name d.
Proof.
  intros E. rewrite !exists_file_listdir. unfold listdir. now rewrite E.
Qed.

Lemma auto_detect_file_prefix_names (d d' : dir) :
  map fst d' = map fst d ->
  auto_detect_file_prefix d' = auto_detect_file_prefix d.
Proof.
  intros E. unfold auto_detect_file_prefix.
  rewrite !(exists_file_names _ d d' E). unfold listdir. now rewrite E.
Qed.

Lemma get_enabled_languages_names (d d' : dir) :
  map fst d' = map fst d ->
  get_enabled_languages d' = get_enabled_languages d.
Proof.
  intros E. unfold get_enabled_languages.
  rewrite (auto_detect_file_prefix_names d d' E). unfold listdir.
  now rewrite E.
Qed.


Lemma dict_set_In (V : Type) (k n : text) (v c : V) (d : dict V) :
  In (n, c) (dict_set k v d) -> (n, c) = (k, v) \/ In (n, c) d.
Proof.
  induction d as [|[k' v'] d IH]; cbn [dict_set].
  - intros [H|[]]. now left.
  - destruct (text_eqb k k'); cbn [In]; intros [H|H].
    + now left.
    + right. now right.
    + right. now left.
    + destruct (IH H) as [H'|H']; [now left | right; now right].
Qed.

Lemma write_file_names (name content : text) (d : dir) :
  exists_file name d = true ->
  map fst (write_file name content d) = map fst d.
Proof.
  intros H. unfold write_file. rewrite dict_set_keys.
  rewrite exists_file_get in H. now rewrite H.
Qed.








Lemma read_file_get (name content : text) (d : dir) :
  read_file name d = Ok content <-> dict_get name d = Some content.
Proof.
  unfold read_file. destruct (dict_get name d); split; congruence.
Qed.




(** ** Idempotence of the sync command (C1) *)




(** ** The hash contract (C2) *)





(** ** The place of a new entry (C7) *)

(** C7, the counterexample: the target has no entry, and its container
    is an empty-element tag, so the file has no closing tag of the
    container.  [find_insert_position] returns -1 and the key [a] of the
    source is not added: after the run the target still has no entry. *)
Lemma no_closing_tag_no_insertion :
  let fmt := Some Elements in
  let source := parse_content hello_source fmt in
  ordered_keys source = [T "a"]
  /\ option_map value (dict_get (T "a") (entries source))
     = Some (T "Hello")
  /\ entries (parse_content selfclosed_target fmt) = []
  /\ find_insert_position selfclosed_target (T "a") [T "a"] [] fmt
     = Ok None
  /\ match sync_language fmt source selfclosed_target with
     | Ok r =>
         sync_missing r = [T "a"] /\ sync_added r = 0
         /\ new_content r = selfclosed_target
         /\ entries (parse_content (new_content r) fmt) = []
     | Raise _ => False
     end.
Proof. vm_compute. repeat split. Qed.

(** C7, amended: for a well-formed source and a well-formed target of
    one dialect.  When the source has one entry, and the target has no
    entry but a closing tag of the container, then after the run the
    target has exactly one entry: its key is the key of the source, its
    value the escaped source value behind the prefix, and, in the
    elements dialect, its hash the fingerprint of the source value.  In
    general the loop that adds the missing keys starts from the target
    and every pass takes a well-formed file to a well-formed file; the
    pass for a key puts the new entry, on a line of its own, right after
    the first entry of the nearest key before it in the order of the
    source that the file has by then; without such a key, right before
    the first closing tag of the container; and without such a tag it
    adds nothing. *)
Theorem missing_key_insertion (f : xml_format) (Src D : doc) :
  wf_doc f Src = true -> wf_doc f D = true ->
  let fmt := Some f in
  let source := parse_content (render f Src) fmt in
  (forall e,
     elems Src = [e] -> elems D = [] -> doc_tagged f D = true ->
     exists r,
       sync_language fmt source (render f D) = Ok r
       /\ sync_added r = 1
       /\ occurrences (new_content r) fmt
          = [(e_key e,
              escape_xml (untranslatedPrefix CONFIG ++ e_value e),
              match f with
              | Elements => Q " eh='" ++ get_hash (e_value e) ++ Q "' "
              | Texts => []
              end)]
       /\ dict_get (e_key e) (entries (parse_content (new_content r) fmt))
          = Some {| value :=
                      escape_xml (untranslatedPrefix CONFIG ++ e_value e);
                    hash :=
                      match f with
                      | Elements => Some (get_hash (e_value e))
                      | Texts => None
                      end |})
  /\ models f
       {| add_content := render f D;
          add_key_set := ordered_keys (parse_content (render f D) fmt);
          added := 0 |} D
  /\ (forall st d k,
        models f st d -> In k (ordered_keys source) ->
        exists src st' d',
          dict_get k (entries source) = Some src
          /\ add_step fmt (entries source) (hashes_of (entries source))
               (ordered_keys source) st k = Ok st'
          /\ st'
             = match insertion_offset f (ordered_keys source) k d with
               | Some pos =>
                   {| add_content :=
                        insert_at pos (placeholder_entry fmt k src)
                          (add_content st);
                      add_key_set := k :: add_key_set st;
                      added := S (added st) |}
               | None => st
               end
          /\ models f st' d').
Proof.
  intros HS HD fmt source.
  assert (Hreg : regular source) by now apply regular_render.
  pose proof Hreg as (Hcoh & Hprop & Hgood & Hlisted).
  assert (Hfree : forall q, In q (ordered_keys source) -> free dq q = true)
    by (intros q Hq; now apply good_key_spec, Hgood).
  assert (Hinit : models f
            {| add_content := render f D;
               add_key_set :=
                 ordered_keys (parse_content (render f D) fmt);
               added := 0 |} D).
  { split; [exact HD|]. split; [reflexivity|]. intros x.
    cbn [add_key_set]. unfold fmt. now rewrite keys_render. }
  split; [|split; [exact Hinit|]].
  - intros e He HeD Htag.
    set (k := e_key e).
    set (src := entry_of_elem f e).
    assert (Ho : ordered_keys source = [k]).
    { unfold source, fmt. rewrite keys_render by exact HS.
      unfold keys. now rewrite He. }
    assert (Es : dict_get k (entries source) = Some src).
    { unfold source, fmt. rewrite entries_render by exact HS.
      rewrite He. cbn [last_elem]. fold k. now rewrite text_eqb_refl. }
    assert (El : forall x,
              dict_get x (entries (parse_content (render f D) fmt)) = None).
    { intros x. unfold fmt. rewrite entries_render by exact HD.
      now rewrite HeD. }
    rewrite (sync_language_Ok fmt (render f D) Hcoh Hprop).
    cbv zeta.
    assert (Em : missing_keys (ordered_keys source)
                   (entries (parse_content (render f D) fmt)) = [k]).
    { rewrite Ho. unfold missing_keys. cbn [filter]. unfold dict_mem.
      now rewrite El. }
    rewrite Em. cbn [fold_left]. unfold fmt at 1.
    rewrite (add_key_render f (entries source) (ordered_keys source) D _ 0
               k src HD) by (try assumption; apply Hinit).
    assert (Hpl : exists n,
              place_of f (ordered_keys source) k D = BeforeTagHead n).
    { unfold place_of. rewrite Ho. unfold predecessors.
      cbn [index_of]. rewrite text_eqb_refl. cbn [firstn rev List.find].
      unfold doc_tagged in Htag. unfold elems in HeD.
      destruct (body D); [|discriminate]. cbn [tagged existsb] in Htag.
      rewrite orb_false_r in Htag. unfold contains in Htag.
      destruct (str_find (closing_tag (Some f)) (head D)) as [n|];
        [now exists n | discriminate]. }
    destruct Hpl as (n & Hpl). rewrite Hpl. cbn [placed put].
    set (d1 := {| head := firstn n (head D) ++ [nl; tab; tab];
                  body := (new_elem f k src, skipn n (head D))
                          :: body D |}).
    assert (Hwf1 : wf_doc f d1 = true).
    { assert (Hk : In k (ordered_keys source)) by (rewrite Ho; now left).
      destruct (good_key_spec k (Hgood k Hk)) as (H1 & H2 & H3).
      pose proof (put_wf f (ordered_keys source) k (new_elem f k src) D HD
                    (wf_new_elem f k src H1 H2 H3)) as Hw.
      rewrite Hpl in Hw. exact Hw. }
    assert (He1 : elems d1 = [new_elem f k src]).
    { unfold d1, elems in *. cbn [body map fst]. now rewrite HeD. }
    eexists. split; [reflexivity|].
    cbn [new_content sync_added add_content added].
    split; [reflexivity|].
    assert (Ec : (if is_elements (Some f)
                  then
                    fold_left
                      (refresh_key
                         (entries (parse_content (render f D) fmt)) [k]
                         (stale_keys fmt (entries source)
                            (entries (parse_content (render f D) fmt))
                            (ordered_keys source)))
                      (entries source) (render f d1)
                  else render f d1)
                 = render f d1).
    { destruct (is_elements (Some f)); [|reflexivity].
      apply (rewrite_loop_none
               (fun item =>
                  refreshed (entries (parse_content (render f D) fmt)) [k]
                    (stale_keys fmt (entries source)
                       (entries (parse_content (render f D) fmt))
                       (ordered_keys source)) (fst item))).
      intros item _. unfold refreshed. now rewrite El. }
    rewrite Ec. split.
    + unfold fmt. rewrite occurrences_render by exact Hwf1.
      rewrite He1. unfold src, k. now destruct f.
    + unfold fmt. rewrite entries_render by exact Hwf1.
      rewrite He1. cbn [last_elem new_elem e_key]. fold k.
      rewrite text_eqb_refl. cbn [option_map]. f_equal.
      unfold src. destruct f.
      * rewrite entry_of_elem_elements. cbn [e_value e_attrs new_elem].
        f_equal. cbn [value entry_of_elem].
        apply hash_in_written, get_hash_free_dq.
      * reflexivity.
  - intros st d k Hm Hk.
    assert (Hs : exists src, dict_get k (entries source) = Some src).
    { apply dict_mem_get. now apply Hcoh. }
    destruct Hs as (src & Es).
    exists src. eexists.
    exists (put f (place_of f (ordered_keys source) k d)
              (new_elem f k src) d).
    split; [exact Es|].
    split; [now apply add_step_Ok|]. split.
    + unfold add_key. rewrite Es.
      destruct Hm as (Hwf & Hc & Hks). rewrite Hc. unfold fmt.
      now rewrite (insert_position_render f (ordered_keys source)
                     (add_key_set st) k d Hwf Hks Hfree).
    + now apply add_key_models.
Qed.

Lemma missing_key_insertion_witness :
  wf_doc Elements hello_doc = true /\ wf_doc Elements empty_doc = true
  /\ exists r,
       sync_language (Some Elements)
         (parse_content (render Elements hello_doc) (Some Elements))
         (render Elements empty_doc) = Ok r
       /\ sync_added r = 1
       /\ occurrences (new_content r) (Some Elements)
          = [(T "a", T "[EN] Hello", Q " eh='8b1a9953' ")]
       /\ dict_get (T "a")
            (entries (parse_content (new_content r) (Some Elements)))
          = Some {| value := T "[EN] Hello";
                    hash := Some (T "8b1a9953") |}.
Proof.
  split; [reflexivity|]. split; [reflexivity|].
  destruct (missing_key_insertion Elements hello_doc empty_doc
              eq_refl eq_refl) as [H _].
  destruct (H {| e_key := T "a"; e_value := T "Hello";
                 e_attrs := Q " eh='8b1a9953' " |}
              eq_refl eq_refl eq_refl) as (r & E & Ea & Eo & Eg).
  exists r. split; [exact E|]. split; [exact Ea|].
  split; [exact Eo | exact Eg].
Defined.

(** * Further properties *)

(** ** The fingerprint *)

Lemma flat_map_hex_length (l : list Z) :
  length (flat_map MD5.hex_byte l) = 2 * length l.
Proof.
  induction l as [|b l IH]; [reflexivity|].
  cbn [flat_map MD5.hex_byte app length]. rewrite IH. lia.
Qed.

Lemma digest_length (msg : list Z) : length (MD5.digest msg) = 16.
Proof.
  unfold MD5.digest.
  destruct (MD5.blocks _ _ _) as [a b c d].
  unfold MD5.le_bytes. rewrite !length_app, !length_map, !length_seq.
  reflexivity.
Qed.

(** X1: the fingerprint of any text is a text of exactly eight lower-case
    hexadecimal digits. *)
Theorem get_hash_eight_hex (s : text) :
  length (get_hash s) = 8 /\ is_hex (get_hash s) = true.
Proof.
  split; [|apply get_hash_hex].
  unfold get_hash, MD5.hexdigest.
  rewrite length_firstn, flat_map_hex_length, digest_length. reflexivity.
Qed.

(** ** Escaping *)

Lemma escape_xml_free_gt (s : text) : free ">"%char (escape_xml s) = true.
Proof.
  unfold escape_xml.
  apply free_replace_char; [reflexivity|].
  apply free_replace_char_same. reflexivity.
Qed.

Lemma escape_xml_one (c : ascii) : escape_xml [c] = escape_char c.
Proof. destruct c as [[] [] [] [] [] [] [] []]; reflexivity. Qed.

Lemma escape_xml_flat (s : text) : escape_xml s = flat_map escape_char s.
Proof.
  induction s as [|c s IH]; [reflexivity|].
  change (c :: s) with ([c] ++ s).
  rewrite escape_xml_app, escape_xml_one, IH. reflexivity.
Qed.

Lemma special_cases (c : ascii) :
  special c = true ->
  c = "&"%char \/ c = "<"%char \/ c = ">"%char \/ c = dq.
Proof.
  unfold special. rewrite !orb_true_iff, !Ascii.eqb_eq. tauto.
Qed.

Lemma escape_char_plain (c : ascii) :
  special c = false -> escape_char c = [c].
Proof.
  unfold special, escape_char. rewrite !orb_false_iff.
  intros [[[H1 H2] H3] H4]. now rewrite H1, H2, H3, H4.
Qed.

Lemma escape_char_special (c : ascii) :
  special c = true ->
  exists r, escape_char c = "&"%char :: r /\ r <> [] /\ plain r = true.
Proof.
  intros H.
  destruct (special_cases c H) as [-> | [-> | [-> | ->]]];
    eexists; (split; [reflexivity|]); split;
    try discriminate; reflexivity.
Qed.

Lemma escape_char_inj (c c' : ascii) (x y : text) :
  escape_char c ++ x = escape_char c' ++ y -> c = c' /\ x = y.
Proof.
  destruct (special c) eqn:Hc; destruct (special c') eqn:Hc'.
  - destruct (special_cases c Hc) as [-> | [-> | [-> | ->]]];
      destruct (special_cases c' Hc') as [-> | [-> | [-> | ->]]];
      cbn; intros E; try discriminate E;
      (split; [reflexivity|]); now inversion E.
  - rewrite (escape_char_plain c' Hc').
    destruct (special_cases c Hc) as [-> | [-> | [-> | ->]]];
      cbn; intros E; inversion E; subst c'; discriminate Hc'.
  - rewrite (escape_char_plain c Hc).
    destruct (special_cases c' Hc') as [-> | [-> | [-> | ->]]];
      cbn; intros E; inversion E; subst c; discriminate Hc.
  - rewrite (escape_char_plain c Hc), (escape_char_plain c' Hc').
    cbn. intros E. now inversion E.
Qed.

Lemma escape_char_nonempty (c : ascii) : escape_char c <> [].
Proof.
  destruct (special c) eqn:Hc.
  - destruct (escape_char_special c Hc) as (r & E & _). now rewrite E.
  - now rewrite (escape_char_plain c Hc).
Qed.

Lemma escape_xml_inj (s t : text) : escape_xml s = escape_xml t -> s = t.
Proof.
  rewrite !escape_xml_flat. revert t.
  induction s as [|c s IH]; intros [|c' t]; cbn [flat_map]; intros E.
  - reflexivity.
  - symmetry in E. apply app_eq_nil in E as [E _].
    now apply escape_char_nonempty in E.
  - apply app_eq_nil in E as [E _]. now apply escape_char_nonempty in E.
  - apply escape_char_inj in E as [-> E]. now rewrite (IH t E).
Qed.

(** X2: what [escape_xml] returns holds no [<], no [>] and no double
    quote, whatever the text: a value written through it can end neither
    its attribute nor its tag. *)
Theorem escape_xml_output_safe (s : text) :
  free "<"%char (escape_xml s) = true
  /\ free ">"%char (escape_xml s) = true
  /\ free dq (escape_xml s) = true.
Proof.
  split; [apply escape_xml_free_lt|].
  split; [apply escape_xml_free_gt | apply escape_xml_free_dq].
Qed.

(** X3: [escape_xml] loses nothing: two texts have the same escaped form
    exactly when they are the same text. *)
Theorem escape_xml_injective (s t : text) :
  text_eqb (escape_xml s) (escape_xml t) = text_eqb s t.
Proof.
  destruct (text_eqb s t) eqn:E.
  - apply text_eqb_eq in E. subst t. apply text_eqb_refl.
  - apply text_eqb_neq. apply text_eqb_neq in E.
    intros H. apply E. now apply escape_xml_inj.
Qed.

Lemma escape_xml_length (s : text) :
  length (escape_xml s) = length s <-> plain s = true.
Proof.
  rewrite escape_xml_flat.
  assert (G : forall s, length s <= length (flat_map escape_char s)).
  { induction s0 as [|c s0 IH]; [reflexivity|].
    cbn [flat_map]. rewrite length_app. cbn [length].
    pose proof (escape_char_nonempty c) as Hn.
    destruct (escape_char c); [congruence|]. cbn [length]. lia. }
  induction s as [|c s IH]; [now split|].
  cbn [flat_map plain forallb]. rewrite length_app. cbn [length].
  fold (plain s). rewrite andb_true_iff, negb_true_iff.
  destruct (special c) eqn:Hc.
  - destruct (escape_char_special c Hc) as (r & E & Hr & _).
    rewrite E. destruct r as [|a r]; [congruence|]. cbn [length].
    specialize (G s). split; [lia | now intros [? _]].
  - rewrite (escape_char_plain c Hc). cbn [length]. split.
    + intros H. split; [reflexivity|]. apply IH. lia.
    + intros [_ H]. apply IH in H. lia.
Qed.

Lemma escape_xml_plain (s : text) : plain s = true -> escape_xml s = s.
Proof.
  rewrite escape_xml_flat. induction s as [|c s IH]; [reflexivity|].
  cbn [plain forallb flat_map]. fold (plain s).
  rewrite andb_true_iff, negb_true_iff. intros [Hc Hs].
  now rewrite (escape_char_plain c Hc), (IH Hs).
Qed.

Lemma plain_app (s t : text) : plain (s ++ t) = plain s && plain t.
Proof. unfold plain. apply forallb_app. Qed.

Lemma escape_xml_keeps_special (s : text) :
  plain (escape_xml s) = plain s.
Proof.
  rewrite escape_xml_flat. induction s as [|c s IH]; [reflexivity|].
  cbn [flat_map]. rewrite plain_app, IH.
  cbn [plain forallb]. fold (plain s).
  destruct (special c) eqn:Hc; cbn [negb andb].
  - destruct (escape_char_special c Hc) as (r & E & _). now rewrite E.
  - rewrite (escape_char_plain c Hc). cbn [plain forallb].
    now rewrite Hc.
Qed.

(** X4: [escape_xml] leaves a text as it is exactly when the text holds
    none of the four characters it replaces, and it never shortens a text;
    so escaping twice differs from escaping once for every text that
    holds one of them. *)
Theorem escape_xml_not_idempotent (s : text) :
  (escape_xml s = s <-> plain s = true)
  /\ (escape_xml (escape_xml s) = escape_xml s <-> plain s = true)
  /\ length s <= length (escape_xml s).
Proof.
  assert (F : forall x, escape_xml x = x <-> plain x = true).
  { intros x. split; [|apply escape_xml_plain].
    intros E. apply escape_xml_length. now rewrite E. }
  split; [apply F|]. split.
  - rewrite F. now rewrite escape_xml_keeps_special.
  - rewrite escape_xml_flat. induction s as [|c s IH]; [reflexivity|].
    cbn [flat_map]. rewrite length_app. cbn [length].
    pose proof (escape_char_nonempty c) as Hn.
    destruct (escape_char c); [congruence|]. cbn [length]. lia.
Qed.

(** ** White space at the ends of a value *)

Lemma lstrip_length (s : text) : length (lstrip s) <= length s.
Proof.
  induction s as [|c s IH]; [reflexivity|].
  cbn [lstrip]. destruct (is_space c); cbn [length]; lia.
Qed.

Lemma strip_length (s : text) : length (strip s) <= length s.
Proof.
  unfold strip. rewrite length_rev.
  etransitivity; [apply lstrip_length|].
  rewrite length_rev. apply lstrip_length.
Qed.

(** X5: [has_whitespace_issues] answers yes exactly for the values that
    are not empty and begin or end with a white-space character; a value
    of white space only is among them. *)
Theorem has_whitespace_issues_ends (v : text) :
  has_whitespace_issues v
  = match v with
    | [] => false
    | c :: _ => is_space c || is_space (last v c)
    end.
Proof.
  destruct v as [|c v']; [reflexivity|].
  set (v := c :: v'). unfold has_whitespace_issues. fold v.
  change (negb (text_eqb v (strip v))
          = (is_space c || is_space (last v c))).
  destruct (is_space c) eqn:Hc; cbn [orb].
  - apply negb_true_iff, text_eqb_neq. intros E.
    assert (L : length (strip v) < length v).
    { unfold strip. rewrite length_rev.
      eapply Nat.le_lt_trans; [apply lstrip_length|].
      rewrite length_rev. unfold v. cbn [lstrip]. rewrite Hc.
      cbn [length]. pose proof (lstrip_length v'). lia. }
    rewrite <- E in L. lia.
  - assert (Hl : lstrip v = v) by (unfold v; cbn [lstrip]; now rewrite Hc).
    unfold strip. rewrite Hl.
    assert (Hv : v <> []) by discriminate.
    assert (Hr : rev v = last v c :: rev (removelast v)).
    { rewrite (app_removelast_last c Hv) at 1.
      now rewrite rev_app_distr. }
    rewrite Hr. cbn [lstrip].
    destruct (is_space (last v c)) eqn:Hs.
    + apply negb_true_iff, text_eqb_neq. intros E.
      assert (L : length (rev (lstrip (rev (removelast v)))) < length v).
      { rewrite length_rev.
        eapply Nat.le_lt_trans; [apply lstrip_length|].
        rewrite length_rev.
        rewrite (app_removelast_last c Hv) at 2.
        rewrite length_app. cbn [length]. lia. }
      rewrite <- E in L. lia.
    + apply negb_false_iff, text_eqb_eq. rewrite <- Hr.
      now rewrite rev_involutive.
Qed.

(** ** What the parser returns *)

Lemma finditer_from_In (A : Type) (m : matcher A) (fuel : nat) (s : text)
  (a : A) :
  In a (finditer_from m fuel s) -> exists s' rest, m s' = Some (a, rest).
Proof.
  revert s. induction fuel as [|fuel IH]; intros s; cbn [finditer_from].
  - intros [].
  - destruct (m s) as [[b rest]|] eqn:E.
    + intros [<- | H]; [now exists s, rest | now apply (IH rest)].
    + destruct s as [|c s']; [intros [] | apply IH].
Qed.

Lemma finditer_In (A : Type) (m : matcher A) (s : text) (a : A) :
  In a (finditer m s) -> exists s' rest, m s' = Some (a, rest).
Proof. apply finditer_from_In. Qed.

Lemma match_key_value_shape (open mid s k v r : text) :
  match_key_value open mid s = Some (k, v, r) ->
  k <> [] /\ free dq k = true /\ free dq v = true.
Proof.
  unfold match_key_value.
  destruct (strip_prefix open s) as [s1|]; [|discriminate].
  pose proof (span_spec (not_char dq) s1) as [_ Hk].
  destruct (span (not_char dq) s1) as [key s2]. cbn [fst] in Hk.
  destruct key as [|c key]; [discriminate|].
  destruct (strip_prefix mid s2) as [s3|]; [|discriminate].
  pose proof (span_spec (not_char dq) s3) as [_ Hv].
  destruct (span (not_char dq) s3) as [val s4]. cbn [fst] in Hv.
  destruct (strip_prefix [dq] s4) as [s5|]; [|discriminate].
  intros E. injection E as <- <- <-.
  split; [discriminate|]. now split.
Qed.

Lemma entry_pattern_shape (fmt : option xml_format) (s k v a rest : text) :
  entry_pattern fmt s = Some ((k, v, a), rest) ->
  k <> [] /\ free dq k = true /\ free dq v = true.
Proof.
  assert (He : elements_pattern s = Some ((k, v, a), rest) ->
               k <> [] /\ free dq k = true /\ free dq v = true).
  { unfold elements_pattern.
    destruct (match_key_value _ _ s) as [[[k' v'] s1]|] eqn:E;
      [|discriminate].
    destruct (match_attrs_close s1) as [[a' r']|]; [|discriminate].
    intros H. injection H as <- <- <- <-.
    exact (match_key_value_shape _ _ _ _ _ _ E). }
  assert (Ht : texts_pattern s = Some ((k, v, a), rest) ->
               k <> [] /\ free dq k = true /\ free dq v = true).
  { unfold texts_pattern.
    destruct (match_key_value _ _ s) as [[[k' v'] s1]|] eqn:E;
      [|discriminate].
    destruct (match_close s1) as [r'|]; [|discriminate].
    intros H. injection H as <- <- <- <-.
    exact (match_key_value_shape _ _ _ _ _ _ E). }
  destruct fmt as [[|]|]; assumption.
Qed.

Lemma parse_fold_entries_In (k : text) (e : entry)
  (ms : list (text * text * text)) (acc : parsed) :
  In (k, e) (entries (fold_left parse_step ms acc)) ->
  In (k, e) (entries acc)
  \/ exists m, In m ms /\ occ_key m = k /\ occ_entry m = e.
Proof.
  revert acc. induction ms as [|m ms IH]; intros acc; cbn [fold_left].
  - now left.
  - intros H. destruct (IH _ H) as [H1|(m' & Hm & Hk & He)].
    + rewrite parse_step_entries in H1.
      apply dict_set_In in H1 as [H1|H1]; [|now left].
      injection H1 as -> ->. right. exists m. split; [now left | now split].
    + right. exists m'. split; [now right | now split].
Qed.

Lemma dict_set_length (V : Type) (k : text) (v : V) (d : dict V) :
  length (dict_set k v d)
  = if dict_mem k d then length d else S (length d).
Proof.
  rewrite <- (length_map fst (dict_set k v d)), dict_set_keys.
  destruct (dict_mem k d); rewrite ?length_app, length_map; cbn [length];
    lia.
Qed.

Lemma parse_fold_lengths (ms : list (text * text * text)) (acc : parsed) :
  length (ordered_keys acc)
  = length (entries acc) + length (duplicates acc) ->
  length (ordered_keys (fold_left parse_step ms acc))
  = length (entries (fold_left parse_step ms acc))
    + length (duplicates (fold_left parse_step ms acc)).
Proof.
  revert acc. induction ms as [|m ms IH]; intros acc H; cbn [fold_left];
    [exact H|].
  apply IH.
  rewrite parse_step_keys, parse_step_entries, parse_step_duplicates.
  rewrite dict_set_length, length_app. cbn [length].
  destruct (dict_mem (occ_key m) (entries acc));
    rewrite ?length_app; cbn [length]; lia.
Qed.

(** X6: what [parse_translation_file] returns for any content, in either
    dialect: the content as it is; a dictionary in which no key stands
    twice and whose keys are the keys of the ordered list; as many ordered
    keys as there are entries and recorded duplicates together; a key is
    recorded as duplicate exactly when it occurs at least twice; and no
    key is empty, no key and no value holds a double quote. *)
Theorem parse_invariants (content : text) (fmt : option xml_format) :
  let p := parse_content content fmt in
  raw_content p = content
  /\ NoDup (map fst (entries p))
  /\ (forall k, In k (ordered_keys p) <-> dict_mem k (entries p) = true)
  /\ length (ordered_keys p) = length (entries p) + length (duplicates p)
  /\ (forall k, In k (duplicates p) <-> 2 <= count k (ordered_keys p))
  /\ (forall k e, In (k, e) (entries p) ->
        k <> [] /\ free dq k = true /\ free dq (value e) = true).
Proof.
  intros p. split; [apply parse_content_raw|].
  split; [apply parse_content_proper|]. split.
  { intros k. unfold p. rewrite parse_content_mem. symmetry. apply mem_In. }
  split; [now apply parse_fold_lengths|]. split.
  - intros k. rewrite <- count_In. unfold p.
    rewrite parse_content_duplicates, parse_content_keys. lia.
  - intros k e H. apply parse_fold_entries_In in H as [[]|(m & Hm & <- & <-)].
    apply finditer_In in Hm as (s' & rest & Hm).
    destruct m as [[k v] a]. cbn [occ_key occ_entry fst snd value].
    exact (entry_pattern_shape _ _ _ _ _ _ Hm).
Qed.

(** ** Writing an entry and reading it back *)

Lemma elements_pattern_written (k v a rest : text) :
  k <> [] -> free dq k = true -> free dq v = true ->
  free ">"%char a = true ->
  elements_pattern
    (Q "<e k='" ++ k ++ Q "' v='" ++ v ++ dq :: (a ++ T "/>" ++ rest))
  = Some ((k, v, a), rest).
Proof.
  intros Hk Hfk Hfv Ha. unfold elements_pattern.
  change (Q "' v='") with (dq :: Q " v='").
  rewrite match_key_value_exact by assumption.
  now rewrite match_attrs_close_exact.
Qed.

Lemma texts_pattern_written (k v rest : text) :
  k <> [] -> free dq k = true -> free dq v = true ->
  texts_pattern
    (Q "<text name='" ++ k ++ Q "' text='" ++ v ++ dq :: (T "/>" ++ rest))
  = Some ((k, v, []), rest).
Proof.
  intros Hk Hfk Hfv. unfold texts_pattern.
  change (Q "' text='") with (dq :: Q " text='").
  rewrite match_key_value_exact by assumption.
  change (T "/>" ++ rest) with ([] ++ T "/>" ++ rest).
  now rewrite (match_close_exact [] rest eq_refl).
Qed.

Lemma format_entry_occurrences (fmt : option xml_format)
  (key v entry_hash : text) :
  key <> [] -> free dq key = true ->
  free ">"%char entry_hash = true ->
  occurrences (format_entry key v entry_hash fmt) fmt
  = [(key, escape_xml v,
      if is_elements fmt then Q " eh='" ++ entry_hash ++ Q "' " else [])].
Proof.
  intros Hk Hfk Hgt. unfold occurrences.
  assert (He :
    finditer elements_pattern (format_entry key v entry_hash (Some Elements))
    = [(key, escape_xml v, Q " eh='" ++ entry_hash ++ Q "' ")]).
  { unfold format_entry.
    replace (Q "<e k='" ++ key ++ Q "' v='" ++ escape_xml v ++ Q "' eh='"
               ++ entry_hash ++ Q "' />")
      with (Q "<e k='" ++ key ++ Q "' v='" ++ escape_xml v
              ++ dq :: ((Q " eh='" ++ entry_hash ++ Q "' ") ++ T "/>" ++ []))
      by (rewrite <- !app_assoc; reflexivity).
    rewrite (@finditer_hit _ elements_pattern elements_pattern_shorter
               _ [] (key, escape_xml v, Q " eh='" ++ entry_hash ++ Q "' ")).
    - now rewrite (@finditer_nil _ elements_pattern elements_pattern_shorter).
    - apply elements_pattern_written; try assumption.
      + apply escape_xml_free_dq.
      + rewrite !free_app, Hgt. reflexivity. }
  assert (Ht :
    finditer texts_pattern
      (Q "<text name='" ++ key ++ Q "' text='" ++ escape_xml v ++ Q "'/>")
    = [(key, escape_xml v, [])]).
  { change (Q "'/>") with (dq :: (T "/>" ++ [])).
    rewrite (@finditer_hit _ texts_pattern texts_pattern_shorter
               _ [] (key, escape_xml v, [])).
    - now rewrite (@finditer_nil _ texts_pattern texts_pattern_shorter).
    - apply texts_pattern_written; try assumption.
      apply escape_xml_free_dq. }
  destruct fmt as [[|]|]; cbn [is_elements entry_pattern];
    [exact He | exact Ht | exact Ht].
Qed.

(** X7: an entry written by [format_entry] is read back by the parser of
    the same dialect as one entry, with the key as it is, the escaped
    value, and, in the elements dialect, the hash; this holds for every
    key that is not empty and holds no double quote and every hash
    without double quote and [>]. *)
Theorem format_entry_round_trip (fmt : option xml_format)
  (key v entry_hash : text) :
  key <> [] -> free dq key = true ->
  free dq entry_hash = true -> free ">"%char entry_hash = true ->
  let p := parse_content (format_entry key v entry_hash fmt) fmt in
  entries p = [(key, written_entry fmt v entry_hash)]
  /\ ordered_keys p = [key] /\ duplicates p = [].
Proof.
  intros Hk Hfk Hdq Hgt p.
  pose proof (format_entry_occurrences fmt key v entry_hash Hk Hfk Hgt)
    as Ho.
  unfold occurrences in Ho. unfold p, parse_content. rewrite Ho.
  cbn [fold_left parse_step entries ordered_keys duplicates dict_set
       dict_mem dict_get app].
  split; [|now split].
  unfold written_entry. destruct (is_elements fmt); [|reflexivity].
  change (Q " eh='" ++ entry_hash ++ Q "' ")
    with (Q " eh='" ++ entry_hash ++ dq :: [" "%char]).
  pose proof (hash_in_written entry_hash [" "%char] Hdq) as Hh.
  unfold hash_in in Hh.
  destruct (search eh_pattern _) as [[h n]|]; [|discriminate].
  now injection Hh as ->.
Qed.

Lemma format_entry_round_trip_witness :
  let p :=
    parse_content
      (format_entry (T "greeting") (Q "a < 'b' & c") (T "8b1a9953")
         (Some Elements))
      (Some Elements) in
  entries p
  = [(T "greeting",
      {| value := T "a &lt; &quot;b&quot; &amp; c";
         hash := Some (T "8b1a9953") |})]
  /\ ordered_keys p = [T "greeting"] /\ duplicates p = [].
Proof.
  apply (format_entry_round_trip (Some Elements) (T "greeting")
           (Q "a < 'b' & c") (T "8b1a9953"));
    [discriminate | reflexivity | reflexivity | reflexivity].
Defined.

(** ** Where [find_insert_position] points *)

Lemma match_value_suffix (lit s v r : text) :
  match_value lit s = Some (v, r) -> s = lit ++ v ++ dq :: r.
Proof.
  unfold match_value.
  destruct (strip_prefix lit s) as [s1|] eqn:E1; [|discriminate].
  apply strip_prefix_Some in E1. subst s.
  pose proof (span_spec (not_char dq) s1) as [Hs _].
  destruct (span (not_char dq) s1) as [val s2]. cbn [fst snd] in Hs.
  destruct (strip_prefix [dq] s2) as [s3|] eqn:E2; [|discriminate].
  apply strip_prefix_Some in E2. subst s2.
  intros E. injection E as <- <-. now rewrite Hs.
Qed.

Lemma match_close_suffix (s r : text) :
  match_close s = Some r -> exists ws, s = ws ++ T "/>" ++ r.
Proof.
  unfold match_close. intros E. apply strip_prefix_Some in E.
  pose proof (span_spec is_space s) as [Hs _].
  exists (fst (span is_space s)). now rewrite <- E.
Qed.

Lemma match_attrs_close_suffix (s a r : text) :
  match_attrs_close s = Some (a, r) -> exists x, s = x ++ T "/>" ++ r.
Proof.
  unfold match_attrs_close.
  pose proof (span_spec (not_char ">"%char) s) as [Hs _].
  destruct (span (not_char ">"%char) s) as [run rest]. cbn [fst snd] in Hs.
  intros E. apply give_back_Some in E as (n & E).
  destruct (match_close (skipn n run ++ rest)) as [r'|] eqn:Ec;
    [|discriminate].
  injection E as <- <-.
  apply match_close_suffix in Ec as (ws & Ec).
  exists (firstn n run ++ ws).
  rewrite <- app_assoc, <- Ec, app_assoc, firstn_skipn. exact Hs.
Qed.

Lemma key_elements_pattern_closes (k : text) :
  closes (key_elements_pattern k).
Proof.
  intros s [v a] rest. unfold key_elements_pattern.
  destruct (match_value _ s) as [[v' s1]|] eqn:E1; [|discriminate].
  destruct (match_attrs_close s1) as [[a' r']|] eqn:E2; [|discriminate].
  intros E. injection E as <- <- <-.
  apply match_value_suffix in E1.
  apply match_attrs_close_suffix in E2 as (x & E2).
  exists ((Q "<e k='" ++ k ++ Q "' v='") ++ v' ++ dq :: x).
  rewrite E1, E2, <- !app_assoc. cbn [app]. now rewrite <- ?app_assoc.
Qed.

Lemma key_texts_pattern_closes (k : text) : closes (key_texts_pattern k).
Proof.
  intros s [v a] rest. unfold key_texts_pattern.
  destruct (match_value _ s) as [[v' s1]|] eqn:E1; [|discriminate].
  destruct (match_close s1) as [r'|] eqn:E2; [|discriminate].
  intros E. injection E as <- <- <-.
  apply match_value_suffix in E1.
  apply match_close_suffix in E2 as (x & E2).
  exists ((Q "<text name='" ++ k ++ Q "' text='") ++ v' ++ dq :: x).
  rewrite E1, E2, <- !app_assoc. cbn [app]. now rewrite <- ?app_assoc.
Qed.

Lemma search_cons (A : Type) (m : matcher A) (c : ascii) (s : text) :
  search m (c :: s)
  = match m (c :: s) with
    | Some (a, rest) => Some (a, length (c :: s) - length rest)
    | None =>
        match search m s with
        | Some (a, e) => Some (a, S e)
        | None => None
        end
    end.
Proof. reflexivity. Qed.

Lemma search_closes (A : Type) (m : matcher A) (s : text) (a : A) (e : nat) :
  closes m -> search m s = Some (a, e) ->
  e <= length s /\ exists y, firstn e s = y ++ T "/>".
Proof.
  intros Hm. revert e. induction s as [|c s IH]; intros e.
  - cbn [search]. destruct (m []) as [[b rest]|] eqn:E; [|discriminate].
    intros H. injection H as <- <-.
    apply Hm in E as (x & E). destruct x; discriminate E.
  - rewrite search_cons. destruct (m (c :: s)) as [[b rest]|] eqn:E.
    + apply Hm in E as (x & E). rewrite E.
      intros H. injection H as <- <-.
      change (x ++ "/"%char :: ">"%char :: rest) with (x ++ T "/>" ++ rest).
      split; [lia|]. exists x.
      rewrite !length_app.
      replace (length x + (length (T "/>") + length rest) - length rest)
        with (length (x ++ T "/>") + 0)
        by (rewrite length_app; lia).
      rewrite app_assoc, firstn_app_2. cbn [firstn]. now rewrite app_nil_r.
    + destruct (search m s) as [[b e']|]; [|discriminate].
      intros H. injection H as <- <-.
      destruct (IH e' eq_refl) as (Hle & y & Hy).
      split; [cbn [length]; lia|]. exists (c :: y).
      cbn [firstn]. now rewrite Hy.
Qed.

Lemma search_entry_end_closes (fmt : option xml_format) (q content : text)
  (e : nat) :
  search_entry_end fmt q content = Some e ->
  e <= length content /\ exists y, firstn e content = y ++ T "/>".
Proof.
  assert (He : forall A (m : matcher A),
            closes m -> option_map snd (search m content) = Some e ->
            e <= length content /\ exists y, firstn e content = y ++ T "/>").
  { intros A m Hm H.
    destruct (search m content) as [[a e']|] eqn:E; [|discriminate].
    injection H as <-. exact (search_closes A m content a e' Hm E). }
  unfold search_entry_end. destruct fmt as [[|]|].
  - apply He, key_elements_pattern_closes.
  - apply He, key_texts_pattern_closes.
  - apply He, key_texts_pattern_closes.
Qed.

Lemma after_predecessor_Some (fmt : option xml_format) (content : text)
  (lang_keys prevs : list text) (e : nat) :
  after_predecessor fmt content lang_keys prevs = Some e ->
  exists q,
    In q prevs /\ mem q lang_keys = true
    /\ search_entry_end fmt q content = Some e.
Proof.
  induction prevs as [|q prevs IH]; cbn [after_predecessor];
    [discriminate|].
  destruct (mem q lang_keys) eqn:Hq.
  - destruct (search_entry_end fmt q content) as [e'|] eqn:Es.
    + intros H. injection H as <-. exists q.
      split; [now left | now split].
    + intros H. destruct (IH H) as (q' & H1 & H2).
      exists q'. split; [now right | exact H2].
  - intros H. destruct (IH H) as (q' & H1 & H2).
    exists q'. split; [now right | exact H2].
Qed.

Lemma index_Raise (key : text) (l : list text) :
  ~ In key l -> index key l = Raise ValueError.
Proof.
  induction l as [|k l IH]; [reflexivity|].
  intros H. cbn [index].
  destruct (text_eqb k key) eqn:E.
  - apply text_eqb_eq in E. subst k. exfalso. apply H. now left.
  - rewrite IH; [reflexivity|]. intros Hin. apply H. now right.
Qed.

Lemma str_find_bound (p s : text) (n : nat) :
  str_find p s = Some n ->
  n <= length s /\ startswith (skipn n s) p = true.
Proof.
  intros H. apply str_find_Some in H as (pre & post & -> & <- & _).
  split; [rewrite length_app; lia|].
  rewrite skipn_app, Nat.sub_diag, skipn_all. cbn [skipn app].
  apply startswith_app.
Qed.

(** X8: [find_insert_position] raises, and then a [ValueError], exactly
    when the key is not in the order of the source.  Otherwise, a
    position it returns lies within the content, and either right behind
    the end [/>] of the first entry found for a key that stands before the
    key in the order of the source and is among the keys of the target,
    or at the first closing tag of the container; it returns no position
    only when the content has no closing tag. *)
Theorem find_insert_position_cases (content key : text)
  (en_ordered_keys lang_keys : list text) (fmt : option xml_format) :
  match find_insert_position content key en_ordered_keys lang_keys fmt with
  | Raise e => e = ValueError /\ ~ In key en_ordered_keys
  | Ok None =>
      In key en_ordered_keys /\ contains (closing_tag fmt) content = false
  | Ok (Some pos) =>
      In key en_ordered_keys /\ pos <= length content
      /\ ((exists q y,
             In q (predecessors key en_ordered_keys)
             /\ mem q lang_keys = true
             /\ search_entry_end fmt q content = Some pos
             /\ firstn pos content = y ++ T "/>")
          \/ (str_find (closing_tag fmt) content = Some pos
              /\ startswith (skipn pos content) (closing_tag fmt) = true))
  end.
Proof.
  destruct (in_dec (list_eq_dec ascii_dec) key en_ordered_keys) as [Hin|Hn].
  - rewrite find_insert_position_Ok by exact Hin.
    unfold insert_position.
    destruct (after_predecessor _ _ _ _) as [e|] eqn:Ea.
    + apply after_predecessor_Some in Ea as (q & Hq & Hm & Es).
      destruct (search_entry_end_closes fmt q content e Es) as (Hle & y & Hy).
      split; [exact Hin|]. split; [exact Hle|]. left. exists q, y.
      repeat split; assumption.
    + destruct (str_find (closing_tag fmt) content) as [n|] eqn:Ef.
      * destruct (str_find_bound _ _ _ Ef) as [Hle Hs].
        split; [exact Hin|]. split; [exact Hle|]. right. now split.
      * split; [exact Hin|]. unfold contains. now rewrite Ef.
  - unfold find_insert_position. rewrite index_Raise by exact Hn.
    cbn [bind]. now split.
Qed.

(** ** Finding the files *)

Lemma first_prefix_listed_None (names : list text) :
  first_prefix_listed names = None <-> forallb unmatched names = true.
Proof.
  induction names as [|n names IH]; [now split|].
  cbn [first_prefix_listed forallb]. unfold unmatched at 1.
  destruct (is_lang_filename (T "lang") n); cbn [negb andb];
    [split; discriminate|].
  destruct (is_lang_filename (T "translation") n); cbn [negb andb];
    [split; discriminate|].
  destruct (is_lang_filename (T "l10n") n); cbn [negb andb];
    [split; discriminate|].
  exact IH.
Qed.

Lemma source_name_matched (p : file_prefix) :
  unmatched (get_source_file_path p) = false.
Proof. destruct p; reflexivity. Qed.

Lemma unmatched_no_source (d : dir) (p : file_prefix) :
  forallb unmatched (listdir d) = true ->
  exists_file (get_source_file_path p) d = false.
Proof.
  intros H. destruct (exists_file _ d) eqn:E; [|reflexivity].
  rewrite exists_file_listdir in E. apply mem_In in E.
  rewrite forallb_forall in H. apply H in E.
  now rewrite source_name_matched in E.
Qed.

Lemma auto_detect_file_prefix_None (d : dir) :
  auto_detect_file_prefix d = None <-> forallb unmatched (listdir d) = true.
Proof.
  unfold auto_detect_file_prefix. cbn [filePrefix CONFIG]. split.
  - destruct (exists_file (get_source_file_path Lang) d); [discriminate|].
    destruct (exists_file (get_source_file_path Translation) d);
      [discriminate|].
    destruct (exists_file (get_source_file_path L10n) d); [discriminate|].
    apply first_prefix_listed_None.
  - intros H. rewrite !(unmatched_no_source d _ H).
    now apply first_prefix_listed_None.
Qed.

(** X9: the tool finds no file prefix exactly when no name in the
    directory has the form of a translation file, [lang_xx.xml],
    [translation_xx.xml] or [l10n_xx.xml] with two letters, in any case;
    every command other than help then exits with status 1 and leaves the
    directory as it is. *)
Theorem no_translation_files
  (is_format_only_string is_cognate_or_international_term : text -> bool)
  (d : dir) :
  (auto_detect_file_prefix d = None
   <-> forallb unmatched (listdir d) = true)
  /\ (forallb unmatched (listdir d) = true ->
      forall c,
        main is_format_only_string is_cognate_or_international_term c d
        = (match c with Help => Returned | _ => Exit 1 end, d)).
Proof.
  split; [apply auto_detect_file_prefix_None|].
  intros H c. apply auto_detect_file_prefix_None in H.
  destruct c; cbn [main];
    unfold sync_translations, check_sync, show_status, generate_report,
      validate_sync; rewrite ?H; reflexivity.
Qed.

(** ** The target languages *)





(** ** The sync command on any directory *)

Lemma sync_one_total (p : file_prefix) (fmt : option xml_format)
  (source : parsed) (d : dir) (lang_code : text) :
  coherent source -> proper (entries source) ->
  exists d',
    sync_one p fmt source d lang_code = Ok d'
    /\ map fst d' = map fst d
    /\ (forall n, n <> get_lang_file_path p lang_code ->
          dict_get n d' = dict_get n d).
Proof.
  intros Hc Hp. unfold sync_one.
  destruct (exists_file (get_lang_file_path p lang_code) d) eqn:Ex;
    cbn [negb].
  2:{ exists d. now repeat split. }
  destruct (proj1 (read_file_Ok _ _) Ex) as [content Hr].
  rewrite Hr. cbn [bind].
  pose proof (@sync_language_Ok fmt source content Hc Hp) as E.
  cbv zeta in E. rewrite E. cbn [bind new_content].
  eexists. split; [reflexivity|]. split.
  - now apply write_file_names.
  - intros n Hn. unfold write_file. apply dict_get_set_other.
    intros H. now apply Hn.
Qed.

Lemma sync_all_total (p : file_prefix) (fmt : option xml_format)
  (source : parsed) (langs : list text) :
  coherent source -> proper (entries source) ->
  forall d,
    exists d',
      sync_all p fmt source langs d = (Returned, d')
      /\ map fst d' = map fst d
      /\ (forall n,
            (forall c, In c langs -> n <> get_lang_file_path p c) ->
            dict_get n d' = dict_get n d).
Proof.
  intros Hc Hp. induction langs as [|l langs IH]; intros d; cbn [sync_all].
  - exists d. now repeat split.
  - destruct (sync_one_total p fmt source d l Hc Hp) as (d1 & E1 & N1 & G1).
    rewrite E1. destruct (IH d1) as (d' & E & N & G).
    exists d'. split; [exact E|]. split; [congruence|].
    intros n Hn. rewrite G by (intros c Hin; apply Hn; now right).
    apply G1. apply Hn. now left.
Qed.



(** ** The validate command *)

Lemma has_missing_existsb (source_entries lang_entries : dict entry) :
  existsb (fun item : text * entry => negb (dict_mem (fst item) lang_entries))
    source_entries = true
  <-> has_missing source_entries lang_entries.
Proof.
  rewrite existsb_exists. unfold has_missing. split.
  - intros ([k e] & Hin & H). exists k. cbn [fst] in H.
    apply negb_true_iff in H. split; [|exact H].
    apply dict_mem_keys. now apply (in_map fst) in Hin.
  - intros (k & Hs & Ht). apply dict_mem_keys, in_map_iff in Hs
      as ([k' e] & E & Hin).
    cbn [fst] in E. subst k'. exists (k, e). split; [exact Hin|].
    cbn [fst]. now rewrite Ht.
Qed.

Lemma validate_all_Ok (d : dir) (p : file_prefix) (fmt : option xml_format)
  (source_entries : dict entry) (langs : list text) :
  exists b,
    validate_all p fmt source_entries d langs = Ok b
    /\ (b = true
        <-> exists lang_code,
              In lang_code langs
              /\ lacking d p fmt source_entries lang_code).
Proof.
  induction langs as [|l langs IH]; cbn [validate_all].
  - exists false. split; [reflexivity|].
    split; [discriminate | now intros (x & [] & _)].
  - destruct (exists_file (get_lang_file_path p l) d) eqn:Ex; cbn [negb].
    2:{ exists true. split; [reflexivity|]. split; [|reflexivity].
        intros _. exists l. split; [now left | now left]. }
    destruct (proj1 (read_file_Ok _ _) Ex) as [content Hr].
    unfold parse_translation_file. rewrite Hr. cbn [bind].
    destruct (existsb _ source_entries) eqn:Em.
    + exists true. split; [reflexivity|]. split; [|reflexivity].
      intros _. exists l. split; [now left|]. right. exists content.
      split; [exact Hr|]. now apply has_missing_existsb.
    + destruct IH as (b & H & Hb). exists b. split; [exact H|].
      rewrite Hb. split.
      * intros (x & Hx & Hl). exists x. split; [now right | exact Hl].
      * intros (x & [<-|Hx] & Hl); [|now exists x].
        exfalso. destruct Hl as [Hl|(c & Hc & Hl)]; [congruence|].
        assert (c = content) by congruence. subst c.
        apply has_missing_existsb in Hl. congruence.
Qed.

(** X12: once the source file is found, the validate command exits with
    status 1 when some target language has no file or lacks a key of the
    source, and with status 0 otherwise; duplicates, orphaned keys, stale
    and untranslated entries do not count. *)
Theorem validate_exit_code_policy (d : dir) (p : file_prefix)
  (source_content : text) :
  auto_detect_file_prefix d = Some p ->
  read_file (get_source_file_path p) d = Ok source_content ->
  let fmt := auto_detect_xml_format source_content in
  let source_entries := entries (parse_content source_content fmt) in
  let problem :=
    exists lang_code,
      In lang_code (get_enabled_languages d)
      /\ lacking d p fmt source_entries lang_code in
  (validate_sync d = Exit 1 <-> problem)
  /\ (validate_sync d = Exit 0 <-> ~ problem).
Proof.
  intros Hp Hr fmt source_entries problem.
  unfold validate_sync. rewrite Hp.
  assert (Hex : exists_file (get_source_file_path p) d = true)
    by (apply read_file_Ok; now exists source_content).
  rewrite Hex. cbn [negb]. unfold parse_translation_file.
  rewrite Hr. cbn [bind]. fold fmt. fold source_entries.
  destruct (validate_all_Ok d p fmt source_entries (get_enabled_languages d))
    as (b & H & Hb).
  rewrite H. cbn [bind outcome_of]. fold problem in Hb.
  destruct b; split; split; try discriminate; try easy.
  - intros _. now apply Hb.
  - intros Hn. exfalso. apply Hn. now apply Hb.
  - intros Hpb. apply Hb in Hpb. discriminate.
  - intros _ Hpb. apply Hb in Hpb. discriminate.
Qed.

Lemma validate_exit_code_policy_witness :
  auto_detect_file_prefix translated_dir = Some Lang
  /\ read_file (get_source_file_path Lang) translated_dir = Ok hello_source
  /\ (let fmt := auto_detect_xml_format hello_source in
      let source_entries := entries (parse_content hello_source fmt) in
      let problem :=
        exists lang_code,
          In lang_code (get_enabled_languages translated_dir)
          /\ lacking translated_dir Lang fmt source_entries lang_code in
      (validate_sync translated_dir = Exit 1 <-> problem)
      /\ (validate_sync translated_dir = Exit 0 <-> ~ problem)).
Proof.
  split; [reflexivity|]. split; [reflexivity|].
  exact (validate_exit_code_policy translated_dir Lang hello_source
           eq_refl eq_refl).
Defined.



(** ** The status and the report command *)

Lemma classes_partition (A : Type) (g : A -> option category)
  (key : A -> text) (l : list A) :
  Permutation
    (map key (filter (fun i => same_class (g i) (Some Translated)) l)
     ++ map key (filter (fun i => same_class (g i) None) l)
     ++ map key (filter (fun i => same_class (g i) (Some Stale)) l)
     ++ map key (filter (fun i => same_class (g i) (Some Untranslated)) l))
    (map key l).
Proof.
  induction l as [|a l IH]; [constructor|].
  cbn [filter map]. destruct (g a) as [[| |]|]; cbn [same_class map app].
  - rewrite !app_assoc. symmetry. apply Permutation_cons_app.
    rewrite <- !app_assoc. now symmetry.
  - rewrite (app_assoc (map key (filter _ l)) (map key (filter _ l))).
    symmetry. apply Permutation_cons_app.
    rewrite <- app_assoc. now symmetry.
  - now constructor.
  - symmetry. apply Permutation_cons_app. now symmetry.
Qed.

(** X14: the comparison the status and the report command make for a
    language sorts every key of the source into exactly one of the four
    lists, translated, missing, stale and untranslated: together they are
    a rearrangement of the keys of the source, and the four figures of a
    line of the status table add up to the number of source keys. *)
Theorem comparison_partitions_source
  (is_format_only_string is_cognate_or_international_term : text -> bool)
  (fmt : option xml_format) (source_content lang_content : text) :
  let source_entries := entries (parse_content source_content fmt) in
  let lang := parse_content lang_content fmt in
  exists c row,
    compare_language is_format_only_string
      is_cognate_or_international_term fmt source_entries lang = Ok c
    /\ status_language is_format_only_string
         is_cognate_or_international_term fmt source_entries lang = Ok row
    /\ Permutation
         (cmp_translated c ++ cmp_missing c ++ cmp_stale c
          ++ cmp_untranslated c)
         (map fst source_entries)
    /\ st_translated row + st_missing row + st_stale row
       + st_untranslated row
       = length source_entries.
Proof.
  intros source_entries lang.
  pose proof (@compare_language_Ok is_format_only_string
                is_cognate_or_international_term fmt source_entries lang
                (parse_content_proper source_content fmt)) as E.
  eexists. eexists. split; [exact E|]. split.
  { unfold status_language. rewrite E. cbn [bind]. reflexivity. }
  cbn [cmp_translated cmp_missing cmp_stale cmp_untranslated
       st_translated st_missing st_stale st_untranslated].
  assert (P := classes_partition (text * entry)
                 (class_of is_format_only_string
                    is_cognate_or_international_term fmt (entries lang))
                 fst source_entries).
  split; [exact P|].
  apply Permutation_length in P.
  rewrite !length_app, !length_map in P. unfold keys_of_class.
  rewrite !length_map. lia.
Qed.



(** ** The hashes of the source file *)







(** ** What the sync command does to a well-formed target *)

Lemma contains_tag_render (f : xml_format) (D : doc) :
  wf_doc f D = true ->
  contains (closing_tag (Some f)) (render f D) = doc_tagged f D.
Proof.
  intros H. unfold doc_tagged. unfold contains at 1.
  rewrite (str_find_tag_render f D H). unfold contains.
  destruct (str_find (closing_tag (Some f)) (head D)); [reflexivity|].
  cbn [orb]. destruct (tag_pos f (body D)) eqn:E; cbn [option_map].
  - destruct (tagged f (body D)) eqn:Et; [reflexivity|].
    apply (tag_pos_tagged f) in Et. congruence.
  - apply (tag_pos_tagged f) in E. now rewrite E.
Qed.

Lemma add_key_count (f : xml_format) (se : dict entry) (order : list text)
  (st : adding) (d : doc) (k : text) (src : entry) :
  models f st d ->
  (forall q, In q order -> good_key q = true) ->
  dict_get k se = Some src ->
  let p := place_of f order k d in
  added (add_key (Some f) se order st k)
  = (if placed p then S (added st) else added st)
  /\ length (keys (put f p (new_elem f k src) d))
     = (if placed p then S (length (keys d)) else length (keys d))
  /\ (doc_tagged f d = true -> placed p = true).
Proof.
  intros (Hwf & Hc & Hks) Hgood Es p.
  assert (Hfree : forall q, In q order -> free dq q = true)
    by (intros q Hq; now apply good_key_spec, Hgood).
  split; [|split].
  - destruct st as [c ks n]. cbn [add_content add_key_set added] in *.
    subst c. now rewrite (add_key_render f se order d ks n k src Hwf Hks
                            Hfree Es).
  - destruct (placed p) eqn:Hp.
    + destruct (put_elems f order k (new_elem f k src) d Hp)
        as (l1 & l2 & E1 & E2).
      unfold keys, p. rewrite E1, E2, !length_map, !length_app.
      cbn [length]. lia.
    + unfold p in *. now rewrite put_nowhere.
  - intros Ht. unfold p. rewrite placed_stuck. unfold stuck.
    rewrite Ht. cbn [negb]. now rewrite andb_false_r.
Qed.

Lemma add_loop_count (f : xml_format) (se : dict entry)
  (order L : list text) :
  (forall q, In q order -> good_key q = true) ->
  (forall k, In k L -> In k order /\ exists src, dict_get k se = Some src) ->
  forall st d,
    models f st d ->
    exists d',
      models f (fold_left (add_key (Some f) se order) L st) d'
      /\ length (keys d') + added st
         = length (keys d)
           + added (fold_left (add_key (Some f) se order) L st)
      /\ doc_tagged f d' = doc_tagged f d
      /\ (doc_tagged f d = true ->
          added (fold_left (add_key (Some f) se order) L st)
          = added st + length L).
Proof.
  intros Hgood. induction L as [|k L IH]; intros HL st d Hm.
  - exists d. cbn [fold_left length]. split; [exact Hm|].
    split; [lia|]. split; [reflexivity|]. intros _. lia.
  - destruct (HL k (or_introl eq_refl)) as (Hk & src & Es).
    pose proof (add_key_models f se order st d k src Hm Hgood Hk Es) as Hm1.
    destruct (add_key_count f se order st d k src Hm Hgood Es)
      as (Ha & Hl & Hp).
    pose proof (put_tagged f order k (new_elem f k src) d) as Ht.
    destruct (IH (fun k' Hk' => HL k' (or_intror Hk')) _ _ Hm1)
      as (d' & Hm' & Hcount & Htag & Hall).
    exists d'. cbn [fold_left]. split; [exact Hm'|].
    split; [|split].
    + rewrite Hl, Ha in Hcount.
      destruct (placed (place_of f order k d)); lia.
    + congruence.
    + intros Hd. rewrite Hall by congruence. rewrite Ha, (Hp Hd).
      cbn [length]. lia.
Qed.



(** What the sync command writes for a well-formed target, with the
    number of entries it adds. *)
Lemma sync_language_count (f : xml_format) (source : parsed) (D : doc) :
  regular source -> wf_doc f D = true ->
  exists r D',
    sync_language (Some f) source (render f D) = Ok r
    /\ new_content r = render f D'
    /\ wf_doc f D' = true
    /\ doc_tagged f D' = doc_tagged f D
    /\ length (keys D') = length (keys D) + sync_added r
    /\ (doc_tagged f D = true -> sync_added r = length (sync_missing r)).
Proof.
  intros Hreg HD. pose proof Hreg as (Hcoh & Hprop & Hgood & Hlisted).
  rewrite (@sync_language_Ok (Some f) source (render f D) Hcoh Hprop).
  cbv zeta.
  set (le := entries (parse_content (render f D) (Some f))).
  set (missing := missing_keys (ordered_keys source) le).
  set (init := {| add_content := render f D;
                  add_key_set :=
                    ordered_keys (parse_content (render f D) (Some f));
                  added := 0 |}).
  assert (Hinit : models f init D).
  { split; [exact HD|]. split; [reflexivity|]. intros x.
    unfold init. cbn [add_key_set]. now rewrite keys_render. }
  assert (HL : forall k, In k missing ->
             In k (ordered_keys source)
             /\ exists src, dict_get k (entries source) = Some src).
  { intros k Hk. apply missing_keys_In in Hk as [Hk _].
    split; [exact Hk|]. apply dict_mem_get. now apply Hcoh. }
  destruct (add_loop_count f (entries source) (ordered_keys source) missing
              Hgood HL init D Hinit)
    as (d' & (Hwf' & Hc' & Hks') & Hcount & Htag & Hall).
  eexists. exists (map_elems (refresh_elem f source (render f D)) d').
  split; [reflexivity|].
  cbn [new_content sync_missing sync_added]. split.
  { rewrite Hc'. now apply refresh_loop_render. }
  split.
  { apply wf_map_elems; [|exact Hwf']. intros e. apply wf_refresh_elem. }
  split; [now rewrite doc_tagged_map_elems|]. split.
  { rewrite keys_map_elems by (intros e; apply refresh_elem_key).
    cbn [added init] in Hcount. lia. }
  intros Ht. rewrite (Hall Ht). reflexivity.
Qed.



(** The sync command on a well-formed target that has a closing tag of
    the container. *)
Lemma sync_language_closed (f : xml_format) (source : parsed) (D : doc) :
  regular source -> wf_doc f D = true -> doc_tagged f D = true ->
  exists r D',
    sync_language (Some f) source (render f D) = Ok r
    /\ new_content r = render f D'
    /\ wf_doc f D' = true
    /\ doc_tagged f D' = true
    /\ sync_added r = length (sync_missing r)
    /\ complete (Some f) source (new_content r).
Proof.
  intros Hreg HD Ht.
  destruct (sync_language_render f source D Hreg HD)
    as (r & d_add & E & Ec & Em & _ & Hadd & (_ & _ & Hkeys) & Htag & HJ).
  destruct (sync_language_count f source D Hreg HD)
    as (r' & D' & E' & Ec' & Hwf' & Htag' & _ & Hall).
  assert (r' = r) by congruence. subst r'.
  exists r, D'. split; [exact E|]. split; [exact Ec'|].
  split; [exact Hwf'|]. split; [congruence|]. split; [now apply Hall|].
  set (g := refresh_elem f source (render f D)) in *.
  assert (Hkey : forall e, e_key (g e) = e_key e)
    by (intros e; apply refresh_elem_key).
  assert (Hwf1 : wf_doc f (map_elems g d_add) = true).
  { apply wf_map_elems; [|exact Hadd]. intros e. apply wf_refresh_elem. }
  intros k Hk. rewrite parse_content_mem.
  rewrite Ec, (keys_render f _ Hwf1), (keys_map_elems g d_add Hkey).
  destruct (dict_get k (entries (parse_content (render f D) (Some f))))
    as [t|] eqn:Eg.
  - apply Hkeys. rewrite <- (keys_render f D HD), <- parse_content_mem.
    unfold dict_mem. now rewrite Eg.
  - assert (Hm : In k (sync_missing r))
      by (rewrite Em; apply missing_keys_In; now split).
    destruct (HJ k Hm) as [H|H]; [exact H|].
    unfold stuck in H. rewrite Htag, Ht in H. cbn [negb] in H.
    rewrite andb_false_r in H. discriminate.
Qed.

(** X18: when a well-formed target has a closing tag of the container
    outside its entries, the sync command finds a place for every missing
    key: it adds as many entries as it reports keys missing, the file it
    writes has every key of the source, and it still has the closing
    tag. *)
Theorem sync_completes_closed_target (f : xml_format) (Src D : doc) :
  wf_doc f Src = true -> wf_doc f D = true ->
  contains (closing_tag (Some f)) (render f D) = true ->
  let fmt := Some f in
  let source := parse_content (render f Src) fmt in
  exists r,
    sync_language fmt source (render f D) = Ok r
    /\ sync_added r = length (sync_missing r)
    /\ complete fmt source (new_content r)
    /\ contains (closing_tag fmt) (new_content r) = true.
Proof.
  intros HS HD Ht fmt source. subst fmt.
  rewrite (contains_tag_render f D HD) in Ht.
  destruct (sync_language_closed f source D (regular_render f Src HS) HD Ht)
    as (r & D' & E & Ec & Hwf' & Ht' & Ha & Hc).
  exists r. split; [exact E|]. split; [exact Ha|]. split; [exact Hc|].
  now rewrite Ec, (contains_tag_render f D' Hwf').
Qed.

Lemma sync_completes_closed_target_witness :
  wf_doc Elements sample_source = true /\ wf_doc Elements sample_target = true
  /\ contains (closing_tag (Some Elements)) (render Elements sample_target)
     = true
  /\ exists r,
       sync_language (Some Elements)
         (parse_content (render Elements sample_source) (Some Elements))
         (render Elements sample_target) = Ok r
       /\ sync_added r = length (sync_missing r)
       /\ complete (Some Elements)
            (parse_content (render Elements sample_source) (Some Elements))
            (new_content r)
       /\ contains (closing_tag (Some Elements)) (new_content r) = true.
Proof.
  split; [reflexivity|]. split; [reflexivity|]. split; [reflexivity|].
  exact (sync_completes_closed_target Elements sample_source sample_target
           eq_refl eq_refl eq_refl).
Defined.

(** ** The sync command, then the validate command *)






(** ** The texts dialect *)



(** ** What the validation reports *)

Lemma check_format_specifiers_key (s t k : text) (i : issue) :
  check_format_specifiers s t k = Some i ->
  issue_key i = k
  /\ (issue_kind i = Count \/ issue_kind i = Mismatch).
Proof.
  unfold check_format_specifiers.
  destruct (negb _); [intros [= <-]; split; [reflexivity | now left]|].
  destruct (first_difference _ _);
    [intros [= <-]; split; [reflexivity | now right] | discriminate].
Qed.

(** X21: every issue the validation of the sync command reports is about
    a key that the source and the target both have and whose target value
    does not begin with the untranslated prefix; it is an empty-value
    issue only for an empty target value, a white-space issue only for a
    target value that [has_whitespace_issues] flags, and otherwise the
    issue [check_format_specifiers] returns for the two values. *)
Theorem validation_issues_sound (source_entries lang_entries : dict entry)
  (i : issue) :
  In i (validation_issues source_entries lang_entries) ->
  exists src tgt,
    In (issue_key i, src) source_entries
    /\ dict_get (issue_key i) lang_entries = Some tgt
    /\ startswith (value tgt) (untranslatedPrefix CONFIG) = false
    /\ match issue_kind i with
       | Empty => value tgt = []
       | Whitespace => has_whitespace_issues (value tgt) = true
       | Count | Mismatch =>
           check_format_specifiers (value src) (value tgt) (issue_key i)
           = Some i
       end.
Proof.
  unfold validation_issues. rewrite in_flat_map.
  intros ([k src] & Hin & H).
  destruct (dict_get k lang_entries) as [tgt|] eqn:Eg; [|contradiction].
  unfold validate_entry in H.
  destruct (startswith (value tgt) (untranslatedPrefix CONFIG)) eqn:Ep;
    [contradiction|].
  exists src, tgt.
  apply in_app_or in H as [H|H]; [|apply in_app_or in H as [H|H]].
  - destruct (is_empty_value (value tgt)) eqn:Ee; [|contradiction].
    destruct H as [<-|[]]. cbn [issue_key issue_kind].
    repeat split; try assumption.
    now destruct (value tgt).
  - destruct (has_whitespace_issues (value tgt)) eqn:Ew; [|contradiction].
    destruct H as [<-|[]]. cbn [issue_key issue_kind].
    now repeat split.
  - destruct (check_format_specifiers (value src) (value tgt) k)
      as [fi|] eqn:Ef; [|contradiction].
    destruct H as [<-|[]].
    destruct (check_format_specifiers_key _ _ _ _ Ef) as [Hk Hkind].
    rewrite Hk. repeat split; try assumption.
    destruct Hkind as [-> | ->]; exact Ef.
Qed.

Lemma validation_issues_sound_witness :
  let source_entries :=
    [(T "a", {| value := T "%d items"; hash := None |})] in
  let lang_entries :=
    [(T "a", {| value := T " Dinge"; hash := None |})] in
  let i := {| issue_key := T "a"; issue_kind := Whitespace;
              issue_source := []; issue_target := [] |} in
  In i (validation_issues source_entries lang_entries)
  /\ exists src tgt,
       In (issue_key i, src) source_entries
       /\ dict_get (issue_key i) lang_entries = Some tgt
       /\ startswith (value tgt) (untranslatedPrefix CONFIG) = false
       /\ has_whitespace_issues (value tgt) = true.
Proof.
  intros source_entries lang_entries i.
  assert (H : In i (validation_issues source_entries lang_entries))
    by (vm_compute; now left).
  split; [exact H|].
  exact (validation_issues_sound source_entries lang_entries i H).
Defined.

(** ** Dialect detection and parsing *)

Lemma finditer_none (A : Type) (m : matcher A) (p s : text) :
  shorter m -> requires_prefix m p -> contains p s = false ->
  finditer m s = [].
Proof.
  intros Hs Hr Hc. unfold contains in Hc.
  destruct (str_find p s) eqn:E; [discriminate|].
  rewrite <- (app_nil_r s).
  rewrite (@finditer_dead A m Hs s []); [now apply finditer_nil|].
  intros s1 s2 Es _. apply Hr. rewrite app_nil_r.
  exact (proj1 (str_find_None p s) E s1 s2 Es).
Qed.

Lemma parse_no_occurrence (content : text) (fmt : option xml_format) :
  occurrences content fmt = [] ->
  entries (parse_content content fmt) = []
  /\ ordered_keys (parse_content content fmt) = [].
Proof.
  unfold occurrences, parse_content. intros ->. now split.
Qed.

(** X22: dialect detection and parsing agree on files without entries:
    when no dialect is detected, the content has no entry under either
    pattern, so that every command that goes on parses an empty file;
    when the texts dialect is detected, the content has no entry of the
    elements pattern. *)
Theorem undetected_file_has_no_entries (content : text) :
  match auto_detect_xml_format content with
  | None =>
      forall fmt,
        entries (parse_content content fmt) = []
        /\ ordered_keys (parse_content content fmt) = []
  | Some Texts =>
      entries (parse_content content (Some Elements)) = []
      /\ ordered_keys (parse_content content (Some Elements)) = []
  | Some Elements => contains (Q "<e k='") content = true
  end.
Proof.
  unfold auto_detect_xml_format. cbn [xmlFormat CONFIG].
  destruct (contains (Q "<e k='") content) eqn:He; [reflexivity|].
  assert (Ho : occurrences content (Some Elements) = []).
  { apply (finditer_none _ elements_pattern (Q "<e k='"));
      [apply elements_pattern_shorter | apply elements_pattern_requires
      | exact He]. }
  destruct (contains (Q "<text name='") content) eqn:Ht.
  - now apply parse_no_occurrence.
  - intros fmt. apply parse_no_occurrence.
    destruct fmt as [[|]|]; [exact Ho| |];
      apply (finditer_none _ texts_pattern (Q "<text name='"));
      try apply texts_pattern_shorter; try apply texts_pattern_requires;
      exact Ht.
Qed.

(** ** A target without entries *)

Lemma index_of_fresh (k : text) (done todo : list text) :
  ~ In k done -> index_of k (done ++ k :: todo) = length done.
Proof.
  induction done as [|a done IH]; intros H; cbn [app index_of length].
  - now rewrite text_eqb_refl.
  - assert (E : text_eqb a k = false).
    { apply text_eqb_neq. intros ->. apply H. now left. }
    rewrite E, IH; [reflexivity|]. intros Hin. apply H. now right.
Qed.

Lemma predecessors_fresh (k : text) (done todo : list text) :
  ~ In k done -> predecessors k (done ++ k :: todo) = rev done.
Proof.
  intros H. unfold predecessors. rewrite (index_of_fresh k done todo H).
  now rewrite firstn_app, Nat.sub_diag, firstn_all, app_nil_r.
Qed.

Lemma insert_after_last (q : text) (new : elem) (b : list (elem * text)) :
  forall l1,
    map e_key (map fst b) = l1 ++ [q] -> ~ In q l1 ->
    map fst (insert_after q new b) = map fst b ++ [new].
Proof.
  induction b as [|[e c] b IH]; intros l1 H Hn.
  - destruct l1; discriminate.
  - cbn [insert_after map fst] in *.
    destruct (text_eqb (e_key e) q) eqn:E.
    + apply text_eqb_eq in E. destruct l1 as [|a l1].
      * injection H as _ H. apply map_eq_nil in H. apply map_eq_nil in H.
        subst b. reflexivity.
      * injection H as H _. exfalso. apply Hn. left. congruence.
    + apply text_eqb_neq in E. destruct l1 as [|a l1].
      * injection H as H _. contradiction.
      * injection H as _ H. cbn [map fst app]. f_equal.
        apply (IH l1 H). intros Hin. apply Hn. now right.
Qed.

Lemma put_fresh (f : xml_format) (done todo : list text) (k : text)
  (new : elem) (d : doc) :
  NoDup (done ++ k :: todo) -> keys d = done ->
  (done = [] -> doc_tagged f d = true) ->
  placed (place_of f (done ++ k :: todo) k d) = true
  /\ elems (put f (place_of f (done ++ k :: todo) k d) new d)
     = elems d ++ [new].
Proof.
  intros Hnd Hk Ht.
  assert (Hkd : ~ In k done).
  { apply NoDup_remove_2 in Hnd. intros H. apply Hnd.
    apply in_or_app. now left. }
  unfold place_of. rewrite (predecessors_fresh k done todo Hkd).
  destruct done as [|q done' _] using rev_ind.
  - cbn [rev find].
    assert (Hb : body d = []).
    { unfold keys, elems in Hk. apply map_eq_nil in Hk.
      now apply map_eq_nil in Hk. }
    specialize (Ht eq_refl). unfold doc_tagged in Ht.
    rewrite Hb in Ht. cbn [tagged existsb] in Ht.
    rewrite orb_false_r in Ht. unfold contains in Ht.
    destruct (str_find (closing_tag (Some f)) (head d)) as [n|];
      [|discriminate].
    split; [reflexivity|]. unfold elems. cbn [put body map fst].
    now rewrite Hb.
  - rewrite rev_app_distr. cbn [rev app find].
    rewrite Hk, mem_app. cbn [mem existsb].
    rewrite text_eqb_refl, orb_true_r.
    split; [reflexivity|]. unfold elems. cbn [put body].
    apply (insert_after_last q new (body d) done'); [exact Hk|].
    apply NoDup_app_remove_r in Hnd.
    apply NoDup_remove_2 in Hnd. now rewrite app_nil_r in Hnd.
Qed.

Lemma fresh_loop (f : xml_format) (se : dict entry) (order : list text) :
  NoDup order ->
  (forall q, In q order -> good_key q = true) ->
  (forall k, In k order -> exists src, dict_get k se = Some src) ->
  forall todo done st d,
    order = done ++ todo -> models f st d -> keys d = done ->
    (done = [] -> doc_tagged f d = true) ->
    exists d',
      models f (fold_left (add_key (Some f) se order) todo st) d'
      /\ elems d' = elems d ++ placeholders f se todo
      /\ added (fold_left (add_key (Some f) se order) todo st)
         = added st + length todo.
Proof.
  intros Hnd Hgood Hse. induction todo as [|k todo IH];
    intros done st d Ho Hm Hk Ht.
  - exists d. cbn [fold_left placeholders flat_map length].
    split; [exact Hm|]. split; [now rewrite app_nil_r | lia].
  - assert (Hin : In k order)
      by (rewrite Ho; apply in_or_app; right; now left).
    destruct (Hse k Hin) as [src Es].
    pose proof (add_key_models f se order st d k src Hm Hgood Hin Es)
      as Hm1.
    destruct (add_key_count f se order st d k src Hm Hgood Es)
      as (Ha & _ & _).
    rewrite Ho in Hnd.
    destruct (put_fresh f done todo k (new_elem f k src) d Hnd Hk Ht)
      as (Hp & He).
    rewrite <- Ho in Hnd, Hp, He. rewrite Hp in Ha.
    assert (Ho' : order = (done ++ [k]) ++ todo)
      by (rewrite Ho, <- app_assoc; reflexivity).
    destruct (IH (done ++ [k]) _ _ Ho' Hm1) as (d' & Hm' & He' & Ha').
    + unfold keys. rewrite He, map_app. cbn [map new_elem e_key].
      unfold keys in Hk. now rewrite Hk.
    + intros E. destruct done; discriminate E.
    + exists d'. cbn [fold_left]. split; [exact Hm'|]. split.
      * rewrite He', He, <- app_assoc. cbn [placeholders flat_map].
        now rewrite Es.
      * rewrite Ha', Ha. cbn [length]. lia.
Qed.

Lemma placeholders_keys (f : xml_format) (se : dict entry)
  (ks : list text) :
  (forall k, In k ks -> exists src, dict_get k se = Some src) ->
  map e_key (placeholders f se ks) = ks.
Proof.
  induction ks as [|k ks IH]; intros H; [reflexivity|].
  cbn [placeholders flat_map]. destruct (H k (or_introl eq_refl)) as [s Es].
  rewrite Es, map_app. cbn [map new_elem e_key app]. f_equal.
  apply IH. intros x Hx. apply H. now right.
Qed.

Lemma placeholders_last (f : xml_format) (se : dict entry)
  (ks : list text) (k : text) (src : entry) :
  (forall x, In x ks -> exists s, dict_get x se = Some s) ->
  In k ks -> dict_get k se = Some src ->
  last_elem k (placeholders f se ks) = Some (new_elem f k src).
Proof.
  intros Hse. induction ks as [|a ks IH]; intros Hin Es; [contradiction|].
  cbn [placeholders flat_map]. fold (placeholders f se ks).
  rewrite last_elem_app.
  assert (Hse' : forall x, In x ks -> exists s, dict_get x se = Some s)
    by (intros x Hx; apply Hse; now right).
  destruct (in_dec (list_eq_dec ascii_dec) k ks) as [Hk|Hk].
  - now rewrite (IH Hse' Hk Es).
  - destruct Hin as [->|Hin]; [|contradiction].
    assert (Hn : last_elem k (placeholders f se ks) = None).
    { apply last_elem_None. now rewrite (placeholders_keys f se ks Hse'). }
    rewrite Hn, Es. cbn [last_elem new_elem e_key].
    now rewrite text_eqb_refl.
Qed.

Lemma new_elem_read (f : xml_format) (source : parsed) (content k : text)
  (src : entry) :
  dict_get k (entries source) = Some src ->
  entry_of_elem f (refresh_elem f source content (new_elem f k src))
  = written_entry (Some f) (untranslatedPrefix CONFIG ++ value src)
      (get_hash (value src)).
Proof.
  intros Es. destruct f; cbn [refresh_elem].
  - assert (E : rewrite_by (refreshes source content) (entries source)
                  (new_elem Elements k src)
                = new_elem Elements k src).
    { unfold rewrite_by. cbn [new_elem e_key]. rewrite Es.
      destruct (refreshes source content (k, src)); [|reflexivity].
      apply new_elem_settled. }
    rewrite E. pose proof (new_elem_entry k src) as Hh.
    rewrite entry_of_elem_elements in *. cbn [hash] in Hh.
    unfold written_entry. cbn [is_elements]. rewrite Hh. reflexivity.
  - reflexivity.
Qed.

(** X23: a well-formed target that has no entry but a closing tag of the
    container is filled in the order of the source: when no key stands
    twice in the well-formed source, the file written has exactly the
    keys of the source, in the order of the source, each with the escaped
    source value behind the prefix and, in the elements dialect, the
    fingerprint of the source value. *)
Theorem fresh_target_in_source_order (f : xml_format) (Src D : doc) :
  wf_doc f Src = true -> wf_doc f D = true ->
  NoDup (keys Src) -> elems D = [] ->
  contains (closing_tag (Some f)) (render f D) = true ->
  let fmt := Some f in
  let source := parse_content (render f Src) fmt in
  exists r,
    sync_language fmt source (render f D) = Ok r
    /\ sync_added r = length (keys Src)
    /\ ordered_keys (parse_content (new_content r) fmt) = keys Src
    /\ forall k src,
         dict_get k (entries source) = Some src ->
         dict_get k (entries (parse_content (new_content r) fmt))
         = Some (written_entry fmt (untranslatedPrefix CONFIG ++ value src)
                   (get_hash (value src))).
Proof.
  intros HS HD Hnd He Ht fmt source. subst fmt.
  rewrite (contains_tag_render f D HD) in Ht.
  assert (Hreg : regular source) by now apply regular_render.
  pose proof Hreg as (Hcoh & Hprop & Hgood & Hlisted).
  assert (Hord : ordered_keys source = keys Src) by now apply keys_render.
  rewrite (@sync_language_Ok (Some f) source (render f D) Hcoh Hprop).
  cbv zeta.
  set (le := entries (parse_content (render f D) (Some f))).
  assert (Hle : forall k, dict_get k le = None).
  { intros k. unfold le. rewrite (entries_render f D k HD).
    now rewrite He. }
  set (missing := missing_keys (ordered_keys source) le).
  assert (Hmiss : missing = ordered_keys source).
  { unfold missing, missing_keys. apply forallb_filter_id.
    apply forallb_forall. intros k _. unfold dict_mem. now rewrite Hle. }
  set (init := {| add_content := render f D;
                  add_key_set :=
                    ordered_keys (parse_content (render f D) (Some f));
                  added := 0 |}).
  assert (Hinit : models f init D).
  { split; [exact HD|]. split; [reflexivity|]. intros x.
    unfold init. cbn [add_key_set]. now rewrite keys_render. }
  assert (Hse : forall k, In k (ordered_keys source) ->
              exists src, dict_get k (entries source) = Some src).
  { intros k Hk. apply dict_mem_get. now apply Hcoh. }
  assert (Hnd' : NoDup (ordered_keys source)) by now rewrite Hord.
  set (st' := fold_left
                (add_key (Some f) (entries source) (ordered_keys source))
                missing init).
  destruct (fresh_loop f (entries source) (ordered_keys source) Hnd' Hgood
              Hse (ordered_keys source) [] init D eq_refl Hinit)
    as (d' & (Hwf' & Hc' & _) & He' & Ha').
  { unfold keys. now rewrite He. }
  { intros _. exact Ht. }
  assert (Est : st' = fold_left
                        (add_key (Some f) (entries source)
                           (ordered_keys source))
                        (ordered_keys source) init)
    by (unfold st'; now rewrite Hmiss).
  rewrite <- Est in Hc', Ha'.
  rewrite He in He'. cbn [app] in He'.
  set (g := refresh_elem f source (render f D)).
  assert (Hkey : forall e, e_key (g e) = e_key e)
    by (intros e; apply refresh_elem_key).
  assert (Hwf1 : wf_doc f (map_elems g d') = true).
  { apply wf_map_elems; [|exact Hwf']. intros e. apply wf_refresh_elem. }
  eexists. split; [reflexivity|].
  cbn [new_content sync_added]. rewrite Hc'. unfold missing, le.
  rewrite (refresh_loop_render f source (render f D) d' Hreg Hwf').
  fold g. split; [|split].
  - rewrite Ha', Hord. reflexivity.
  - rewrite (keys_render f _ Hwf1), (keys_map_elems g d' Hkey).
    unfold keys. rewrite He', (placeholders_keys f _ _ Hse). exact Hord.
  - intros k src Es.
    rewrite (entries_render f _ k Hwf1), elems_map_elems.
    rewrite (last_elem_map g k _ Hkey), He'.
    assert (Hk : In k (ordered_keys source)).
    { apply Hlisted. unfold dict_mem. now rewrite Es. }
    rewrite (placeholders_last f _ _ k src Hse Hk Es). cbn [option_map].
    f_equal. unfold g. now apply new_elem_read.
Qed.

Lemma fresh_target_in_source_order_witness :
  wf_doc Elements sample_source = true /\ wf_doc Elements empty_doc = true
  /\ NoDup (keys sample_source) /\ elems empty_doc = []
  /\ contains (closing_tag (Some Elements)) (render Elements empty_doc)
     = true
  /\ exists r,
       sync_language (Some Elements)
         (parse_content (render Elements sample_source) (Some Elements))
         (render Elements empty_doc) = Ok r
       /\ sync_added r = 2
       /\ ordered_keys (parse_content (new_content r) (Some Elements))
          = [T "a"; T "b"].
Proof.
  assert (Hnd : NoDup (keys sample_source)).
  { constructor; [intros [H|[]]; discriminate H|].
    constructor; [intros []|constructor]. }
  split; [reflexivity|]. split; [reflexivity|]. split; [exact Hnd|].
  split; [reflexivity|]. split; [reflexivity|].
  destruct (fresh_target_in_source_order Elements sample_source empty_doc
              eq_refl eq_refl Hnd eq_refl eq_refl) as (r & E & Ha & Hk & _).
  exists r. split; [exact E|]. split; [exact Ha | exact Hk].
Defined.

(** ** The sync command and the status command *)

Lemma format_errors_of_entry (k s t : text) :
  length (filter is_format_error (validate_entry k s t))
  = match check_format_specifiers s t k with
    | Some _ =>
        if negb (startswith t (untranslatedPrefix CONFIG)) then 1 else 0
    | None => 0
    end.
Proof.
  unfold validate_entry.
  destruct (startswith t (untranslatedPrefix CONFIG)); cbn [negb].
  { now destruct (check_format_specifiers s t k). }
  rewrite !filter_app, !length_app.
  assert (E1 : filter is_format_error
                 (if is_empty_value t
                  then [{| issue_key := k; issue_kind := Empty;
                           issue_source := []; issue_target := [] |}]
                  else []) = [])
    by now destruct (is_empty_value t).
  assert (E2 : filter is_format_error
                 (if has_whitespace_issues t
                  then [{| issue_key := k; issue_kind := Whitespace;
                           issue_source := []; issue_target := [] |}]
                  else []) = [])
    by now destruct (has_whitespace_issues t).
  rewrite E1, E2. cbn [length Nat.add].
  destruct (check_format_specifiers s t k) as [fi|] eqn:Ef; [|reflexivity].
  destruct (check_format_specifiers_key _ _ _ _ Ef) as [_ Hkind].
  cbn [filter]. unfold is_format_error.
  now destruct Hkind as [-> | ->].
Qed.

Lemma format_errors_count (source_entries lang_entries : dict entry) :
  length (filter is_format_error
            (validation_issues source_entries lang_entries))
  = count_format_errs source_entries lang_entries.
Proof.
  unfold validation_issues, count_format_errs.
  induction source_entries as [|[k sd] se IH]; [reflexivity|].
  cbn [flat_map filter]. rewrite filter_app, length_app, IH.
  destruct (dict_get k lang_entries) as [ld|]; [|reflexivity].
  rewrite format_errors_of_entry.
  destruct (check_format_specifiers (value sd) (value ld) k);
    [|reflexivity].
  now destruct (negb (startswith (value ld) (untranslatedPrefix CONFIG))).
Qed.

(** X24: the sync command and the read-only commands agree on the format
    errors and on the missing keys of a target: the number of format
    errors in a line of the status table is the number of format errors
    the sync command lists, and a key is in the list of missing keys of
    the sync command exactly when it is in that of the comparison of the
    read-only commands. *)
Theorem sync_and_status_agree
  (is_format_only_string is_cognate_or_international_term : text -> bool)
  (fmt : option xml_format) (source_content lang_content : text) :
  let source := parse_content source_content fmt in
  let lang := parse_content lang_content fmt in
  exists r c row,
    sync_language fmt source lang_content = Ok r
    /\ compare_language is_format_only_string
         is_cognate_or_international_term fmt (entries source) lang = Ok c
    /\ status_language is_format_only_string
         is_cognate_or_international_term fmt (entries source) lang = Ok row
    /\ st_format_errs row = length (sync_format_errors r)
    /\ forall k, In k (sync_missing r) <-> In k (cmp_missing c).
Proof.
  intros source lang.
  assert (Hc := parse_content_coherent source_content fmt).
  assert (Hp := parse_content_proper source_content fmt).
  fold source in Hc, Hp.
  pose proof (@sync_language_Ok fmt source lang_content Hc Hp) as E.
  cbv zeta in E.
  pose proof (@compare_language_Ok is_format_only_string
                is_cognate_or_international_term fmt (entries source) lang
                Hp) as E'.
  eexists. eexists. eexists. split; [exact E|]. split; [exact E'|].
  split.
  { unfold status_language. rewrite E'. cbn [bind]. reflexivity. }
  cbn [st_format_errs sync_format_errors cmp_missing sync_missing].
  fold lang. split.
  - symmetry. apply format_errors_count.
  - intros k. rewrite missing_keys_In. unfold keys_of_class.
    rewrite in_map_iff. split.
    + intros [Hk Hm]. apply Hc, dict_mem_get in Hk as [src Es].
      exists (k, src). split; [reflexivity|]. apply filter_In.
      split; [now apply dict_get_In|].
      unfold class_of. cbn [fst snd]. now rewrite Hm.
    + intros ([k' src] & <- & Hin). apply filter_In in Hin as [Hin Hcl].
      cbn [fst]. split.
      * apply mem_In. unfold source. rewrite <- parse_content_mem.
        apply dict_mem_keys. now apply (in_map fst) in Hin.
      * unfold class_of in Hcl. cbn [fst snd] in Hcl.
        destruct (dict_get k' (entries lang)); [|reflexivity].
        now destruct (classify_translation _ _ _ _ _ _).
Qed.

(** ** The source file after the sync command *)

(** X25: when the sync command goes to work, what it leaves in the
    source file is what [update_source_hashes] returns for the content
    of the file, in the elements dialect, and the content as it was in
    the texts dialect: the loop over the target languages never writes
    the source file. *)
Theorem sync_source_file (d : dir) (p : file_prefix) (content : text)
  (f : xml_format) :
  auto_detect_file_prefix d = Some p ->
  read_file (get_source_file_path p) d = Ok content ->
  auto_detect_xml_format content = Some f ->
  read_file (get_source_file_path p) (snd (sync_translations d))
  = Ok match f with
       | Elements => fst (update_source_hashes content (Some Elements))
       | Texts => content
       end.
Proof.
  intros Ep Hr Ef. unfold sync_translations. rewrite Ep.
  assert (Ex : exists_file (get_source_file_path p) d = true)
    by (apply read_file_Ok; now exists content).
  rewrite Ex, Hr, Ef. cbn [negb].
  set (d1 := if is_elements (Some f)
             then let (content0, updated) :=
                    update_source_hashes content (Some f) in
                  if 0 <? updated
                  then write_file (get_source_file_path p) content0 d
                  else d
             else d).
  assert (N1 : map fst d1 = map fst d).
  { unfold d1. destruct (is_elements (Some f)); [|reflexivity].
    destruct (update_source_hashes content (Some f)) as [c0 u].
    destruct (0 <? u); [|reflexivity]. now apply write_file_names. }
  assert (G1 : read_file (get_source_file_path p) d1
               = Ok match f with
                    | Elements =>
                        fst (update_source_hashes content (Some Elements))
                    | Texts => content
                    end).
  { unfold d1. destruct f; cbn [is_elements]; [|exact Hr].
    pose proof (update_source_hashes_zero content) as Hz.
    destruct (update_source_hashes content (Some Elements)) as [c0 u].
    cbn [fst snd] in *. destruct (0 <? u) eqn:E0.
    - apply read_file_get. unfold write_file. apply dict_get_set_same.
    - apply Nat.ltb_ge in E0. assert (u = 0) by lia. subst u.
      now rewrite (Hz eq_refl). }
  unfold parse_translation_file. rewrite G1. cbn [bind].
  rewrite (get_enabled_languages_names d d1 N1).
  set (content1 := match f with
                   | Elements =>
                       fst (update_source_hashes content (Some Elements))
                   | Texts => content
                   end) in *.
  destruct (sync_all_total p (Some f) (parse_content content1 (Some f))
              (get_enabled_languages d)
              (parse_content_coherent content1 (Some f))
              (parse_content_proper content1 (Some f)) d1)
    as (d' & E & N & G).
  rewrite E. cbn [snd]. apply read_file_get. rewrite G.
  - now apply read_file_get.
  - intros c Hc Heq. apply (lang_path_not_source p c); [|now symmetry].
    now apply (enabled_not_source d).
Qed.

Lemma sync_source_file_witness :
  auto_detect_file_prefix sample_dir = Some Lang
  /\ read_file (get_source_file_path Lang) sample_dir
     = Ok (render Elements sample_source)
  /\ auto_detect_xml_format (render Elements sample_source) = Some Elements
  /\ read_file (get_source_file_path Lang) (snd (sync_translations sample_dir))
     = Ok (fst (update_source_hashes (render Elements sample_source)
                  (Some Elements))).
Proof.
  split; [reflexivity|]. split; [reflexivity|]. split; [reflexivity|].
  exact (sync_source_file sample_dir Lang (render Elements sample_source)
           Elements eq_refl eq_refl eq_refl).
Defined.

(** ** File names and the case of their letters *)







(** ** What a rewritten entry keeps *)



